(** * Aptomi object store and policy API: a shallow embedding

    The development follows the Go sources:
    - [store]  : pkg/runtime/store, index names and [IndexValueList]
    - [etcd]   : pkg/runtime/store/etcd, [Save] and [Find]
    - [api]    : pkg/api, the policy update and delete handlers
    - [api_get], [api_columns], [api_sorter] : pkg/api, the handlers that
      read a policy, the result as columns, and the sorter of the objects
    - [lang_loader] : pkg/slinga/lang, the loader of test policies
    - [webui]  : webui/src/lib/api.js, the lists of policy objects

    Go strings are [string]; byte slices are [list byte]; the etcd key
    space is a finite map from keys to values in which an absent key
    reads as the empty string, as [stm.Get] does. *)

From Stdlib Require Import NArith Ascii.
From Stdlib.Strings Require Import Byte.
From Stdlib Require Import DecimalString DecimalN DecimalPos.
From stdpp Require Import base option list strings gmap sorting.

Local Open Scope N_scope.

(** ** Package reflect (Go standard library): types as Find compares them *)
Module reflect.

Inductive rtype :=
| TNamed (name : string)
| TPtr (elem : rtype)
| TSlice (elem : rtype).

#[global] Instance rtype_eq_dec : EqDecision rtype.
Proof. solve_decision. Defined.

Definition PtrTo (t : rtype) : rtype := TPtr t.
Definition SliceOf (t : rtype) : rtype := TSlice t.

End reflect.

(** ** Package runtime (not among the sources; only what the store uses) *)
Module runtime.

Definition Generation := N.

(** Modelled from the spec: runtime.LastOrEmptyGen is missing; generation
    [0] means "last or empty". *)
Definition LastOrEmptyGen : Generation := 0.

(** Modelled from the spec: runtime.FirstGen is missing; the first
    generation of an object is [1]. *)
Definition FirstGen : Generation := 1.

(** Modelled from the spec: Generation.Next is missing; the next
    generation is [lastGen+1]. *)
Definition Next (g : Generation) : Generation := g + 1.

(** Modelled from the spec: Generation.String is missing; keys carry the
    generation in decimal, as in [/object/<key>@1]. *)
Definition Generation_String (g : Generation) : string :=
  NilEmpty.string_of_uint (N.to_uint g).

(** Go values that reach the index layer as [interface{}]: nil, a string,
    a generation, or a value of another type (given by a representation
    that only the codec reads). *)
Inductive Value :=
| VNil
| VString (s : string)
| VGeneration (g : Generation)
| VOther (repr : string).

#[global] Instance Value_eq_dec : EqDecision Value.
Proof. solve_decision. Defined.

(** A storable object: its kind, the parts of its key, whether its Go type
    implements runtime.Versioned, its generation, and the values of its
    struct fields by reflection index. *)
Record Storable := mkStorable {
  Kind : string;
  Namespace : string;
  Name : string;
  IsVersioned : bool;
  Gen : Generation;
  Fields : list Value;
}.

#[global] Instance Storable_eq_dec : EqDecision Storable.
Proof. solve_decision. Defined.

Definition GetKind (o : Storable) : string := Kind o.
Definition GetGeneration (o : Storable) : Generation := Gen o.
Definition SetGeneration (o : Storable) (g : Generation) : Storable :=
  mkStorable (Kind o) (Namespace o) (Name o) (IsVersioned o) g (Fields o).

(** Modelled from the spec: runtime.KeyForStorable is missing; a key is
    [namespace/kind/name]. *)
Definition KeyForStorable (o : Storable) : string :=
  Namespace o +:+ "/" +:+ Kind o +:+ "/" +:+ Name o.

(** reflect.DeepEqual on two objects of one kind: both are pointers to
    the same struct type, so every field is compared, the generation
    included. *)
Definition DeepEqual (a b : Storable) : bool := bool_decide (a = b).

(** runtime.TypeInfo: the struct fields of the object type are listed
    with their [store] tag, in declaration order; [New] is the zero object
    the constructor returns and [NewType] its dynamic type. *)
Record TypeInfo := mkTypeInfo {
  TIKind : string;
  Versioned : bool;
  New : Storable;
  NewType : reflect.rtype;
  StructFields : list (string * string);
  IndexValueTransforms : string -> option (Value -> Value);
}.

End runtime.

(** ** Package sort and bytes (Go standard library) *)
Module gosort.

(** The loop of sort.Search: [i, j := 0, n; for i < j { h := (i+j)/2;
    if !f(h) { i = h+1 } else { j = h } }; return i]. The interval
    shrinks at every turn, so [j - i] turns are enough. *)
Fixpoint search_loop (fuel : nat) (f : nat -> bool) (i j : nat) : nat :=
  match fuel with
  | O => i
  | S fuel' =>
      if (i <? j)%nat then
        let h := ((i + j) / 2)%nat in
        if negb (f h) then search_loop fuel' f (h + 1)%nat j
        else search_loop fuel' f i h
      else i
  end.

Definition Search (n : nat) (f : nat -> bool) : nat := search_loop n f 0%nat n.

(** sort.Strings: the strings in increasing order, as Go compares strings,
    byte by byte. Strings that compare equal are the same string, so there
    is one increasing arrangement whatever the algorithm; a merge sort gives
    it. *)
Definition Strings (x : list string) : list string := merge_sort String.le x.

End gosort.

Module bytes.

(** bytes.Compare: lexicographic order on unsigned bytes. *)
Fixpoint Compare (a b : list byte) : comparison :=
  match a, b with
  | [], [] => Eq
  | [], _ :: _ => Lt
  | _ :: _, [] => Gt
  | x :: a', y :: b' =>
      match N.compare (Byte.to_N x) (Byte.to_N y) with
      | Eq => Compare a' b'
      | c => c
      end
  end.

#[global] Instance byte_eq_dec : EqDecision byte := Byte.byte_eq_dec.

Definition Equal (a b : list byte) : bool := bool_decide (a = b).

(** [Compare a b >= 0] *)
Definition ge0 (c : comparison) : bool :=
  match c with Lt => false | _ => true end.

End bytes.

Module gostrings.

(** strings.Contains *)
Fixpoint Contains (s substr : string) : bool :=
  String.prefix substr s ||
  match s with
  | EmptyString => false
  | String _ s' => Contains s' substr
  end.

(** [[]byte(s)] *)
Definition to_bytes (s : string) : list byte := String.list_byte_of_string s.

(** strings.Repeat *)
Fixpoint Repeat (s : string) (count : nat) : string :=
  match count with
  | O => ""
  | S n => s +:+ Repeat s n
  end.

(** Whether the character is one of the cutset. The cutsets used are
    ASCII, for which the code points of a string are its bytes. *)
Definition inCutset (c : ascii) (cutset : string) : bool :=
  existsb (Ascii.eqb c) (String.list_ascii_of_string cutset).

(** strings.TrimLeft *)
Fixpoint TrimLeft (s cutset : string) : string :=
  match s with
  | EmptyString => EmptyString
  | String c s' => if inCutset c cutset then TrimLeft s' cutset else s
  end.

(** strings.TrimRight *)
Fixpoint TrimRight (s cutset : string) : string :=
  match s with
  | EmptyString => EmptyString
  | String c s' =>
      match TrimRight s' cutset with
      | EmptyString => if inCutset c cutset then EmptyString else String c EmptyString
      | r => String c r
      end
  end.

(** strings.Trim: the leading and the trailing characters of the cutset
    are cut off. *)
Definition Trim (s cutset : string) : string :=
  TrimLeft (TrimRight s cutset) cutset.

End gostrings.

(** ** Package store: indexes (pkg/runtime/store) *)
Module store.
Import runtime.

(** store.Codec: only Marshal is called by the index layer; [None] is a
    returned error. *)
Record Codec := mkCodec {
  Marshal : Value -> option string;
}.

(** LastGenIndex is the name of the index to get last generation for an
    object. *)
Definition LastGenIndex : string := "".

Inductive IndexType :=
| IndexTypeUndef
| IndexTypeLastGen
| IndexTypeListGen.

#[global] Instance IndexType_eq_dec : EqDecision IndexType.
Proof. solve_decision. Defined.

(** IndexType.String; [None] is the panic on an unknown index type. *)
Definition IndexType_String (indexType : IndexType) : option string :=
  match indexType with
  | IndexTypeUndef => None
  | IndexTypeLastGen => Some "lastgen"
  | IndexTypeListGen => Some "listgen"
  end.

Record Index := mkIndex {
  Type_ : IndexType;
  Field : string;
  ValueTransform : option (Value -> Value);
  rFieldID : nat;
}.

(** Indexes.List is a Go map from index name to index. It is kept as an
    association list with one entry per name; the order of the list is the
    order in which a [range] over the map visits the entries, which Go
    leaves open. *)
Record Indexes := mkIndexes {
  List : list (string * Index);
}.

Definition noopValueTransform (val : Value) : Value := val.

(** Index.NameForValue; [None] is a panic. *)
Definition Index_NameForValue (index : Index) (key : string) (value : Value)
    (codec : Codec) : option string :=
  typeName ← IndexType_String (Type_ index);
  let key := typeName +:+ "/" +:+ key in
  if decide (Type_ index = IndexTypeLastGen) then Some key
  else
    transform ← ValueTransform index;
    let value := transform value in
    match value with
    | VNil => Some ""
    | VString valueStr => Some (key +:+ "/" +:+ Field index +:+ "=" +:+ valueStr)
    | VGeneration valueGen =>
        Some (key +:+ "/" +:+ Field index +:+ "=" +:+ Generation_String valueGen)
    | VOther _ =>
        data ← Marshal codec value;
        Some (key +:+ "/" +:+ Field index +:+ "=" +:+ data)
    end.

(** Index.NameForStorable; reading a field that the struct does not have
    panics. *)
Definition Index_NameForStorable (index : Index) (storable : Storable)
    (codec : Codec) : option string :=
  let key := KeyForStorable storable in
  if decide (Type_ index = IndexTypeLastGen) then
    Index_NameForValue index key VNil codec
  else
    f ← Fields storable !! rFieldID index;
    Index_NameForValue index key f codec.

Definition lookupIndex (indexes : Indexes) (indexName : string) : option Index :=
  snd <$> List.find (fun e => bool_decide (fst e = indexName)) (List indexes).

(** Indexes.NameForStorable; an index name that does not exist panics. *)
Definition NameForStorable (indexes : Indexes) (indexName : string)
    (storable : Storable) (codec : Codec) : option string :=
  index ← lookupIndex indexes indexName;
  Index_NameForStorable index storable codec.

(** Indexes.NameForValue *)
Definition NameForValue (indexes : Indexes) (indexName : string) (key : string)
    (value : Value) (codec : Codec) : option string :=
  index ← lookupIndex indexes indexName;
  Index_NameForValue index key value codec.

(** [indexes.List[name] = index] *)
Fixpoint setIndex (name : string) (index : Index) (l : list (string * Index))
    : list (string * Index) :=
  match l with
  | [] => [(name, index)]
  | e :: l' =>
      if decide (fst e = name) then (name, index) :: l'
      else e :: setIndex name index l'
  end.

(** The loop of IndexesFor over the struct fields, [i] being the
    reflection index of the first field of [fields]. *)
Fixpoint fieldIndexes (info : TypeInfo) (i : nat) (fields : list (string * string))
    (acc : list (string * Index)) : list (string * Index) :=
  match fields with
  | [] => acc
  | (fName, tag) :: rest =>
      if gostrings.Contains tag "index" then
        let transformer :=
          match IndexValueTransforms info fName with
          | Some t => t
          | None => noopValueTransform
          end in
        fieldIndexes info (S i) rest
          (setIndex fName (mkIndex IndexTypeListGen fName (Some transformer) i) acc)
      else fieldIndexes info (S i) rest acc
  end.

(** IndexesFor, as computed on the first call for a kind (later calls
    return the cached collection). *)
Definition IndexesFor (info : TypeInfo) : Indexes :=
  let l :=
    if Versioned info then
      [(LastGenIndex, mkIndex IndexTypeLastGen "" None 0)]
    else [] in
  mkIndexes (fieldIndexes info 0 (StructFields info) l).

(** *** IndexValueList *)

Definition IndexValueList := list (list byte).

(** [copy(l[dst:], l[src:])]: the elements are moved as by memmove. *)
Definition slice_copy {A} (l : list A) (dst src : nat) : list A :=
  let n := Nat.min (length l - dst) (length l - src) in
  take dst l ++ take n (drop src l) ++ drop (dst + n) l.

(** The binary search shared by Add, Remove and Contains. *)
Definition searchValue (lst : IndexValueList) (value : list byte) : nat :=
  gosort.Search (length lst)
    (fun index => bytes.ge0 (bytes.Compare (nth index lst []) value)).

Definition Add (lst : IndexValueList) (value : list byte) : IndexValueList :=
  let valueIndex := searchValue lst value in
  if (valueIndex <? length lst)%nat && bytes.Equal (nth valueIndex lst []) value
  then lst
  else
    let list1 := lst ++ [[]] in
    let list2 := slice_copy list1 (valueIndex + 1) valueIndex in
    <[valueIndex := value]> list2.

Definition Remove (lst : IndexValueList) (value : list byte) : IndexValueList :=
  let valueIndex := searchValue lst value in
  if (valueIndex <? length lst)%nat then
    let list1 := slice_copy lst valueIndex (valueIndex + 1) in
    let list2 := <[(length list1 - 1)%nat := []]> list1 in
    take (length list2 - 1) list2
  else lst.

Definition Contains (lst : IndexValueList) (value : list byte) : bool :=
  let valueIndex := searchValue lst value in
  (valueIndex <? length lst)%nat && bytes.Equal (nth valueIndex lst []) value.

(** The values stand in strictly ascending order of bytes.Compare, as Add
    keeps them. *)
Definition ascending (lst : IndexValueList) : Prop :=
  ∀ i j a b, (i < j)%nat -> lst !! i = Some a -> lst !! j = Some b ->
             bytes.Compare a b = Lt.

End store.

(** ** Package etcd: the store on top of etcd (pkg/runtime/store/etcd)

    Save calls [indexes.KeyForStorable] and [index.KeyForStorable]; the
    index file of the sources declares these methods, with the same
    parameters, as NameForStorable, and they are taken to be the same. *)
Module etcd.
Import runtime store.

(** The etcd key space as one transaction sees it. [stm.Get] gives the
    empty string for a key that is not there; a transaction reads its own
    earlier writes. *)
Definition Get (st : gmap string string) (k : string) : string :=
  default "" (st !! k).

Definition Put (st : gmap string string) (k v : string) : gmap string string :=
  <[k := v]> st.

(** The store with the helper methods that are not among the sources:
    [s.marshal] and [s.unmarshal] (on objects and on index value lists)
    return no error, so a failure can only be a panic, [None] here;
    [s.marshalGen] and [s.unmarshalGen] turn a generation into the string
    kept in an index and back. *)
Record etcdStore := mkStore {
  codec : Codec;
  marshal : Storable -> option string;
  unmarshal : string -> Storable -> option Storable;
  marshalList : IndexValueList -> option string;
  unmarshalList : string -> option IndexValueList;
  marshalGen : Generation -> string;
  unmarshalGen : string -> option Generation;
}.

(** store.SaveOpts *)
Record SaveOpts := mkSaveOpts {
  replaceOrForceGen : bool;
}.
Definition IsReplaceOrForceGen (o : SaveOpts) : bool := replaceOrForceGen o.
Definition defaultOpts : SaveOpts := mkSaveOpts false.
Definition WithReplaceOrForceGen : SaveOpts := mkSaveOpts true.

Inductive error :=
| ErrSaveNil
| ErrEmptyGeneration (key : string)
| ErrLastGenCorrupted (key : string)
| ErrResultType.

#[global] Instance error_eq_dec : EqDecision error.
Proof. solve_decision. Defined.

(** What a call comes back with: no error, an error, or a panic. *)
Inductive outcome :=
| Ok
| Err (e : error)
| Panic.

#[global] Instance outcome_eq_dec : EqDecision outcome.
Proof. solve_decision. Defined.

(** etcdconc.NewSTM with a single writer: the writes of the function are
    committed when it returns no error and dropped otherwise. *)
Definition NewSTM {A} (st : gmap string string)
    (f : gmap string string -> outcome * A * gmap string string)
    : outcome * A * gmap string string :=
  let '(r, a, st') := f st in
  match r with
  | Ok => (Ok, a, st')
  | _ => (r, a, st)
  end.

Definition objectKey (key : string) (gen : Generation) : string :=
  "/object" +:+ key +:+ "@" +:+ Generation_String gen.

(** [valueList := &store.IndexValueList{}], filled from the raw value of
    the index key when there is one. *)
Definition readValueList (s : etcdStore) (valueListRaw : string)
    : option IndexValueList :=
  if decide (valueListRaw = "") then Some [] else unmarshalList s valueListRaw.

(** One turn of the loop over [indexes.List] in Save. [prevObj] is only
    tested against nil, in a block that holds a todo and no statement. *)
Definition saveIndex (s : etcdStore) (newStorable : Storable)
    (prevObj : option Storable) (newGen : Generation) (index : Index)
    (st : gmap string string) : option (gmap string string) :=
  name ← Index_NameForStorable index newStorable (codec s);
  let indexKey := "/index/" +:+ name in
  match Type_ index with
  | IndexTypeLastGen => Some (Put st indexKey (marshalGen s newGen))
  | IndexTypeListGen =>
      let valueListRaw := Get st indexKey in
      valueList ← readValueList s valueListRaw;
      let valueList := Add valueList (gostrings.to_bytes (marshalGen s newGen)) in
      data ← marshalList s valueList;
      Some (Put st indexKey data)
  | IndexTypeUndef => None
  end.

Fixpoint saveIndexes (s : etcdStore) (newStorable : Storable)
    (prevObj : option Storable) (newGen : Generation)
    (l : list (string * Index)) (st : gmap string string)
    : option (gmap string string) :=
  match l with
  | [] => Some st
  | (_, index) :: rest =>
      st' ← saveIndex s newStorable prevObj newGen index st;
      saveIndexes s newStorable prevObj newGen rest st'
  end.

(** The first half of the transaction of Save: it settles the generation
    of the new object. [inl] is an early return; [inr] carries the new
    object and the outer [prevObj] on to the writes. *)
Definition chooseGeneration (s : etcdStore) (info : TypeInfo) (indexes : Indexes)
    (saveOpts : SaveOpts) (key : string) (newObj : Storable)
    (st : gmap string string)
    : (outcome * Storable) + (Storable * option Storable) :=
  if IsReplaceOrForceGen saveOpts then
    let newGen := GetGeneration newObj in
    if decide (newGen = LastOrEmptyGen) then inl (Err (ErrEmptyGeneration key), newObj)
    else
      let oldObjRaw := Get st (objectKey key newGen) in
      if decide (oldObjRaw = "") then inr (newObj, None)
      else
        (* the object read here is bound to an inner [prevObj]; the outer
           one stays nil *)
        match unmarshal s oldObjRaw (New info) with
        | None => inl (Panic, newObj)
        | Some _ => inr (newObj, None)
        end
  else
    match NameForStorable indexes LastGenIndex newObj (codec s) with
    | None => inl (Panic, newObj)
    | Some name =>
        let lastGenRaw := Get st ("/index/" +:+ name) in
        if decide (lastGenRaw = "") then inr (SetGeneration newObj FirstGen, None)
        else
          match unmarshalGen s lastGenRaw with
          | None => inl (Panic, newObj)
          | Some lastGen =>
              let oldObjRaw := Get st (objectKey key lastGen) in
              if decide (oldObjRaw = "") then inl (Err (ErrLastGenCorrupted key), newObj)
              else
                match unmarshal s oldObjRaw (New info) with
                | None => inl (Panic, newObj)
                | Some prevObj =>
                    if negb (DeepEqual prevObj newObj) then
                      inr (SetGeneration newObj (Next lastGen), Some prevObj)
                    else
                      (* nothing to do - object wasn't changed *)
                      inl (Ok, SetGeneration newObj lastGen)
                end
          end
    end.

(** The function handed to NewSTM by Save. *)
Definition saveTxn (s : etcdStore) (info : TypeInfo) (indexes : Indexes)
    (saveOpts : SaveOpts) (key : string) (newObj : Storable)
    (st : gmap string string) : outcome * Storable * gmap string string :=
  match chooseGeneration s info indexes saveOpts key newObj st with
  | inl (r, newObj) => (r, newObj, st)
  | inr (newObj, prevObj) =>
      match marshal s newObj with
      | None => (Panic, newObj, st)
      | Some data =>
          let newGen := GetGeneration newObj in
          let st := Put st (objectKey key newGen) data in
          match saveIndexes s newObj prevObj newGen (List indexes) st with
          | None => (Panic, newObj, st)
          | Some st => (Ok, newObj, st)
          end
      end
  end.

(** Save. [info] is [s.types.Get(newStorable.GetKind())] and [indexes] is
    [store.IndexesFor(info)] with its entries in the order in which the
    range statement of this call visits them. The result is the outcome,
    the object as the caller sees it afterwards, and the key space. A failure
    of etcd itself (the error of client.Put, a transaction that cannot
    commit) is not modelled. *)
Definition Save (s : etcdStore) (info : TypeInfo) (indexes : Indexes)
    (newStorable : option Storable) (saveOpts : SaveOpts)
    (st : gmap string string)
    : outcome * option Storable * gmap string string :=
  match newStorable with
  | None => (Err ErrSaveNil, None, st)
  | Some newStorable =>
      let key := "/" +:+ KeyForStorable newStorable in
      if negb (Versioned info) then
        match marshal s newStorable with
        | None => (Panic, Some newStorable, st)
        | Some data =>
            (Ok, Some newStorable,
             Put st (objectKey key LastOrEmptyGen) data)
        end
      else if negb (IsVersioned newStorable) then
        (* newStorable.(runtime.Versioned) *)
        (Panic, Some newStorable, st)
      else
        let '(r, o, st') :=
          NewSTM st (saveTxn s info indexes saveOpts key newStorable) in
        (r, Some o, st')
  end.

(** *** Find *)

(** store.FindOpts, through its getters *)
Record FindOpts := mkFindOpts {
  GetKeyPrefix : string;
  GetKey : string;
  GetFieldEqName : string;
}.

(** What [reflect.ValueOf(result).Elem()] designates: one object or a
    slice of objects. *)
Inductive pointee :=
| One (o : Storable)
| Many (l : list Storable).

(** The [result] argument of Find: its dynamic type and, when it is a
    pointer, what it points to ([None] when it is not a pointer, so that
    [Elem] panics). *)
Record resultArg := mkResult {
  resultType : reflect.rtype;
  target : option pointee;
}.

(** The lines Find prints with fmt.Println. *)
Inductive printed :=
| PrintFindOpts (o : FindOpts)
| PrintResultList (resultList : bool).

(** [v.Set(reflect.Append(v, reflect.ValueOf(elem)))]; Append panics on a
    value that is not a slice. *)
Definition appendToResult (v : pointee) (elem : Storable) : option pointee :=
  match v with
  | Many l => Some (Many (l ++ [elem]))
  | One _ => None
  end.

(** [v.Set(reflect.ValueOf(elem))] *)
Definition setResult (v : pointee) (elem : Storable) : option pointee :=
  match v with
  | One _ => Some (One elem)
  | Many _ => None
  end.

(** The three finders are stubs; each gets the callback that stores an
    element into the result. *)
Definition findByKeyPrefix (opts : FindOpts) (info : TypeInfo)
    (addToResult : pointee -> Storable -> option pointee) (v : pointee)
    : outcome * pointee :=
  (Ok, v).

Definition findByKey (opts : FindOpts) (info : TypeInfo)
    (addToResult : pointee -> Storable -> option pointee) (v : pointee)
    : outcome * pointee :=
  (Ok, v).

Definition findByPredicate (opts : FindOpts) (info : TypeInfo)
    (addToResult : pointee -> Storable -> option pointee) (v : pointee)
    : outcome * pointee :=
  match addToResult v (New info) with
  | None => (Panic, v)
  | Some v1 =>
      match addToResult v1 (New info) with
      | None => (Panic, v1)
      | Some v2 => (Ok, v2)
      end
  end.

(** Find. [info] is [s.types.Get(kind)]. The result is the outcome, what
    [result] points to afterwards, and the lines printed. *)
Definition Find (info : TypeInfo) (result : resultArg) (findOpts : FindOpts)
    : outcome * option pointee * list printed :=
  let resultTypeSingle := NewType info in
  let resultTypeList := reflect.PtrTo (reflect.SliceOf resultTypeSingle) in
  let check : option bool :=
    if decide (resultType result = resultTypeSingle) then Some false
    else if decide (resultType result = resultTypeList) then Some true
    else None in
  match check with
  | None => (Err ErrResultType, target result, [])
  | Some resultList =>
      let out := [PrintFindOpts findOpts; PrintResultList resultList] in
      match target result with
      | None => (Panic, None, out)
      | Some v =>
          let '(r, v') :=
            if decide (GetKeyPrefix findOpts ≠ "") then
              findByKeyPrefix findOpts info appendToResult v
            else if decide (GetKey findOpts ≠ "" ∧ GetFieldEqName findOpts = "") then
              findByKey findOpts info setResult v
            else
              findByPredicate findOpts info appendToResult v in
          (r, Some v', out)
      end
  end.

(** *** Conditions on the codec and on the key space *)

(** A generation written into an index is not the empty string and reads
    back as itself. *)
Definition GenCodecOk (s : etcdStore) : Prop :=
  ∀ g, marshalGen s g ≠ "" ∧ unmarshalGen s (marshalGen s g) = Some g.

(** A marshaled index value list reads back as itself. *)
Definition ListCodecOk (s : etcdStore) : Prop :=
  ∀ l data, marshalList s l = Some data -> readValueList s data = Some l.

(** The object, once marshaled, is not empty and unmarshals to itself. *)
Definition ObjectRoundTrip (s : etcdStore) (info : TypeInfo) (o : Storable) : Prop :=
  ∀ data, marshal s o = Some data ->
    data ≠ "" ∧ unmarshal s data (New info) = Some o.

(** The collection has the last-generation index under its name, as
    IndexesFor gives for a versioned kind. *)
Definition HasLastGen (indexes : Indexes) : Prop :=
  ∃ index, lookupIndex indexes LastGenIndex = Some index ∧
           Type_ index = IndexTypeLastGen.

(** The key of the last-generation index entry of an object. *)
Definition lastGenKey (o : Storable) : string :=
  "/index/lastgen/" +:+ KeyForStorable o.

(** The object stored at the generation the last-generation index names
    carries that generation. Save keeps this: it marshals the object after
    setting its generation. *)
Definition LastGenConsistent (s : etcdStore) (info : TypeInfo) (o : Storable)
    (st : gmap string string) : Prop :=
  ∀ lastGen prevObj,
    Get st (lastGenKey o) ≠ "" ->
    unmarshalGen s (Get st (lastGenKey o)) = Some lastGen ->
    unmarshal s (Get st (objectKey ("/" +:+ KeyForStorable o) lastGen)) (New info)
      = Some prevObj ->
    Gen prevObj = lastGen.

(** [obj] is what the key space holds for the key of [o] at generation
    [g]. *)
Definition Stored (s : etcdStore) (info : TypeInfo) (o : Storable) (g : Generation)
    (st : gmap string string) (obj : Storable) : Prop :=
  Get st (objectKey ("/" +:+ KeyForStorable o) g) ≠ "" ∧
  unmarshal s (Get st (objectKey ("/" +:+ KeyForStorable o) g)) (New info) = Some obj.

(** The last-generation entry of the key of [o] names the highest
    generation stored for the key: nothing is stored for the key above it, or
    at all while the entry is absent. *)
Definition HighestGen (s : etcdStore) (o : Storable) (st : gmap string string) : Prop :=
  ∀ g, Get st (objectKey ("/" +:+ KeyForStorable o) g) ≠ "" ->
    Get st (lastGenKey o) ≠ "" ∧
    ∃ lastGen, unmarshalGen s (Get st (lastGenKey o)) = Some lastGen ∧ g <= lastGen.

(** Whether some list index in [l] has its entry for the object under
    [name]. *)
Definition touches (c : Codec) (o : Storable) (l : list (string * Index))
    (name : string) : Prop :=
  ∃ e, e ∈ l ∧ Type_ e.2 = IndexTypeListGen ∧
       Index_NameForStorable e.2 o c = Some name.

(** [name] is the entry of a list index of the collection for the
    object: [listgen/<key>/<field>=<value>] for its current value of an
    indexed field. *)
Definition ListGenName (indexes : Indexes) (c : Codec) (o : Storable)
    (name : string) : Prop :=
  touches c o (List indexes) name.

(** [name] is an entry of a list index of the collection for the key of
    [o], under some value of the indexed field. *)
Definition ListGenEntry (indexes : Indexes) (c : Codec) (o : Storable)
    (name : string) : Prop :=
  name ≠ "" ∧
  ∃ e v, e ∈ List indexes ∧ Type_ e.2 = IndexTypeListGen ∧
         Index_NameForValue e.2 (KeyForStorable o) v c = Some name.

(** Index consistency for the key of [o]: every list-generation entry of
    the key reads as a list that holds exactly the generations at which the
    stored object has its entry under that name, that is, has that value of
    the indexed field. *)
Definition ListGenExact (s : etcdStore) (info : TypeInfo) (indexes : Indexes)
    (o : Storable) (st : gmap string string) : Prop :=
  ∀ name, ListGenEntry indexes (codec s) o name ->
    ∃ lst,
      readValueList s (Get st ("/index/" +:+ name)) = Some lst ∧
      ∀ b, b ∈ lst ↔
           ∃ g obj, b = gostrings.to_bytes (marshalGen s g) ∧
                    Stored s info o g st obj ∧
                    ListGenName indexes (codec s) obj name.

(** The key spaces that default-mode Saves of objects with one key build
    from the empty key space, each Save returning without error on an object
    that the codec gives back. *)
Inductive savedFrom (s : etcdStore) (info : TypeInfo) (indexes : Indexes) (key : string)
    : gmap string string -> Prop :=
| savedFrom_empty : savedFrom s info indexes key ∅
| savedFrom_Save o o1 st st1 :
    savedFrom s info indexes key st ->
    KeyForStorable o = key ->
    IsVersioned o = true ->
    Save s info indexes (Some o) defaultOpts st = (Ok, Some o1, st1) ->
    ObjectRoundTrip s info o1 ->
    savedFrom s info indexes key st1.

(** The three together, for the key of [o]. *)
Definition KeyInvariant (s : etcdStore) (info : TypeInfo) (indexes : Indexes)
    (o : Storable) (st : gmap string string) : Prop :=
  LastGenConsistent s info o st ∧
  HighestGen s o st ∧
  ListGenExact s info indexes o st.

End etcd.

(** ** Package strconv (Go standard library) *)
Module strconv.

(** strconv.ParseBool; [None] is the syntax error. *)
Definition ParseBool (str : string) : option bool :=
  if bool_decide (str ∈ ["1"; "t"; "T"; "true"; "TRUE"; "True"]) then Some true
  else if bool_decide (str ∈ ["0"; "f"; "F"; "false"; "FALSE"; "False"]) then Some false
  else None.

(** strconv.Itoa *)
Definition Itoa (i : Z) : string := NilZero.string_of_int (Z.to_int i).

End strconv.

(** ** Package api: the policy handlers (pkg/api) *)
Module api.
Import runtime.

(** Everything the handlers call that is not among the sources: the
    policy container of package lang, the registry, the resolver, the diff,
    the event log, the cluster plugins and sort.Sort. A method that returns
    an error gives [None] (or [false]) for it. The registry is a value that
    the reading methods only inspect and the writing methods return anew. *)
Record World := mkWorld {
  Base : Type;
  Base_GetKind : Base -> string;
  TypeACLRule_Kind : string;
  User : Type;
  User_Name : User -> string;
  Policy : Type;
  ManageObject : Policy -> User -> Base -> bool;
  AddObject : Policy -> Base -> option Policy;
  RemoveObject : Policy -> Base -> Policy;
  Policy_Validate : Policy -> bool;
  Cluster : Type;
  Plugin : Type;
  AsCluster : Base -> option Cluster;
  ForCluster : Cluster -> option Plugin;
  Plugin_Validate : Plugin -> bool;
  Registry : Type;
  Revision : Type;
  PolicyData : Type;
  PolicyResolution : Type;
  Revision_GetGeneration : Revision -> Generation;
  PolicyData_GetGeneration : PolicyData -> Generation;
  GetPolicy : Registry -> Generation -> option (Policy * Generation);
  GetLastRevisionForPolicy : Registry -> Generation -> option Revision;
  GetDesiredState : Registry -> Revision -> option PolicyResolution;
  UpdatePolicy : Registry -> list Base -> string -> Registry * option (bool * PolicyData);
  DeleteFromPolicy : Registry -> list Base -> string -> Registry * option (bool * PolicyData);
  NewRevision : Registry -> Generation -> PolicyResolution -> bool -> Registry * option Revision;
  LogLevel : Type;
  ParseLevel : string -> option LogLevel;
  WarnLevel : LogLevel;
  EventLog : Type;
  APIEvent : Type;
  AsAPIEvents : EventLog -> list APIEvent;
  ResolveAllClaims : Policy -> LogLevel -> string -> PolicyResolution * EventLog;
  Resolution_Validate : PolicyResolution -> Policy -> bool;
  ActionPlan : Type;
  PlanAsText : Type;
  NewPolicyResolutionDiff : PolicyResolution -> PolicyResolution -> ActionPlan;
  AsText : ActionPlan -> PlanAsText;
  MaxGeneration : Generation;
  TypePolicyUpdateResult_Kind : string;
  Sort : (Base -> Base -> bool) -> list Base -> list Base;
}.

(** What sort.Sort promises when Less compares weights: the slice is
    rearranged, and afterwards no element is less than one before it. *)
Definition SortSpec (W : World) : Prop :=
  ∀ (less : Base W -> Base W -> bool) (weight : Base W -> nat) (l : list (Base W)),
    (∀ a b, less a b = (weight a <? weight b)%nat) ->
    Sort W less l ≡ₚ l ∧
    StronglySorted (fun a b => (weight a <= weight b)%nat) (Sort W less l).

Section Handlers.
Context (W : World).

Record PolicyUpdateResult := mkResult {
  TypeKind : string;
  PolicyGeneration : Generation;
  PolicyChanged : bool;
  WaitForRevision : Generation;
  PlanAsText_ : PlanAsText W;
  EventLog_ : list (APIEvent W);
}.

(** apiObjectSorter.Weight *)
Definition Weight (obj : Base W) : nat :=
  (* ACL rules have to come in the first place *)
  if decide (Base_GetKind W obj = TypeACLRule_Kind W) then 0%nat
  (* All other objects can be added in any order *)
  else 1%nat.

(** apiObjectSorter.Less, on the elements at the two positions *)
Definition Less (a b : Base W) : bool := (Weight a <? Weight b)%nat.

(** sort.Reverse: Less with its arguments exchanged *)
Definition Reverse (less : Base W -> Base W -> bool) : Base W -> Base W -> bool :=
  fun a b => less b a.

(** The calls a handler makes on the policy copy, in order; the flag
    tells whether the call returned without error. *)
Inductive PolicyOp :=
| OpManage (obj : Base W) (ok : bool)
| OpAdd (obj : Base W) (ok : bool)
| OpRemove (obj : Base W).

(** The loop of handlePolicyUpdate over the sorted objects. *)
Fixpoint addObjects (user : User W) (objects : list (Base W)) (policyUpdated : Policy W)
    : list PolicyOp * option (Policy W) :=
  match objects with
  | [] => ([], Some policyUpdated)
  | obj :: rest =>
      if ManageObject W policyUpdated user obj then
        match AddObject W policyUpdated obj with
        | Some policyUpdated =>
            let '(ops, r) := addObjects user rest policyUpdated in
            (OpManage obj true :: OpAdd obj true :: ops, r)
        | None => ([OpManage obj true; OpAdd obj false], None)
        end
      else ([OpManage obj false], None)
  end.

(** The loop of handlePolicyDelete over the sorted objects. *)
Fixpoint removeObjects (user : User W) (objects : list (Base W)) (policyUpdated : Policy W)
    : list PolicyOp * option (Policy W) :=
  match objects with
  | [] => ([], Some policyUpdated)
  | obj :: rest =>
      if ManageObject W policyUpdated user obj then
        let '(ops, r) := removeObjects user rest (RemoveObject W policyUpdated obj) in
        (OpManage obj true :: OpRemove obj :: ops, r)
      else ([OpManage obj false], None)
  end.

(** The cluster loop of handlePolicyUpdate: every cluster among the
    objects must have a plugin that validates. *)
Definition clusterValid (obj : Base W) : bool :=
  match AsCluster W obj with
  | Some cluster =>
      match ForCluster W cluster with
      | Some plugin => Plugin_Validate W plugin
      | None => false
      end
  | None => true
  end.

(** changePolicy; the mutex is held throughout. [None] is a panic. *)
Definition changePolicy (reg : Registry W) (objects : list (Base W)) (user : User W)
    (desiredStateUpdated : PolicyResolution W) (delete : bool)
    : Registry W * option (bool * Generation * Generation) :=
  let '(reg, r) :=
    if delete then DeleteFromPolicy W reg objects (User_Name W user)
    else UpdatePolicy W reg objects (User_Name W user) in
  match r with
  | None => (reg, None)
  | Some (changed, policyData) =>
      let revisionGen := MaxGeneration W in
      if changed then
        let '(reg, newRevision) :=
          NewRevision W reg (PolicyData_GetGeneration W policyData) desiredStateUpdated false in
        match newRevision with
        | None => (reg, None)
        | Some newRevision =>
            (reg, Some (changed, PolicyData_GetGeneration W policyData,
                        Revision_GetGeneration W newRevision))
        end
      else (reg, Some (changed, PolicyData_GetGeneration W policyData, revisionGen))
  end.

(** What a handler leaves behind: the response written ([None] when it
    panicked), the registry, the calls made on the policy copy, and
    whether the enforcement channel was signalled. *)
Record handled := mkHandled {
  response : option PolicyUpdateResult;
  registry : Registry W;
  policyOps : list PolicyOp;
  enforcementSignal : bool;
}.

Definition panicked (reg : Registry W) (ops : list PolicyOp) : handled :=
  mkHandled None reg ops false.

Definition parseNoop (params : string -> string) : bool :=
  match strconv.ParseBool (params "noop") with
  | Some noop => noop
  | None => false
  end.

Definition parseLogLevel (params : string -> string) : LogLevel W :=
  match ParseLevel W (params "loglevel") with
  | Some logLevel => logLevel
  | None => WarnLevel W
  end.

(** The part the two handlers share once the policy copy is updated:
    resolve, diff, then either answer with the plan (noop) or change the
    policy. *)
Definition resolveAndApply (reg : Registry W) (objects : list (Base W)) (user : User W)
    (params : string -> string) (policyGen : Generation)
    (desiredState : PolicyResolution W) (policyUpdated : Policy W)
    (ops : list PolicyOp) (logName : string) (delete : bool) : handled :=
  (* See if noop flag is set *)
  let noop := parseNoop params in
  (* See what log level is set *)
  let logLevel := parseLogLevel params in
  let '(desiredStateUpdated, eventLog) := ResolveAllClaims W policyUpdated logLevel logName in
  if negb (Resolution_Validate W desiredStateUpdated policyUpdated) then panicked reg ops
  else
    let actionPlan := NewPolicyResolutionDiff W desiredStateUpdated desiredState in
    if noop then
      mkHandled
        (Some (mkResult (TypePolicyUpdateResult_Kind W) policyGen false (MaxGeneration W)
                 (AsText W actionPlan) (AsAPIEvents W eventLog)))
        reg ops false
    else
      let '(reg, r) := changePolicy reg objects user desiredStateUpdated delete in
      match r with
      | None => panicked reg ops
      | Some (changed, policyGen, revisionGen) =>
          mkHandled
            (Some (mkResult (TypePolicyUpdateResult_Kind W) policyGen changed revisionGen
                     (AsText W actionPlan) (AsAPIEvents W eventLog)))
            reg ops changed
      end.

(** handlePolicyUpdate; [objects] and [user] are what readLang and
    getUserRequired give for the request, [params] is params.ByName. *)
Definition handlePolicyUpdate (reg : Registry W) (objects : list (Base W)) (user : User W)
    (params : string -> string) : handled :=
  match GetPolicy W reg LastOrEmptyGen with
  | None => panicked reg []
  | Some (_, policyGen) =>
  match GetLastRevisionForPolicy W reg policyGen with
  | None => panicked reg []
  | Some revision =>
  match GetDesiredState W reg revision with
  | None => panicked reg []
  | Some desiredState =>
  match GetPolicy W reg policyGen with
  | None => panicked reg []
  | Some (policyUpdated, _) =>
      (* Add objects to the policy in a sorted order *)
      let objects := Sort W Less objects in
      let '(ops, r) := addObjects user objects policyUpdated in
      match r with
      | None => panicked reg ops
      | Some policyUpdated =>
          if negb (Policy_Validate W policyUpdated) then panicked reg ops
          else if negb (forallb clusterValid objects) then panicked reg ops
          else
            resolveAndApply reg objects user params policyGen desiredState
              policyUpdated ops "api-policy-update" false
      end
  end end end end.

(** handlePolicyDelete *)
Definition handlePolicyDelete (reg : Registry W) (objects : list (Base W)) (user : User W)
    (params : string -> string) : handled :=
  match GetPolicy W reg LastOrEmptyGen with
  | None => panicked reg []
  | Some (_, policyGen) =>
  match GetLastRevisionForPolicy W reg policyGen with
  | None => panicked reg []
  | Some revision =>
  match GetDesiredState W reg revision with
  | None => panicked reg []
  | Some desiredState =>
  match GetPolicy W reg policyGen with
  | None => panicked reg []
  | Some (policyUpdated, _) =>
      (* Delete objects from the policy in a reversed sorted order *)
      let objects := Sort W (Reverse Less) objects in
      let '(ops, r) := removeObjects user objects policyUpdated in
      match r with
      | None => panicked reg ops
      | Some policyUpdated =>
          if negb (Policy_Validate W policyUpdated) then panicked reg ops
          else
            resolveAndApply reg objects user params policyGen desiredState
              policyUpdated ops "api-policy-delete" true
      end
  end end end end.

(** The objects handed to AddObject, and those handed to RemoveObject,
    in the order of the calls. *)
Definition addedObjects (ops : list PolicyOp) : list (Base W) :=
  omap (fun op => match op with OpAdd obj _ => Some obj | _ => None end) ops.

Definition removedObjects (ops : list PolicyOp) : list (Base W) :=
  omap (fun op => match op with OpRemove obj => Some obj | _ => None end) ops.

(** Every call that adds or removes an object comes right after a
    ManageObject call on that object that returned no error. *)
Definition checkedFirst (ops : list PolicyOp) : Prop :=
  ∀ i obj,
    (∃ ok, ops !! i = Some (OpAdd obj ok)) ∨ ops !! i = Some (OpRemove obj) ->
    ∃ j, i = S j ∧ ops !! j = Some (OpManage obj true).

Definition isACLRule (obj : Base W) : Prop :=
  Base_GetKind W obj = TypeACLRule_Kind W.

(** In [l], every ACL rule stands before every other object. *)
Definition aclRulesFirst (l : list (Base W)) : Prop :=
  ∀ i j a b, (i < j)%nat -> l !! i = Some a -> l !! j = Some b ->
             isACLRule b -> isACLRule a.

(** In [l], every ACL rule stands after every other object. *)
Definition aclRulesLast (l : list (Base W)) : Prop :=
  ∀ i j a b, (i < j)%nat -> l !! i = Some a -> l !! j = Some b ->
             isACLRule a -> isACLRule b.

(** What a handler loads from the registry before it takes the objects
    of the request: the generation of the latest policy, the desired state
    of the last revision of that policy, and the copy of the policy that the
    objects are applied to. *)
Definition loads (reg : Registry W) (policyGen : Generation)
    (desiredState : PolicyResolution W) (policyCopy : Policy W) : Prop :=
  ∃ policy revision gen,
    GetPolicy W reg LastOrEmptyGen = Some (policy, policyGen) ∧
    GetLastRevisionForPolicy W reg policyGen = Some revision ∧
    GetDesiredState W reg revision = Some desiredState ∧
    GetPolicy W reg policyGen = Some (policyCopy, gen).

(** The policy that comes out when the user's right to manage each
    object of [objects] is checked on the policy and the object is then added
    to it, one object after the other; [None] when a check or an addition
    fails. *)
Definition addAll (user : User W) (objects : list (Base W)) (policy : Policy W)
    : option (Policy W) :=
  foldl (fun r obj =>
           policy ← r;
           if ManageObject W policy user obj then AddObject W policy obj else None)
        (Some policy) objects.

(** The same with each object removed from the policy. *)
Definition removeAll (user : User W) (objects : list (Base W)) (policy : Policy W)
    : option (Policy W) :=
  foldl (fun r obj =>
           policy ← r;
           if ManageObject W policy user obj then Some (RemoveObject W policy obj)
           else None)
        (Some policy) objects.

(** The calls on the policy copy when every object of [objects] is
    checked and then added (removed), in the order of the list. *)
Definition addCalls (objects : list (Base W)) : list PolicyOp :=
  objects ≫= fun obj => [OpManage obj true; OpAdd obj true].

Definition removeCalls (objects : list (Base W)) : list PolicyOp :=
  objects ≫= fun obj => [OpManage obj true; OpRemove obj].

(** The response in noop mode for the policy copy [policyUpdated] with
    the objects applied: the generation of the latest policy, the plan of
    the diff between the resolution of [policyUpdated] and the desired state
    of the last revision, and the log of that resolution. *)
Definition noopResult (params : string -> string) (logName : string)
    (policyGen : Generation) (desiredState : PolicyResolution W)
    (policyUpdated : Policy W) : PolicyUpdateResult :=
  let resolved := ResolveAllClaims W policyUpdated (parseLogLevel params) logName in
  mkResult (TypePolicyUpdateResult_Kind W) policyGen false (MaxGeneration W)
    (AsText W (NewPolicyResolutionDiff W resolved.1 desiredState))
    (AsAPIEvents W resolved.2).

(** The resolution of [policyUpdated] is valid for it. *)
Definition resolves (params : string -> string) (logName : string)
    (policyUpdated : Policy W) : Prop :=
  Resolution_Validate W
    (ResolveAllClaims W policyUpdated (parseLogLevel params) logName).1 policyUpdated
  = true.

End Handlers.

End api.

(** ** A small world, used to run the handlers *)
Module toy.
Import runtime api.

(** An insertion sort, to stand for sort.Sort in the small world. *)
Fixpoint insert {A} (less : A -> A -> bool) (x : A) (l : list A) : list A :=
  match l with
  | [] => [x]
  | y :: l' => if less x y then x :: l else y :: insert less x l'
  end.

Definition isort {A} (less : A -> A -> bool) (l : list A) : list A :=
  foldr (insert less) [] l.

(** Objects are a kind and a name; the policy is the list of its objects;
    the registry counts the policy generations and the revisions. *)
Definition toyWorld : World :=
  {| Base := string * string;
     Base_GetKind := fst;
     TypeACLRule_Kind := "aclrule";
     User := string;
     User_Name := id;
     Policy := list (string * string);
     ManageObject := fun _ user _ => bool_decide (user = "Sam");
     AddObject := fun p obj => Some (obj :: p);
     RemoveObject := fun p obj => filter (fun x => x ≠ obj) p;
     Policy_Validate := fun _ => true;
     Cluster := unit;
     Plugin := unit;
     AsCluster := fun _ => None;
     ForCluster := fun _ => Some tt;
     Plugin_Validate := fun _ => true;
     Registry := Generation * Generation;
     Revision := Generation;
     PolicyData := Generation;
     PolicyResolution := list (string * string);
     Revision_GetGeneration := id;
     PolicyData_GetGeneration := id;
     GetPolicy := fun reg gen => Some ([], if decide (gen = 0) then reg.1 else gen);
     GetLastRevisionForPolicy := fun reg _ => Some reg.2;
     GetDesiredState := fun _ _ => Some [];
     UpdatePolicy := fun reg _ _ => ((reg.1 + 1, reg.2), Some (true, reg.1 + 1));
     DeleteFromPolicy := fun reg _ _ => ((reg.1 + 1, reg.2), Some (true, reg.1 + 1));
     NewRevision := fun reg _ _ _ => ((reg.1, reg.2 + 1), Some (reg.2 + 1));
     LogLevel := nat;
     ParseLevel := fun _ => None;
     WarnLevel := 3%nat;
     EventLog := list string;
     APIEvent := string;
     AsAPIEvents := id;
     ResolveAllClaims := fun p _ name => (p, [name]);
     Resolution_Validate := fun _ _ => true;
     ActionPlan := list (string * string);
     PlanAsText := list (string * string);
     NewPolicyResolutionDiff := fun new _ => new;
     AsText := id;
     MaxGeneration := 18446744073709551615;
     TypePolicyUpdateResult_Kind := "policy-update-result";
     Sort := isort |}.

Definition noopParams (name : string) : string :=
  if decide (name = "noop") then "true" else "".

Definition request : list (string * string) :=
  [("service", "kafka"); ("aclrule", "admins"); ("cluster", "c1")].

End toy.

(** ** A plain codec, used to run the definitions *)
Module plain.
Import runtime store etcd.

(** A string is written with ["1"] before each of its characters and
    ["0"] after the last; a sequence of strings is written as its items
    one after the other. *)
Fixpoint writeItem (x : string) : string :=
  match x with
  | EmptyString => "0"
  | String c x' => String "1" (String c (writeItem x'))
  end.

Fixpoint writeItems (l : list string) : string :=
  match l with
  | [] => ""
  | x :: l' => writeItem x +:+ writeItems l'
  end.

Fixpoint readItems (data : string) : option (list string) :=
  match data with
  | EmptyString => Some []
  | String "0" rest => cons "" <$> readItems rest
  | String "1" (String c rest) =>
      match readItems rest with
      | Some (x :: l) => Some (String c x :: l)
      | _ => None
      end
  | _ => None
  end.

Definition parseGen (data : string) : option Generation :=
  match data with
  | EmptyString => None
  | _ => N.of_uint <$> NilEmpty.uint_of_string data
  end.

Definition writeValue (v : Value) : string :=
  match v with
  | VNil => "n"
  | VString x => "s" +:+ x
  | VGeneration g => "g" +:+ Generation_String g
  | VOther r => "o" +:+ r
  end.

Definition readValue (data : string) : option Value :=
  match data with
  | String "n" EmptyString => Some VNil
  | String "s" r => Some (VString r)
  | String "g" r => VGeneration <$> parseGen r
  | String "o" r => Some (VOther r)
  | _ => None
  end.

Definition writeObject (o : Storable) : option string :=
  Some (writeItems
          (Kind o :: Namespace o :: Name o ::
           (if IsVersioned o then "v" else "-") ::
           Generation_String (Gen o) :: map writeValue (Fields o))).

Definition readObject (data : string) (into : Storable) : option Storable :=
  match readItems data with
  | Some (k :: ns :: n :: v :: g :: fs) =>
      gen ← parseGen g;
      fields ← mapM readValue fs;
      Some (mkStorable k ns n (bool_decide (v = "v")) gen fields)
  | _ => None
  end.

Definition writeList (l : IndexValueList) : option string :=
  Some ("L" +:+ writeItems (map String.string_of_list_byte l)).

Definition readList (data : string) : option IndexValueList :=
  match data with
  | String "L" r => map String.list_byte_of_string <$> readItems r
  | _ => None
  end.

Definition valueCodec : Codec :=
  mkCodec (fun v => match v with VOther r => Some r | _ => None end).

Definition plainStore : etcdStore :=
  mkStore valueCodec writeObject readObject writeList readList
    Generation_String parseGen.

(** A versioned kind with one indexed field. *)
Definition serviceInfo : TypeInfo :=
  mkTypeInfo "service" true
    (mkStorable "service" "" "" true 0 [VNil])
    (reflect.TPtr (reflect.TNamed "Service"))
    [("Replicas", "index")]
    (fun _ => None).

Definition kafka (gen : Generation) (replicas : string) : Storable :=
  mkStorable "service" "p" "kafka" true gen [VString replicas].

(** The key space after a first Save of the service with one replica. *)
Definition afterFirstSave : gmap string string :=
  (Save plainStore serviceInfo (IndexesFor serviceInfo)
     (Some (kafka 0 "1")) defaultOpts ∅).2.

End plain.

(** ** More key spaces and kinds, used to run Save *)
Module samples.
Import runtime store etcd plain.

(** A kind that is not versioned. *)
Definition settingsInfo : TypeInfo :=
  mkTypeInfo "settings" false
    (mkStorable "settings" "" "" false 0 [VNil])
    (reflect.TPtr (reflect.TNamed "Settings"))
    [("Level", "")]
    (fun _ => None).

Definition settings (level : string) : Storable :=
  mkStorable "settings" "p" "main" false 0 [VString level].

(** The key space after the service was saved with one replica and then
    with three. *)
Definition afterSecondSave : gmap string string :=
  (Save plainStore serviceInfo (IndexesFor serviceInfo)
     (Some (kafka 0 "3")) defaultOpts afterFirstSave).2.

(** The service with no value in its indexed field. *)
Definition unsetKafka : Storable :=
  mkStorable "service" "p" "kafka" true 0 [VNil].

(** A versioned kind with two indexed fields, one of them with a
    transform, and a field that is not indexed. *)
Definition clusterInfo : TypeInfo :=
  mkTypeInfo "cluster" true
    (mkStorable "cluster" "" "" true 0 [VNil; VNil; VNil])
    (reflect.TPtr (reflect.TNamed "Cluster"))
    [("Type", "index"); ("Config", ""); ("Zone", "other,index")]
    (fun fName => if decide (fName = "Zone") then Some (fun _ => VString "any") else None).

(** A key space whose last-generation entry for the service names a
    generation at which nothing is stored. *)
Definition danglingLastGen : gmap string string :=
  {[ "/index/lastgen/p/service/kafka" := "7" ]}.

End samples.

(** ** What runs of Saves keep, besides the invariant of a key *)
Module invariants.
Import runtime store etcd.

(** The generations stored for the key of [o] are 1, 2 and so on up to
    the one the last-generation entry names; none is stored while the entry
    is absent. *)
Definition GensDense (s : etcdStore) (o : Storable) (st : gmap string string) : Prop :=
  ∀ g, Get st (objectKey ("/" +:+ KeyForStorable o) g) ≠ "" ↔
       Get st (lastGenKey o) ≠ "" ∧
       ∃ lastGen, unmarshalGen s (Get st (lastGenKey o)) = Some lastGen ∧
                  1 <= g <= lastGen.

(** Every index entry other than a last-generation entry that reads as a
    list reads as a list in ascending order. *)
Definition ListsAscending (s : etcdStore) (st : gmap string string) : Prop :=
  ∀ name lst, (∀ r, name ≠ "lastgen/" +:+ r) ->
    readValueList s (Get st ("/index/" +:+ name)) = Some lst -> ascending lst.

End invariants.

(** ** Package etcd: the constructor of the store *)
Module etcd_New.

(** etcd.Config of the package, as far as New reads it. *)
Record Config := mkConfig {
  Endpoints : list string;
  Prefix : string;
}.

(** The client that New puts into the store: the endpoints it was made
    with, and the prefix under which its KV, Lease and Watcher are namespaced
    ([None] when they are left as the client library made them). The
    timeouts of the configuration are constants that are not among the
    sources. *)
Record client := mkClient {
  dialed : list string;
  namespaced : option string;
}.

(** What New returns: the store around the client, or the error around
    the cause the client library gave. *)
Inductive created :=
| Store (c : client)
| ConnectError (cause : string).

(** New. [dial] is etcd.New of the client library; it gives the cause
    when no client can be made. *)
Definition New (cfg : Config) (dial : list string -> option string) : created :=
  let endpoints :=
    if decide (length (Endpoints cfg) = 0%nat) then ["localhost:2379"]
    else Endpoints cfg in
  match dial endpoints with
  | Some err => ConnectError err
  | None =>
      let prefix := gostrings.Trim (Prefix cfg) "/" in
      if decide (prefix ≠ "") then Store (mkClient endpoints (Some ("/" +:+ prefix)))
      else Store (mkClient endpoints None)
  end.

End etcd_New.

(** ** Package api: the handlers that read the policy *)
Module api_get.
Import runtime.

(** What the two handlers call that is not among the sources. A method
    that returns an error gives [None] for it; a method that returns a
    pointer gives [Some None] for nil. runtime.ParseGeneration returns no
    error, so what it can do with a text that is no generation is panic,
    [None] here. *)
Record Deps := mkDeps {
  Registry : Type;
  PolicyData : Type;
  Policy : Type;
  Object : Type;
  ParseGeneration : string -> option Generation;
  GetPolicyData : Registry -> Generation -> option (option PolicyData);
  GetPolicy : Registry -> Generation -> option Policy;
  GetObject : Policy -> string -> string -> string -> option (option Object);
}.

(** net/http *)
Definition StatusNotFound : nat := 404.

(** The calls a handler makes on [api.contentType] for the response. *)
Inductive written (A : Type) :=
| WriteOne (body : option A)
| WriteOneWithStatus (body : option A) (status : nat).
Arguments WriteOne {A} body.
Arguments WriteOneWithStatus {A} body status.

(** What a handler leaves: it panicked, or it returned after these
    calls. *)
Inductive answered (A : Type) :=
| Panicked
| Wrote (calls : list (written A)).
Arguments Panicked {A}.
Arguments Wrote {A} calls.

(** handlePolicyGet; [params] is params.ByName. *)
Definition handlePolicyGet (D : Deps) (registry : Registry D) (params : string -> string)
    : answered (PolicyData D) :=
  let gen := params "gen" in
  let gen :=
    if decide (String.length gen = 0%nat) then strconv.Itoa (Z.of_N LastOrEmptyGen)
    else gen in
  match ParseGeneration D gen with
  | None => Panicked
  | Some generation =>
      match GetPolicyData D registry generation with
      | None => Panicked
      | Some None =>
          (* policy with the given generation not found *)
          Wrote [WriteOneWithStatus None StatusNotFound]
      | Some (Some policyData) => Wrote [WriteOne (Some policyData)]
      end
  end.

(** handlePolicyObjectGet. After the not-found response the function
    goes on to the last line. *)
Definition handlePolicyObjectGet (D : Deps) (registry : Registry D)
    (params : string -> string) : answered (Object D) :=
  let gen := params "gen" in
  let gen :=
    if decide (String.length gen = 0%nat) then strconv.Itoa (Z.of_N LastOrEmptyGen)
    else gen in
  match ParseGeneration D gen with
  | None => Panicked
  | Some generation =>
      match GetPolicy D registry generation with
      | None => Panicked
      | Some policy =>
          let ns := params "ns" in
          let kind := params "kind" in
          let name := params "name" in
          match GetObject D policy kind name ns with
          | None => Panicked
          | Some obj =>
              let calls :=
                match obj with
                | None => [WriteOneWithStatus None StatusNotFound]
                | Some _ => []
                end in
              Wrote (calls ++ [WriteOne obj])
          end
      end
  end.

(** The parameters of a request with one of them set. *)
Definition withParam (name value : string) (params : string -> string)
    : string -> string :=
  fun n => if decide (n = name) then value else params n.

(** A registry of policies by generation, each a list of objects by kind
    and name in one namespace; generation 0 stands for generation 1. *)
Definition toyDeps : Deps :=
  {| Registry := list (Generation * list (string * string));
     PolicyData := list (string * string);
     Policy := list (string * string);
     Object := string * string;
     ParseGeneration := plain.parseGen;
     GetPolicyData := fun reg gen =>
       Some (snd <$> List.find (fun e => bool_decide (e.1 = if decide (gen = 0) then 1 else gen)) reg);
     GetPolicy := fun reg gen =>
       snd <$> List.find (fun e => bool_decide (e.1 = if decide (gen = 0) then 1 else gen)) reg;
     GetObject := fun policy kind name ns =>
       Some (List.find (fun e => bool_decide (e = (kind, name))) policy) |}.

Definition toyRegistry : list (Generation * list (string * string)) :=
  [(1, [("service", "kafka")])].

Definition toyRequest (kind name : string) : string -> string :=
  fun n => if decide (n = "kind") then kind else if decide (n = "name") then name else "".

End api_get.

(** ** Package api: PolicyUpdateResult as columns *)
Module api_columns.
Import runtime api.

Section Columns.
Context (W : World).

(** PlanAsText.String and the subtraction [PolicyGeneration-1], which is in
    the arithmetic of runtime.Generation: neither is among the sources. A
    generation is printed by [%d] in decimal. *)
Variable PlanAsText_String : PlanAsText W -> string.
Variable Generation_minus_1 : Generation -> Generation.

(** GetDefaultColumns *)
Definition GetDefaultColumns (result : PolicyUpdateResult W) : list string :=
  ["Policy Generation"; "Action Plan"].

(** AsColumns *)
Definition AsColumns (result : PolicyUpdateResult W) : gmap string string :=
  let policyChangesStr :=
    if PolicyChanged W result then
      Generation_String (Generation_minus_1 (PolicyGeneration W result))
        +:+ " -> " +:+ Generation_String (PolicyGeneration W result)
    else Generation_String (PolicyGeneration W result) in
  let actionPlanStr := PlanAsText_String (PlanAsText_ W result) in
  let actionPlanStr :=
    if decide (String.length actionPlanStr <= 0)%nat then "(none)" else actionPlanStr in
  <[ "Policy Generation" := policyChangesStr ]>
    (<[ "Action Plan" := actionPlanStr ]> ∅).

End Columns.

End api_columns.

(** ** Package lang: the loader of test policies (test_policy_loader.go) *)
Module lang_loader.

(** A returned value or a returned error, by the text of the error. *)
Inductive result (A : Type) :=
| Value (a : A)
| Error (msg : string).
Arguments Value {A} a.
Arguments Error {A} msg.

Section Loader.
Context {Base : Type}.

(** What the loader calls that is not among the sources: ioutil.ReadFile
    and the two methods of the codec. *)
Variable ReadFile : string -> result string.
Variable MarshalMany : list Base -> result string.
Variable UnmarshalOneOrMany : string -> result (list Base).

(** loadObjectsFromFile *)
Definition loadObjectsFromFile (path : string) : result (list Base) :=
  match ReadFile path with
  | Error err => Error ("Error while reading file " +:+ path +:+ ": " +:+ err)
  | Value data =>
      match UnmarshalOneOrMany data with
      | Error err => Error ("Error while unmarshaling file " +:+ path +:+ ": " +:+ err)
      | Value objects => Value objects
      end
  end.

(** The loop of LoadObjects over the sorted files; [loaded] is the
    result so far. *)
Fixpoint loadFiles (files : list string) (loaded : list Base) : result (list Base) :=
  match files with
  | [] => Value loaded
  | f :: rest =>
      if negb (gostrings.Contains f "external") then
        match loadObjectsFromFile f with
        | Error err =>
            Error ("Error while loading objects from file " +:+ f +:+ ": " +:+ err)
        | Value objects => loadFiles rest (loaded ++ objects)
        end
      else loadFiles rest loaded
  end.

(** LoadObjects. [glob] is what zglob.Glob gives for the yaml files under
    the path of the loader (nothing when it fails: its error is dropped). *)
Definition LoadObjects (glob : list string) : result (list Base) :=
  let files := gosort.Strings glob in
  match loadFiles files [] with
  | Error err => Error err
  | Value loaded =>
      (* This hack is needed to make sure that we'll get test data in the
         same way like after marshaling objects and storing them in DB. *)
      match MarshalMany loaded with
      | Error err => Error ("Error marshaling loaded objects: " +:+ err)
      | Value data =>
          match UnmarshalOneOrMany data with
          | Error err => Error ("Error unmarshaling loaded objects: " +:+ err)
          | Value loaded => Value loaded
          end
      end
  end.

(** LoadUnitTestsPolicy; [None] is the panic. [NewPolicy] is the empty
    policy and [AddObject] gives the policy after the call. *)
Definition LoadUnitTestsPolicy {Policy : Type} (NewPolicy : Policy)
    (AddObject : Policy -> Base -> Policy) (glob : list string) : option Policy :=
  match LoadObjects glob with
  | Error _ => None
  | Value objects => Some (foldl AddObject NewPolicy objects)
  end.

End Loader.

(** A file system with three files and a codec that writes a list of
    names with the plain encoding. *)
Definition toyReadFile (path : string) : result string :=
  if decide (path = "policy/b.yaml") then Value "1b0"
  else if decide (path = "policy/a.yaml") then Value "1a1101a120"
  else if decide (path = "policy/external/c.yaml") then Value "not yaml"
  else Error "no such file".

Definition toyMarshalMany (objects : list string) : result string :=
  Value (plain.writeItems objects).

Definition toyUnmarshalOneOrMany (data : string) : result (list string) :=
  match plain.readItems data with
  | Some objects => Value objects
  | None => Error "syntax"
  end.

End lang_loader.

(** ** Package api: apiObjectSorter as a sort.Interface *)
Module api_sorter.
Import runtime api.

Section Sorter.
Context (W : World).

(** apiObjectSorter.Len *)
Definition Len (rs : list (Base W)) : nat := length rs.

(** apiObjectSorter.Swap; an index out of range panics, [None] here. *)
Definition Swap (rs : list (Base W)) (i j : nat) : option (list (Base W)) :=
  a ← rs !! i;
  b ← rs !! j;
  Some (<[j := a]> (<[i := b]> rs)).

(** apiObjectSorter.Less, on positions; an index out of range panics. *)
Definition LessAt (rs : list (Base W)) (i j : nat) : option bool :=
  a ← rs !! i;
  b ← rs !! j;
  Some (Weight W a <? Weight W b)%nat.

End Sorter.

End api_sorter.

(** ** The web UI: lists of policy objects (webui/src/lib/api.js) *)
Module webui.

(** A JavaScript object used as a map from names to values: its
    properties in the order in which [for ... in] visits them. *)
Definition jsobject (A : Type) := list (string * A).

(** The keys [for (const key in obj)] goes through. *)
Definition keysIn {A} (obj : jsobject A) : list string := obj.*1.

(** [obj[key]]; [None] is undefined. *)
Definition prop {A} (obj : jsobject A) (key : string) : option A :=
  snd <$> List.find (fun e => bool_decide (e.1 = key)) obj.

(** [for (const key in obj)] over a value that may be undefined: there
    is nothing to go through then. *)
Definition keysOf {A} (obj : option (jsobject A)) : list string :=
  match obj with
  | Some obj => keysIn obj
  | None => []
  end.

(** [obj[key]] on a value that may be undefined, for a key that the loop
    over it gave (so the value is an object). *)
Definition propOf {A} (obj : option (jsobject A)) (key : string) : option A :=
  obj ≫= fun obj => prop obj key.

Section PolicyObjects.
Context {G : Type}.

(** All policy objects: map[namespace][kind][name] -> generation. *)
Definition PolicyObjects := jsobject (jsobject (jsobject G)).

(** The entries that filterObjects makes. *)
Record entry := mkEntry {
  namespace : string;
  kind : string;
  name : string;
  generation : option G;
}.

(** [filter === null || key === filter], for a filter that is null or a
    string. *)
Definition passes (filter : option string) (key : string) : bool :=
  match filter with
  | None => true
  | Some f => bool_decide (key = f)
  end.

(** getNamespaces *)
Definition getNamespaces (policyObjects : PolicyObjects) : list string :=
  foldl (fun namespaces ns => namespaces ++ [ns]) [] (keysIn policyObjects).

(** filterObjects *)
Definition filterObjects (policyObjects : PolicyObjects)
    (nsFilter kindFilter : option string) : list entry :=
  foldl (fun result ns =>
    if passes nsFilter ns then
      foldl (fun result kind =>
        if passes kindFilter kind then
          foldl (fun result name =>
            let entry :=
              mkEntry ns kind name
                (propOf (propOf (prop policyObjects ns) kind) name) in
            result ++ [entry])
            result (keysOf (propOf (prop policyObjects ns) kind))
        else result)
        result (keysOf (prop policyObjects ns))
    else result)
    [] (keysIn policyObjects).

End PolicyObjects.

(** The policy objects of two namespaces. *)
Definition toyPolicyObjects : @PolicyObjects nat :=
  [("main", [("service", [("kafka", 2%nat); ("zoo", 1%nat)]);
             ("dependency", [("alice", 1%nat)])]);
   ("system", [("aclrule", [("admins", 3%nat)])])].

End webui.

(** * Facts *)

(** ** sort.Search and IndexValueList *)
Module store_facts.
Import store.

Lemma search_loop_bounds fuel f i j :
  (i <= j)%nat -> (i <= gosort.search_loop fuel f i j <= j)%nat.
Proof.
  revert i j.
  induction fuel as [|fuel IH]; intros i j Hij; cbn [gosort.search_loop]; [lia|].
  destruct (i <? j)%nat eqn:Hlt; [|lia].
  apply Nat.ltb_lt in Hlt.
  assert (Hh : (i <= (i + j) / 2 < j)%nat).
  { split.
    - apply Nat.div_le_lower_bound; lia.
    - apply Nat.Div0.div_lt_upper_bound; lia. }
  set (h := ((i + j) / 2)%nat) in *.
  destruct (negb (f h)).
  - specialize (IH (h + 1)%nat j ltac:(lia)). lia.
  - specialize (IH i h ltac:(lia)). lia.
Qed.

Lemma Search_le n f : (gosort.Search n f <= n)%nat.
Proof. unfold gosort.Search. pose proof (search_loop_bounds n f 0 n). lia. Qed.

Lemma searchValue_le lst value : (searchValue lst value <= length lst)%nat.
Proof. apply Search_le. Qed.

(** *** bytes.Compare is a strict total order *)

Lemma to_N_inj x y : Byte.to_N x = Byte.to_N y -> x = y.
Proof.
  intros H. apply (f_equal Byte.of_N) in H.
  rewrite !Byte.of_to_N in H. by injection H.
Qed.

Lemma Compare_eq a b : bytes.Compare a b = Eq ↔ a = b.
Proof.
  revert b. induction a as [|x a IH]; intros [|y b]; simpl; try done.
  destruct (N.compare_spec (Byte.to_N x) (Byte.to_N y)) as [He|Hlt|Hgt].
  - apply to_N_inj in He as ->. rewrite IH. split; [by intros ->|by intros [= ->]].
  - split; [done|]. intros [= -> _]. lia.
  - split; [done|]. intros [= -> _]. lia.
Qed.

Lemma Compare_refl a : bytes.Compare a a = Eq.
Proof. by apply Compare_eq. Qed.

Lemma Compare_lt_trans a b c :
  bytes.Compare a b = Lt -> bytes.Compare b c = Lt -> bytes.Compare a c = Lt.
Proof.
  revert b c. induction a as [|x a IH]; intros [|y b] [|z c]; simpl; try done.
  destruct (N.compare_spec (Byte.to_N x) (Byte.to_N y)) as [Hxy|Hxy|Hxy];
    destruct (N.compare_spec (Byte.to_N y) (Byte.to_N z)) as [Hyz|Hyz|Hyz];
    try done; intros Hab Hbc.
  - rewrite Hxy, Hyz, N.compare_refl. by eapply IH.
  - rewrite Hxy. by apply N.compare_lt_iff in Hyz as ->.
  - rewrite <- Hyz. by apply N.compare_lt_iff in Hxy as ->.
  - assert (Hxz : (Byte.to_N x < Byte.to_N z)%N) by lia.
    by apply N.compare_lt_iff in Hxz as ->.
Qed.

Lemma Compare_antisym a b : bytes.Compare b a = CompOpp (bytes.Compare a b).
Proof.
  revert b. induction a as [|x a IH]; intros [|y b]; simpl; try done.
  rewrite (N.compare_antisym (Byte.to_N x) (Byte.to_N y)).
  destruct (Byte.to_N x ?= Byte.to_N y)%N; simpl; [apply IH|done..].
Qed.

(** *** sort.Search on a predicate that stays true once it is true *)

Lemma search_loop_least fuel f n i j :
  (∀ a b, (a <= b < n)%nat -> f a = true -> f b = true) ->
  (i <= j <= n)%nat -> (j - i <= fuel)%nat ->
  (∀ k, (k < i)%nat -> f k = false) ->
  (∀ k, (j <= k < n)%nat -> f k = true) ->
  let r := gosort.search_loop fuel f i j in
  (∀ k, (k < r)%nat -> f k = false) ∧ (∀ k, (r <= k < n)%nat -> f k = true).
Proof.
  intros Hmono. revert i j.
  induction fuel as [|fuel IH]; intros i j Hij Hfuel Hlow Hhigh; cbn [gosort.search_loop].
  - split; [done|]. intros k Hk. apply Hhigh. lia.
  - destruct (i <? j)%nat eqn:Hlt.
    2:{ apply Nat.ltb_ge in Hlt. split; [done|]. intros k Hk. apply Hhigh. lia. }
    apply Nat.ltb_lt in Hlt.
    assert (Hh : (i <= (i + j) / 2 < j)%nat).
    { split.
      - apply Nat.div_le_lower_bound; lia.
      - apply Nat.Div0.div_lt_upper_bound; lia. }
    set (h := ((i + j) / 2)%nat) in *.
    destruct (f h) eqn:Hfh; simpl.
    + apply IH; [lia|lia|done|].
      intros k Hk. apply (Hmono h k); [lia|done].
    + apply IH; [lia|lia| |done].
      intros k Hk. destruct (f k) eqn:Hfk; [|done].
      rewrite (Hmono k h) in Hfh; [done|lia|done].
Qed.

Lemma Search_least n f :
  (∀ a b, (a <= b < n)%nat -> f a = true -> f b = true) ->
  (∀ k, (k < gosort.Search n f)%nat -> f k = false) ∧
  (∀ k, (gosort.Search n f <= k < n)%nat -> f k = true).
Proof.
  intros Hmono. unfold gosort.Search.
  apply (search_loop_least n f n 0 n); try done; try lia.
Qed.

(** [copy(l[i+1:], l[i:])] after one element was appended, then the
    write at [i]: the value is inserted at [i]. *)
Lemma slice_copy_shift_right {A} (a b : list A) (d v : A) :
  <[length a := v]> (slice_copy (a ++ b ++ [d]) (length a + 1) (length a))
  = a ++ v :: b.
Proof.
  unfold slice_copy. rewrite !length_app. simpl.
  replace (Nat.min (length a + (length b + 1) - (length a + 1))
                   (length a + (length b + 1) - length a)) with (length b) by lia.
  rewrite take_app_add, drop_app_length, take_app_length.
  rewrite (drop_ge (a ++ b ++ [d])) by (rewrite !length_app; simpl; lia).
  rewrite app_nil_r, <- app_assoc.
  replace (length a) with (length a + 0)%nat at 1 by lia.
  rewrite insert_app_r.
  by destruct b.
Qed.

(** [copy(l[i:], l[i+1:])], then the last element cleared and cut off:
    the element at [i] is gone. *)
Lemma slice_copy_shift_left {A} (a b : list A) (x d : A) :
  let l1 := slice_copy (a ++ x :: b) (length a) (length a + 1) in
  take (length (<[(length l1 - 1)%nat := d]> l1) - 1) (<[(length l1 - 1)%nat := d]> l1)
  = a ++ b.
Proof.
  cbv zeta. unfold slice_copy. rewrite !length_app. simpl.
  replace (Nat.min (length a + S (length b) - length a)
                   (length a + S (length b) - (length a + 1))) with (length b) by lia.
  rewrite take_app_length, drop_app_add. simpl. rewrite drop_0.
  rewrite (take_ge b) by lia.
  rewrite drop_app_add.
  rewrite length_insert, !length_app, length_drop. simpl.
  replace (length a + (length b + (S (length b) - length b)) - 1)%nat
    with (length a + length b)%nat by lia.
  rewrite app_assoc.
  replace (length a + length b)%nat with (length (a ++ b) + 0)%nat
    by (rewrite length_app; lia).
  rewrite insert_app_r, take_app_add. simpl. by rewrite app_nil_r.
Qed.

(** Add, without the slice moves: the value is put in at the index the
    search gives, unless it is found there already. *)
Lemma Add_unfold lst value :
  Add lst value =
    let i := searchValue lst value in
    if (i <? length lst)%nat && bytes.Equal (nth i lst []) value then lst
    else take i lst ++ value :: drop i lst.
Proof.
  unfold Add. cbv zeta.
  pose proof (searchValue_le lst value) as Hle.
  set (i := searchValue lst value) in *.
  destruct ((i <? length lst)%nat && bytes.Equal (nth i lst []) value); [done|].
  clearbody i.
  assert (∃ a b, lst = a ++ b ∧ length a = i) as (a & b & -> & <-).
  { exists (take i lst), (drop i lst).
    split; [by rewrite take_drop | rewrite length_take; lia]. }
  rewrite take_app_length, drop_app_length, <- app_assoc.
  apply slice_copy_shift_right.
Qed.

(** Remove, without the slice moves: whatever stands at the index the
    search gives is taken out; the element is not compared with the
    value. *)
Lemma Remove_unfold lst value :
  Remove lst value =
    let i := searchValue lst value in
    if (i <? length lst)%nat then take i lst ++ drop (S i) lst else lst.
Proof.
  unfold Remove. cbv zeta.
  set (i := searchValue lst value) in *.
  destruct (i <? length lst)%nat eqn:Hlt; [|done].
  apply Nat.ltb_lt in Hlt.
  clearbody i.
  destruct (lookup_lt_is_Some_2 lst i Hlt) as [x Hx].
  assert (∃ a b, lst = a ++ x :: b ∧ length a = i) as (a & b & -> & <-).
  { exists (take i lst), (drop (S i) lst).
    split; [by rewrite take_drop_middle | rewrite length_take; lia]. }
  rewrite take_app_length.
  replace (S (length a)) with (length a + 1)%nat by lia.
  rewrite drop_app_add. simpl. rewrite drop_0.
  apply (slice_copy_shift_left a b x []).
Qed.

Lemma elem_of_Add lst value b :
  b ∈ Add lst value ↔ b ∈ lst ∨ b = value.
Proof.
  rewrite Add_unfold. cbv zeta.
  set (i := searchValue lst value).
  destruct ((i <? length lst)%nat && bytes.Equal (nth i lst []) value) eqn:Hfound.
  - apply andb_true_iff in Hfound as [Hlt Heq].
    apply Nat.ltb_lt in Hlt. apply bool_decide_eq_true in Heq.
    split; [by left|]. intros [?| ->]; [done|].
    rewrite <- Heq. rewrite nth_lookup.
    destruct (lookup_lt_is_Some_2 lst i Hlt) as [x Hx].
    rewrite Hx. simpl. by eapply list_elem_of_lookup_2.
  - rewrite elem_of_app, elem_of_cons.
    rewrite <- (take_drop i lst) at 3. rewrite elem_of_app. tauto.
Qed.

(** *** The operations on a list in ascending order *)

Lemma searchValue_spec lst value :
  ascending lst ->
  let i := searchValue lst value in
  (∀ k a, (k < i)%nat -> lst !! k = Some a -> bytes.Compare a value = Lt) ∧
  (∀ k a, (i <= k)%nat -> lst !! k = Some a -> bytes.Compare a value ≠ Lt).
Proof.
  intros Hasc. cbv zeta. unfold searchValue.
  set (f := fun index => bytes.ge0 (bytes.Compare (nth index lst []) value)).
  assert (Hf : ∀ k a, lst !! k = Some a ->
                      (f k = false ↔ bytes.Compare a value = Lt)).
  { intros k a Hk. unfold f. rewrite (nth_lookup_Some _ _ _ _ Hk).
    by destruct (bytes.Compare a value). }
  destruct (Search_least (length lst) f) as [Hlow Hhigh].
  { intros a b Hab Hfa.
    destruct (lookup_lt_is_Some_2 lst a ltac:(lia)) as [xa Hxa].
    destruct (lookup_lt_is_Some_2 lst b ltac:(lia)) as [xb Hxb].
    destruct (f b) eqn:Hfb; [done|].
    apply (Hf _ _ Hxb) in Hfb.
    destruct (decide (a = b)) as [->|Hne].
    - rewrite Hxa in Hxb. injection Hxb as ->.
      apply (Hf _ _ Hxa) in Hfb. congruence.
    - pose proof (Hasc a b xa xb ltac:(lia) Hxa Hxb) as Hlt.
      pose proof (Compare_lt_trans _ _ _ Hlt Hfb) as Hxav.
      apply (Hf _ _ Hxa) in Hxav. congruence. }
  split.
  - intros k a Hk Ha. apply (Hf _ _ Ha). by apply Hlow.
  - intros k a Hk Ha Hlt. apply (Hf _ _ Ha) in Hlt.
    rewrite Hhigh in Hlt; [done|]. split; [done|]. by eapply lookup_lt_Some.
Qed.

(** On an ascending list the search finds the value where it stands. *)
Lemma searchValue_found lst value k :
  ascending lst -> lst !! k = Some value -> searchValue lst value = k.
Proof.
  intros Hasc Hk. destruct (searchValue_spec lst value Hasc) as [Hlow Hhigh].
  destruct (Nat.lt_trichotomy (searchValue lst value) k) as [Hlt|[->|Hgt]]; [|done|].
  - destruct (lookup_lt_is_Some_2 lst (searchValue lst value)) as [a Ha].
    { apply lookup_lt_Some in Hk. lia. }
    destruct (Hhigh _ a (Nat.le_refl _) Ha). by eapply Hasc.
  - pose proof (Hlow k value Hgt Hk) as Hc. by rewrite Compare_refl in Hc.
Qed.

Lemma Contains_spec lst value :
  ascending lst -> Contains lst value = true ↔ value ∈ lst.
Proof.
  intros Hasc. unfold Contains. rewrite andb_true_iff, Nat.ltb_lt. split.
  - intros [Hlt Heq]. apply bool_decide_eq_true in Heq.
    destruct (lookup_lt_is_Some_2 lst _ Hlt) as [a Ha].
    rewrite (nth_lookup_Some _ _ _ _ Ha) in Heq. subst a.
    by eapply list_elem_of_lookup_2.
  - intros [k Hk]%list_elem_of_lookup_1.
    rewrite (searchValue_found _ _ _ Hasc Hk). split.
    + by eapply lookup_lt_Some.
    + apply bool_decide_eq_true. by apply nth_lookup_Some.
Qed.

Lemma ascending_app_cons a x b :
  ascending (a ++ x :: b) -> ascending (a ++ b).
Proof.
  intros Hasc i j u v Hij Hi Hj.
  assert (Hget : ∀ k w, (a ++ b) !! k = Some w ->
            (a ++ x :: b) !! (if decide (k < length a)%nat then k else S k) = Some w).
  { intros k w Hk. case_decide.
    - rewrite lookup_app_l in Hk |- * by done. done.
    - rewrite lookup_app_r in Hk |- * by lia.
      replace (S k - length a)%nat with (S (k - length a)) by lia. done. }
  apply Hget in Hi, Hj. eapply Hasc; [|exact Hi|exact Hj].
  repeat case_decide; lia.
Qed.

Lemma ascending_insert a v b :
  ascending (a ++ b) ->
  (∀ x, x ∈ a -> bytes.Compare x v = Lt) ->
  (∀ x, x ∈ b -> bytes.Compare v x = Lt) ->
  ascending (a ++ v :: b).
Proof.
  intros Hasc Ha Hb i j x y Hij Hi Hj.
  assert (Hget : ∀ k w, (a ++ v :: b) !! k = Some w ->
            k = length a ∧ w = v ∨
            (k ≠ length a ∧
             (a ++ b) !! (if decide (k < length a)%nat then k else pred k) = Some w)).
  { intros k w Hk. destruct (decide (k = length a)) as [->|Hne].
    - left. rewrite lookup_app_r in Hk by lia. rewrite Nat.sub_diag in Hk.
      by injection Hk as <-.
    - right. split; [done|]. case_decide.
      + by rewrite lookup_app_l in Hk |- * by done.
      + rewrite lookup_app_r in Hk |- * by lia.
        destruct (k - length a)%nat as [|m] eqn:Hm; [lia|]. simpl in Hk.
        by replace (pred k - length a)%nat with m by lia. }
  assert (Hside : ∀ k w, k ≠ length a ->
            (a ++ b) !! (if decide (k < length a)%nat then k else pred k) = Some w ->
            if decide (k < length a)%nat then w ∈ a else w ∈ b).
  { intros k w Hne Hk. case_decide.
    - rewrite lookup_app_l in Hk by done. by eapply list_elem_of_lookup_2.
    - rewrite lookup_app_r in Hk by lia. by eapply list_elem_of_lookup_2. }
  destruct (Hget _ _ Hi) as [[-> ->]|[Hni Hi']], (Hget _ _ Hj) as [[-> ->]|[Hnj Hj']].
  - lia.
  - pose proof (Hside _ _ Hnj Hj') as Hy. rewrite decide_False in Hy by lia.
    by apply Hb.
  - pose proof (Hside _ _ Hni Hi') as Hx. rewrite decide_True in Hx by lia.
    by apply Ha.
  - eapply Hasc; [|exact Hi'|exact Hj']. repeat case_decide; lia.
Qed.

(** Add keeps the list ascending. *)
Lemma Add_ascending lst value : ascending lst -> ascending (Add lst value).
Proof.
  intros Hasc. destruct (searchValue_spec lst value Hasc) as [Hlow Hhigh].
  rewrite Add_unfold. cbv zeta.
  destruct (_ && _) eqn:Hfound; [done|].
  apply ascending_insert.
  - by rewrite take_drop.
  - intros x (k & Hk & Hlt)%elem_of_take. by eapply Hlow.
  - intros x [k Hk]%list_elem_of_lookup_1. rewrite lookup_drop in Hk.
    pose proof (Hhigh (searchValue lst value + k)%nat x ltac:(lia) Hk) as Hge.
    rewrite Compare_antisym.
    destruct (bytes.Compare x value) eqn:Hc; [|done..].
    apply Compare_eq in Hc as ->. exfalso.
    assert (Hat : lst !! searchValue lst value = Some value).
    { pose proof (searchValue_found lst value _ Hasc Hk) as Hsv.
      by rewrite <- Hsv in Hk. }
    apply andb_false_iff in Hfound as [Hf|Hf].
    + apply Nat.ltb_ge in Hf. apply lookup_lt_Some in Hat. lia.
    + apply bool_decide_eq_false in Hf. apply Hf. by apply nth_lookup_Some.
Qed.

(** On an ascending list, Remove of a value that is present takes out that
    value and nothing else. *)
Lemma Remove_present lst value :
  ascending lst -> value ∈ lst ->
  ∀ b, b ∈ Remove lst value ↔ b ∈ lst ∧ b ≠ value.
Proof.
  intros Hasc [k Hk]%list_elem_of_lookup_1 b.
  rewrite Remove_unfold. cbv zeta. rewrite (searchValue_found _ _ _ Hasc Hk).
  pose proof (lookup_lt_Some _ _ _ Hk) as Hlt.
  apply Nat.ltb_lt in Hlt as ->.
  rewrite <- (take_drop_middle lst k value Hk) at 3.
  rewrite !elem_of_app, elem_of_cons.
  split.
  - intros Hb. split; [tauto|]. intros ->.
    destruct Hb as [Hb|Hb].
    + apply elem_of_take in Hb as (i & Hi & Hik).
      pose proof (Hasc i k _ _ Hik Hi Hk) as Hc. by rewrite Compare_refl in Hc.
    + apply list_elem_of_lookup_1 in Hb as [i Hi]. rewrite lookup_drop in Hi.
      pose proof (Hasc k (S k + i)%nat _ _ ltac:(lia) Hk Hi) as Hc.
      by rewrite Compare_refl in Hc.
  - intros [[?|[?|?]] ?]; tauto.
Qed.

(** The list stays ascending whatever Remove takes out. *)
Lemma Remove_ascending lst value : ascending lst -> ascending (Remove lst value).
Proof.
  intros Hasc. rewrite Remove_unfold. cbv zeta.
  destruct (_ <? _)%nat eqn:Hlt; [|done].
  apply Nat.ltb_lt in Hlt.
  destruct (lookup_lt_is_Some_2 lst _ Hlt) as [x Hx].
  apply (ascending_app_cons _ x). by rewrite take_drop_middle.
Qed.

(** A value that is absent costs the list the first element above it:
    the list is left as it was only when every element is below the value. *)
Lemma Remove_absent lst value :
  ascending lst -> value ∉ lst ->
  Remove lst value = lst ↔ ∀ b, b ∈ lst -> bytes.Compare b value = Lt.
Proof.
  intros Hasc Hnot. destruct (searchValue_spec lst value Hasc) as [Hlow Hhigh].
  rewrite Remove_unfold. cbv zeta.
  destruct (_ <? _)%nat eqn:Hlt.
  - apply Nat.ltb_lt in Hlt. split.
    + intros Heq. apply (f_equal length) in Heq.
      rewrite length_app, length_take, length_drop in Heq. lia.
    + intros Hall. destruct (lookup_lt_is_Some_2 lst _ Hlt) as [x Hx].
      destruct (Hhigh _ x (Nat.le_refl _) Hx). apply Hall.
      by eapply list_elem_of_lookup_2.
  - apply Nat.ltb_ge in Hlt. split; [|done]. intros _ b [k Hk]%list_elem_of_lookup_1.
    apply (Hlow k b); [|done]. apply lookup_lt_Some in Hk.
    pose proof (searchValue_le lst value). lia.
Qed.

End store_facts.

(** ** Save *)
Module etcd_facts.
Import runtime store etcd.

Lemma Get_Put_eq st k v : Get (Put st k v) k = v.
Proof. unfold Get, Put. by rewrite lookup_insert_eq. Qed.

Lemma Get_Put_ne st k k' v : k ≠ k' -> Get (Put st k v) k' = Get st k'.
Proof. intros. unfold Get, Put. by rewrite lookup_insert_ne. Qed.

Lemma Get_lookup st st' k : st' !! k = st !! k -> Get st' k = Get st k.
Proof. unfold Get. by intros ->. Qed.

(** *** The names of index entries *)

Lemma name_lastgen index o c :
  Type_ index = IndexTypeLastGen ->
  Index_NameForStorable index o c = Some ("lastgen/" +:+ KeyForStorable o).
Proof.
  intros Ht. unfold Index_NameForStorable, Index_NameForValue.
  rewrite Ht. by rewrite !decide_True.
Qed.

Lemma name_listgen index o c name :
  Type_ index = IndexTypeListGen ->
  Index_NameForStorable index o c = Some name ->
  name = "" ∨ ∃ r, name = "listgen/" +:+ r.
Proof.
  intros Ht. unfold Index_NameForStorable, Index_NameForValue.
  rewrite Ht. rewrite !decide_False by done. simpl.
  destruct (Fields o !! rFieldID index) as [f|]; [simpl|done].
  destruct (ValueTransform index) as [transform|]; [simpl|done].
  destruct (transform f); simpl.
  - intros [= <-]. by left.
  - intros [= <-]. right. eauto.
  - intros [= <-]. right. eauto.
  - destruct (Marshal c _); simpl; [|done]. intros [= <-]. right. eauto.
Qed.

Lemma name_undef index o c :
  Type_ index = IndexTypeUndef -> Index_NameForStorable index o c = None.
Proof.
  intros Ht. unfold Index_NameForStorable, Index_NameForValue.
  rewrite Ht. rewrite !decide_False by done. simpl.
  by destruct (Fields o !! rFieldID index).
Qed.

Lemma name_SetGeneration index o g c :
  Index_NameForStorable index (SetGeneration o g) c = Index_NameForStorable index o c.
Proof. done. Qed.

Lemma listgen_name_not_lastgen index o c name r :
  Type_ index = IndexTypeListGen ->
  Index_NameForStorable index o c = Some name ->
  name ≠ "lastgen/" +:+ r.
Proof.
  intros Ht Hn. destruct (name_listgen _ _ _ _ Ht Hn) as [->|[r' ->]]; cbn; discriminate.
Qed.

Lemma index_key_inj n n' : "/index/" +:+ n = "/index/" +:+ n' -> n = n'.
Proof. intros H. cbn in H. by simplify_eq. Qed.

Lemma object_key_not_index key g n : objectKey key g ≠ "/index/" +:+ n.
Proof. unfold objectKey. cbn. discriminate. Qed.

(** *** One turn of the index loop *)

Lemma saveIndex_other s o prev g index st st' name k :
  saveIndex s o prev g index st = Some st' ->
  Index_NameForStorable index o (codec s) = Some name ->
  k ≠ "/index/" +:+ name ->
  st' !! k = st !! k.
Proof.
  unfold saveIndex. intros H Hn Hk. rewrite Hn in H. simpl in H.
  destruct (Type_ index); [done| |].
  - injection H as <-. unfold Put. by rewrite lookup_insert_ne.
  - destruct (readValueList s _); [simpl in H|done].
    destruct (marshalList s _); [simpl in H|done].
    injection H as <-. unfold Put. by rewrite lookup_insert_ne.
Qed.

Lemma saveIndex_named s o prev g index st st' :
  saveIndex s o prev g index st = Some st' ->
  ∃ name, Index_NameForStorable index o (codec s) = Some name.
Proof.
  unfold saveIndex. destruct (Index_NameForStorable index o (codec s)); [eauto|done].
Qed.

Lemma saveIndex_lastgen s o prev g index st st' :
  saveIndex s o prev g index st = Some st' ->
  Type_ index = IndexTypeLastGen ->
  st' = Put st (lastGenKey o) (marshalGen s g).
Proof.
  unfold saveIndex. intros H Ht. rewrite (name_lastgen _ _ _ Ht) in H.
  simpl in H. rewrite Ht in H. by injection H as <-.
Qed.

Lemma saveIndex_listgen s o prev g index st st' name :
  saveIndex s o prev g index st = Some st' ->
  Type_ index = IndexTypeListGen ->
  Index_NameForStorable index o (codec s) = Some name ->
  ∃ before data,
    readValueList s (Get st ("/index/" +:+ name)) = Some before ∧
    marshalList s (Add before (gostrings.to_bytes (marshalGen s g))) = Some data ∧
    st' = Put st ("/index/" +:+ name) data.
Proof.
  unfold saveIndex. intros H Ht Hn. rewrite Hn in H. simpl in H. rewrite Ht in H.
  destruct (readValueList s _) as [before|]; [simpl in H|done].
  destruct (marshalList s _) as [data|] eqn:Hd; [simpl in H|done].
  injection H as <-. eauto.
Qed.

(** *** The index loop *)

Lemma saveIndexes_other s o prev g l st st' k :
  saveIndexes s o prev g l st = Some st' ->
  (∀ e name, e ∈ l -> Index_NameForStorable e.2 o (codec s) = Some name ->
             k ≠ "/index/" +:+ name) ->
  st' !! k = st !! k.
Proof.
  revert st. induction l as [|[nm index] rest IH]; intros st H Hk; simpl in H.
  - by injection H as <-.
  - destruct (saveIndex s o prev g index st) as [st1|] eqn:H1; [simpl in H|done].
    destruct (saveIndex_named _ _ _ _ _ _ _ H1) as [name Hn].
    rewrite (IH st1 H).
    + eapply saveIndex_other; [done..|].
      apply (Hk (nm, index)); [left|done].
    + intros e n He. apply Hk. by right.
Qed.

Lemma saveIndexes_not_index s o prev g l st st' k :
  saveIndexes s o prev g l st = Some st' ->
  (∀ n, k ≠ "/index/" +:+ n) ->
  st' !! k = st !! k.
Proof. intros H Hk. eapply saveIndexes_other; [done|]. intros. apply Hk. Qed.

Lemma saveIndex_keeps_lastgen s o prev g index st st' :
  saveIndex s o prev g index st = Some st' ->
  st !! lastGenKey o = Some (marshalGen s g) ->
  st' !! lastGenKey o = Some (marshalGen s g).
Proof.
  intros H Hst. destruct (Type_ index) eqn:Ht.
  - unfold saveIndex in H. by rewrite (name_undef _ _ _ Ht) in H.
  - rewrite (saveIndex_lastgen _ _ _ _ _ _ _ H Ht). unfold Put.
    by rewrite lookup_insert_eq.
  - destruct (saveIndex_named _ _ _ _ _ _ _ H) as [name Hn].
    rewrite (saveIndex_other _ _ _ _ _ _ _ _ _ H Hn); [done|].
    intros Heq. apply index_key_inj in Heq.
    by apply (listgen_name_not_lastgen _ _ _ _ (KeyForStorable o) Ht Hn).
Qed.

Lemma saveIndexes_keeps_lastgen s o prev g l st st' :
  saveIndexes s o prev g l st = Some st' ->
  st !! lastGenKey o = Some (marshalGen s g) ->
  st' !! lastGenKey o = Some (marshalGen s g).
Proof.
  revert st. induction l as [|[nm index] rest IH]; intros st H Hst; simpl in H.
  - by injection H as <-.
  - destruct (saveIndex s o prev g index st) as [st1|] eqn:H1; [simpl in H|done].
    eapply IH; [done|]. by eapply saveIndex_keeps_lastgen.
Qed.

(** The last-generation index entry holds the new generation after the
    loop, whenever the collection has an index of that type. *)
Lemma saveIndexes_lastgen s o prev g l st st' e :
  saveIndexes s o prev g l st = Some st' ->
  e ∈ l -> Type_ e.2 = IndexTypeLastGen ->
  st' !! lastGenKey o = Some (marshalGen s g).
Proof.
  revert st. induction l as [|[nm index] rest IH]; intros st H He Ht; simpl in H.
  - by apply elem_of_nil in He.
  - destruct (saveIndex s o prev g index st) as [st1|] eqn:H1; [simpl in H|done].
    apply elem_of_cons in He as [->|He].
    + eapply saveIndexes_keeps_lastgen; [done|].
      rewrite (saveIndex_lastgen _ _ _ _ _ _ _ H1 Ht). unfold Put.
      by rewrite lookup_insert_eq.
    + by eapply IH.
Qed.

(** An entry that reads as a list before the loop reads as a list after
    it, with the new generation added exactly when a list index of the
    loop has its entry there. *)
Lemma saveIndexes_list_effect s o prev g l st st' name before :
  ListCodecOk s ->
  saveIndexes s o prev g l st = Some st' ->
  (∀ r, name ≠ "lastgen/" +:+ r) ->
  readValueList s (Get st ("/index/" +:+ name)) = Some before ->
  ∃ after,
    readValueList s (Get st' ("/index/" +:+ name)) = Some after ∧
    ∀ b, b ∈ after ↔
         b ∈ before ∨ (b = gostrings.to_bytes (marshalGen s g) ∧ touches (codec s) o l name).
Proof.
  intros Hcodec. revert st before.
  induction l as [|[nm index] rest IH]; intros st before H Hname Hbefore; simpl in H.
  - injection H as <-. exists before. split; [done|].
    intros b. split; [by left|]. intros [?|[_ (e & He & _)]]; [done|].
    by apply elem_of_nil in He.
  - destruct (saveIndex s o prev g index st) as [st1|] eqn:H1; [simpl in H|done].
    destruct (saveIndex_named _ _ _ _ _ _ _ H1) as [name0 Hn0].
    destruct (decide (name0 = name ∧ Type_ index = IndexTypeListGen)) as [[-> Ht]|Hne].
    + destruct (saveIndex_listgen _ _ _ _ _ _ _ _ H1 Ht Hn0) as (before' & data & Hb & Hd & ->).
      rewrite Hbefore in Hb. injection Hb as <-.
      destruct (IH _ (Add before (gostrings.to_bytes (marshalGen s g))) H Hname)
        as (after & Hafter & Hmem).
      { rewrite Get_Put_eq. by apply Hcodec. }
      exists after. split; [done|]. intros b. rewrite Hmem, store_facts.elem_of_Add.
      split.
      * intros [[?| ->]|[-> _]]; [by left|right..]; (split; [done|]);
          exists (nm, index); (split; [left|done]).
      * intros [?|[-> _]]; [by left; left|by left; right].
    + assert (Hsame : st1 !! ("/index/" +:+ name) = st !! ("/index/" +:+ name)).
      { destruct (Type_ index) eqn:Ht.
        - unfold saveIndex in H1. by rewrite (name_undef _ _ _ Ht) in H1.
        - rewrite (saveIndex_lastgen _ _ _ _ _ _ _ H1 Ht). unfold Put.
          rewrite lookup_insert_ne; [done|]. unfold lastGenKey.
          intros Heq. cbn in Heq. simplify_eq. by eapply Hname.
        - eapply saveIndex_other; [done..|].
          intros Heq. apply index_key_inj in Heq. subst name0. by apply Hne. }
      destruct (IH st1 before H Hname) as (after & Hafter & Hmem).
      { by rewrite (Get_lookup _ _ _ Hsame). }
      exists after. split; [done|]. intros b. rewrite Hmem.
      split.
      * intros [?|[-> (e & He & Het & Hen)]]; [by left|right].
        split; [done|]. exists e. split; [by right|done].
      * intros [?|[-> (e & He & Het & Hen)]]; [by left|right].
        split; [done|]. exists e. split; [|done].
        apply elem_of_cons in He as [->|He]; [|done].
        simpl in *. rewrite Hn0 in Hen. injection Hen as ->. by destruct Hne.
Qed.

(** Every entry of a list index of the loop reads as a list before and
    after, and gains the new generation and nothing else. *)
Lemma saveIndexes_listgen s o prev g l st st' name :
  ListCodecOk s ->
  saveIndexes s o prev g l st = Some st' ->
  touches (codec s) o l name ->
  ∃ before after,
    readValueList s (Get st ("/index/" +:+ name)) = Some before ∧
    readValueList s (Get st' ("/index/" +:+ name)) = Some after ∧
    ∀ b, b ∈ after ↔ b ∈ before ∨ b = gostrings.to_bytes (marshalGen s g).
Proof.
  intros Hcodec. revert st.
  induction l as [|[nm index] rest IH]; intros st H Htouch; simpl in H.
  - destruct Htouch as (e & He & _). by apply elem_of_nil in He.
  - assert (Hname : ∀ r, name ≠ "lastgen/" +:+ r).
    { destruct Htouch as (e & _ & Het & Hen). intros r.
      by eapply listgen_name_not_lastgen. }
    destruct (saveIndex s o prev g index st) as [st1|] eqn:H1; [simpl in H|done].
    destruct (saveIndex_named _ _ _ _ _ _ _ H1) as [name0 Hn0].
    destruct (decide (name0 = name ∧ Type_ index = IndexTypeListGen)) as [[-> Ht]|Hne].
    + destruct (saveIndex_listgen _ _ _ _ _ _ _ _ H1 Ht Hn0) as (before & data & Hb & Hd & ->).
      destruct (saveIndexes_list_effect _ _ _ _ _ _ _ name
                  (Add before (gostrings.to_bytes (marshalGen s g))) Hcodec H Hname)
        as (after & Hafter & Hmem).
      { rewrite Get_Put_eq. by apply Hcodec. }
      exists before, after. split; [done|]. split; [done|].
      intros b. rewrite Hmem, store_facts.elem_of_Add. tauto.
    + assert (Hsame : st1 !! ("/index/" +:+ name) = st !! ("/index/" +:+ name)).
      { destruct (Type_ index) eqn:Ht.
        - unfold saveIndex in H1. by rewrite (name_undef _ _ _ Ht) in H1.
        - rewrite (saveIndex_lastgen _ _ _ _ _ _ _ H1 Ht). unfold Put.
          rewrite lookup_insert_ne; [done|]. unfold lastGenKey.
          intros Heq. cbn in Heq. simplify_eq. by eapply Hname.
        - eapply saveIndex_other; [done..|].
          intros Heq. apply index_key_inj in Heq. subst name0. by apply Hne. }
      destruct (IH st1 H) as (before & after & Hb & Ha & Hmem).
      { destruct Htouch as (e & He & Het & Hen).
        apply elem_of_cons in He as [->|He]; [|by exists e].
        simpl in *. rewrite Hn0 in Hen. injection Hen as ->. by destruct Hne. }
      exists before, after. split; [|done].
      by rewrite <- (Get_lookup _ _ _ Hsame).
Qed.

(** *** IndexesFor *)

Lemma lookup_setIndex_ne name name' index l :
  name ≠ name' ->
  lookupIndex (mkIndexes (setIndex name index l)) name' = lookupIndex (mkIndexes l) name'.
Proof.
  intros Hne. unfold lookupIndex. simpl. induction l as [|e l IH]; simpl.
  - by rewrite bool_decide_eq_false_2.
  - destruct (decide (e.1 = name)) as [He|He]; simpl.
    + rewrite bool_decide_eq_false_2 by done.
      by rewrite bool_decide_eq_false_2 by congruence.
    + destruct (bool_decide (e.1 = name')); [done|]. exact IH.
Qed.

Lemma lookup_fieldIndexes info i fields acc name :
  (∀ f, f ∈ fields -> f.1 ≠ name) ->
  lookupIndex (mkIndexes (fieldIndexes info i fields acc)) name
  = lookupIndex (mkIndexes acc) name.
Proof.
  revert i acc. induction fields as [|[fName tag] rest IH]; intros i acc Hf; [done|].
  simpl. assert (Hrest : ∀ f, f ∈ rest -> f.1 ≠ name) by (intros f ?; apply Hf; by right).
  destruct (gostrings.Contains tag "index"); rewrite IH by done; [|done].
  apply lookup_setIndex_ne. apply (Hf (fName, tag)). by left.
Qed.

(** For a versioned kind whose struct has no field with the empty name,
    as in Go, IndexesFor gives the last-generation index under its name. *)
Lemma IndexesFor_HasLastGen info :
  Versioned info = true ->
  (∀ f, f ∈ StructFields info -> f.1 ≠ LastGenIndex) ->
  HasLastGen (IndexesFor info).
Proof.
  intros Hv Hf. unfold HasLastGen, IndexesFor. rewrite Hv.
  rewrite (lookup_fieldIndexes _ _ _ _ _ Hf).
  by eexists.
Qed.

(** *** The transaction *)

Lemma lookup_lastgen indexes o c :
  HasLastGen indexes ->
  NameForStorable indexes LastGenIndex o c = Some ("lastgen/" +:+ KeyForStorable o).
Proof.
  intros (index & Hl & Ht). unfold NameForStorable. rewrite Hl. simpl.
  by apply name_lastgen.
Qed.

Lemma lookupIndex_elem indexes name index :
  lookupIndex indexes name = Some index -> ∃ e, e ∈ List indexes ∧ e.2 = index.
Proof.
  unfold lookupIndex. intros H.
  destruct (find _ _) as [e|] eqn:Hf; [|done]. injection H as <-.
  apply find_some in Hf as [Hin _]. exists e. split; [|done].
  by apply list_elem_of_In.
Qed.


(** The write half of the transaction: what it leaves when the
    generation is settled as that of [o1]. *)
Lemma saveTxn_write s info indexes opts key o o1 prev st :
  chooseGeneration s info indexes opts key o st = inr (o1, prev) ->
  (∃ data st',
      marshal s o1 = Some data ∧
      saveIndexes s o1 prev (Gen o1) (List indexes) (Put st (objectKey key (Gen o1)) data)
        = Some st' ∧
      saveTxn s info indexes opts key o st = (Ok, o1, st') ∧
      st' !! objectKey key (Gen o1) = Some data)
  ∨ ((marshal s o1 = None ∨
      ∃ data, marshal s o1 = Some data ∧
        saveIndexes s o1 prev (Gen o1) (List indexes) (Put st (objectKey key (Gen o1)) data)
          = None) ∧
     ∃ st', saveTxn s info indexes opts key o st = (Panic, o1, st')).
Proof.
  intros Hc. unfold saveTxn. rewrite Hc.
  destruct (marshal s o1) as [data|] eqn:Hm; [|right; eauto].
  unfold GetGeneration.
  destruct (saveIndexes _ _ _ _ _ _) as [st'|] eqn:Hi; [left|right; eauto 10].
  exists data, st'. repeat split; try done.
  rewrite (saveIndexes_not_index _ _ _ _ _ _ _ _ Hi).
  - unfold Put. by rewrite lookup_insert_eq.
  - intros n. apply object_key_not_index.
Qed.


Lemma Save_versioned s info indexes o opts st :
  Versioned info = true -> IsVersioned o = true ->
  Save s info indexes (Some o) opts st =
    let '(r, o', st') :=
      NewSTM st (saveTxn s info indexes opts ("/" +:+ KeyForStorable o) o) in
    (r, Some o', st').
Proof. intros Hv Ho. unfold Save. by rewrite Hv, Ho. Qed.


(** The comparison of Save takes the generation of the new object in:
    when the object under the last generation has the content of the new
    object and another generation, Save goes on to write the next
    generation. *)
Lemma chooseGeneration_same_content s info indexes key o st lastGen prevObj :
  HasLastGen indexes ->
  Get st (lastGenKey o) ≠ "" ->
  unmarshalGen s (Get st (lastGenKey o)) = Some lastGen ->
  Get st (objectKey key lastGen) ≠ "" ->
  unmarshal s (Get st (objectKey key lastGen)) (New info) = Some prevObj ->
  SetGeneration o (Gen prevObj) = prevObj ->
  Gen o ≠ Gen prevObj ->
  chooseGeneration s info indexes defaultOpts key o st
    = inr (SetGeneration o (Next lastGen), Some prevObj).
Proof.
  intros Hl Hpres Hu Hobj Hp Hsame Hgen. unfold chooseGeneration. simpl.
  rewrite (lookup_lastgen _ _ _ Hl).
  change ("/index/" +:+ "lastgen/" +:+ KeyForStorable o) with (lastGenKey o).
  rewrite decide_False by done. rewrite Hu.
  rewrite decide_False by done. rewrite Hp.
  unfold DeepEqual. rewrite bool_decide_eq_false_2; [done|].
  intros ->. done.
Qed.

(** *** Saving the same object twice *)

Lemma SetGeneration_Gen o : SetGeneration o (Gen o) = o.
Proof. by destruct o. Qed.

Lemma SetGeneration_twice o g g' :
  SetGeneration (SetGeneration o g) g' = SetGeneration o g'.
Proof. done. Qed.

Lemma DeepEqual_refl o : DeepEqual o o = true.
Proof. unfold DeepEqual. by apply bool_decide_eq_true. Qed.

(** chooseGeneration in default mode, with the key of the
    last-generation entry spelled out. *)
Lemma chooseGeneration_default s info indexes key o st :
  HasLastGen indexes ->
  chooseGeneration s info indexes defaultOpts key o st =
    if decide (Get st (lastGenKey o) = "") then inr (SetGeneration o FirstGen, None)
    else
      match unmarshalGen s (Get st (lastGenKey o)) with
      | None => inl (Panic, o)
      | Some lastGen =>
          if decide (Get st (objectKey key lastGen) = "")
          then inl (Err (ErrLastGenCorrupted key), o)
          else
            match unmarshal s (Get st (objectKey key lastGen)) (New info) with
            | None => inl (Panic, o)
            | Some prevObj =>
                if negb (DeepEqual prevObj o)
                then inr (SetGeneration o (Next lastGen), Some prevObj)
                else inl (Ok, SetGeneration o lastGen)
            end
      end.
Proof.
  intros Hl. unfold chooseGeneration. simpl.
  by rewrite (lookup_lastgen _ _ _ Hl).
Qed.

(** When the index names the generation of the object and the object
    stored there is the object itself, Save has nothing to do. *)
Lemma chooseGeneration_unchanged s info indexes key o st data :
  HasLastGen indexes ->
  GenCodecOk s ->
  ObjectRoundTrip s info o ->
  st !! lastGenKey o = Some (marshalGen s (Gen o)) ->
  marshal s o = Some data ->
  st !! objectKey key (Gen o) = Some data ->
  chooseGeneration s info indexes defaultOpts key o st = inl (Ok, o).
Proof.
  intros Hl Hgen Hrt Hlast Hm Hobj.
  rewrite (chooseGeneration_default _ _ _ _ _ _ Hl).
  destruct (Hgen (Gen o)) as [Hne Hback].
  destruct (Hrt data Hm) as [Hdata Hread].
  unfold Get. rewrite Hlast. simpl.
  rewrite decide_False by done. rewrite Hback.
  rewrite Hobj. simpl. rewrite decide_False by done.
  rewrite Hread, DeepEqual_refl. simpl.
  by rewrite SetGeneration_Gen.
Qed.

Lemma saveTxn_same_choice s info indexes opts key o o' st :
  chooseGeneration s info indexes opts key o st
    = chooseGeneration s info indexes opts key o' st ->
  saveTxn s info indexes opts key o st = saveTxn s info indexes opts key o' st.
Proof. unfold saveTxn. by intros ->. Qed.

(** The write path followed by a second call on the object it
    returned: the second call finds the object unchanged. *)
Lemma saveTxn_after_write s info indexes key o o1 prev st r oo st1 :
  key = "/" +:+ KeyForStorable o ->
  KeyForStorable o1 = KeyForStorable o ->
  HasLastGen indexes ->
  GenCodecOk s ->
  (∀ lastGen prevObj,
      Get st (lastGenKey o) ≠ "" ->
      unmarshalGen s (Get st (lastGenKey o)) = Some lastGen ->
      Get st (objectKey key lastGen) ≠ "" ->
      unmarshal s (Get st (objectKey key lastGen)) (New info) = Some prevObj ->
      DeepEqual prevObj o1 = false ∧ SetGeneration o1 (Next lastGen) = o1 ∧
      prev = Some prevObj) ->
  (Get st (lastGenKey o) = "" -> Gen o1 = FirstGen ∧ prev = None) ->
  chooseGeneration s info indexes defaultOpts key o st = inr (o1, prev) ->
  NewSTM st (saveTxn s info indexes defaultOpts key o) = (r, oo, st1) ->
  ObjectRoundTrip s info oo ->
  oo = o1 ∧
  NewSTM st1 (saveTxn s info indexes defaultOpts key oo) = (r, oo, st1) ∧
  ∀ k, k ≠ objectKey key (Gen o1) -> (∀ n, k ≠ "/index/" +:+ n) -> st1 !! k = st !! k.
Proof.
  intros Hkey Hk1 Hl Hgen Hpres Habs Hc H Hrt.
  assert (Hlk : lastGenKey o1 = lastGenKey o) by (unfold lastGenKey; by rewrite Hk1).
  destruct (saveTxn_write _ _ _ _ _ _ _ _ _ Hc)
    as [(data & st' & Hm & Hi & Htxn & Hst')|[Hfail [st' Htxn]]].
  - unfold NewSTM in H. rewrite Htxn in H. injection H as <- <- <-.
    split; [done|].
    assert (Hlast : st' !! lastGenKey o1 = Some (marshalGen s (Gen o1))).
    { destruct Hl as (index & Hlook & Ht).
      destruct (lookupIndex_elem _ _ _ Hlook) as (e & He & <-).
      by eapply saveIndexes_lastgen. }
    split.
    + unfold NewSTM, saveTxn.
      by rewrite (chooseGeneration_unchanged _ _ _ _ _ _ data Hl Hgen Hrt Hlast Hm Hst').
    + intros k Hk Hn. rewrite (saveIndexes_not_index _ _ _ _ _ _ _ _ Hi Hn).
      unfold Put. by rewrite lookup_insert_ne.
  - unfold NewSTM in H. rewrite Htxn in H. injection H as <- <- <-.
    split; [done|]. split; [|done].
    assert (Hc' : chooseGeneration s info indexes defaultOpts key o1 st = inr (o1, prev)).
    { rewrite (chooseGeneration_default _ _ _ _ _ _ Hl). rewrite Hlk.
      rewrite (chooseGeneration_default _ _ _ _ _ _ Hl) in Hc.
      destruct (decide (Get st (lastGenKey o) = "")) as [He|Hne].
      - destruct (Habs He) as [Hg ->]. by rewrite <- Hg, SetGeneration_Gen.
      - destruct (unmarshalGen s (Get st (lastGenKey o))) as [lastGen|] eqn:Hu; [|done].
        destruct (decide (Get st (objectKey key lastGen) = "")) as [|Hobj]; [done|].
        destruct (unmarshal s (Get st (objectKey key lastGen)) (New info))
          as [prevObj|] eqn:Hp; [|done].
        destruct (Hpres lastGen prevObj Hne eq_refl Hobj Hp) as (Hd & Hs & ->).
        by rewrite Hd, Hs. }
    unfold NewSTM.
    rewrite <- (saveTxn_same_choice s info indexes defaultOpts key o o1 st)
      by (by rewrite Hc, Hc').
    by rewrite Htxn.
Qed.

Lemma saveTxn_early s info indexes opts key o st r o' :
  chooseGeneration s info indexes opts key o st = inl (r, o') ->
  saveTxn s info indexes opts key o st = (r, o', st).
Proof. unfold saveTxn. by intros ->. Qed.

Lemma NewSTM_same {A} st (f : gmap string string -> outcome * A * gmap string string) r a :
  f st = (r, a, st) -> NewSTM st f = (r, a, st).
Proof. unfold NewSTM. intros ->. by destruct r. Qed.

(** The transaction of a default-mode Save, run again on the object it
    returned and on the key space it left. *)
Lemma saveTxn_twice s info indexes o st r1 o1 st1 :
  let key := "/" +:+ KeyForStorable o in
  HasLastGen indexes ->
  GenCodecOk s ->
  LastGenConsistent s info o st ->
  NewSTM st (saveTxn s info indexes defaultOpts key o) = (r1, o1, st1) ->
  ObjectRoundTrip s info o1 ->
  NewSTM st1 (saveTxn s info indexes defaultOpts key o1) = (r1, o1, st1) ∧
  (∃ g, o1 = SetGeneration o g) ∧
  ∀ k, k ≠ objectKey key (Gen o1) -> (∀ n, k ≠ "/index/" +:+ n) -> st1 !! k = st !! k.
Proof.
  intros key Hl Hgen Hcons H Hrt.
  pose proof (chooseGeneration_default s info indexes key o st Hl) as Hc.
  destruct (decide (Get st (lastGenKey o) = "")) as [Habs|Hpres].
  { destruct (saveTxn_after_write s info indexes key o (SetGeneration o FirstGen) None
                st r1 o1 st1) as (-> & H2 & Hframe); try done.
    split; [done|]. split; [by exists FirstGen|done]. }
  destruct (unmarshalGen s (Get st (lastGenKey o))) as [lastGen|] eqn:Hu.
  2:{ rewrite (NewSTM_same _ _ _ _ (saveTxn_early _ _ _ _ _ _ _ _ _ Hc)) in H.
      injection H as <- <- <-.
      rewrite (NewSTM_same _ _ _ _ (saveTxn_early _ _ _ _ _ _ _ _ _ Hc)).
      split; [done|]. split; [|done]. exists (Gen o). by rewrite SetGeneration_Gen. }
  destruct (decide (Get st (objectKey key lastGen) = "")) as [|Hobj].
  { rewrite (NewSTM_same _ _ _ _ (saveTxn_early _ _ _ _ _ _ _ _ _ Hc)) in H.
    injection H as <- <- <-.
    rewrite (NewSTM_same _ _ _ _ (saveTxn_early _ _ _ _ _ _ _ _ _ Hc)).
    split; [done|]. split; [|done]. exists (Gen o). by rewrite SetGeneration_Gen. }
  destruct (unmarshal s (Get st (objectKey key lastGen)) (New info))
    as [prevObj|] eqn:Hp.
  2:{ rewrite (NewSTM_same _ _ _ _ (saveTxn_early _ _ _ _ _ _ _ _ _ Hc)) in H.
      injection H as <- <- <-.
      rewrite (NewSTM_same _ _ _ _ (saveTxn_early _ _ _ _ _ _ _ _ _ Hc)).
      split; [done|]. split; [|done]. exists (Gen o). by rewrite SetGeneration_Gen. }
  pose proof (Hcons lastGen prevObj Hpres Hu Hp) as Hgp.
  destruct (DeepEqual prevObj o) eqn:Hd; simpl in Hc.
  - apply bool_decide_eq_true in Hd. subst prevObj.
    rewrite <- Hgp, SetGeneration_Gen in Hc.
    rewrite (NewSTM_same _ _ _ _ (saveTxn_early _ _ _ _ _ _ _ _ _ Hc)) in H.
    injection H as <- <- <-.
    rewrite (NewSTM_same _ _ _ _ (saveTxn_early _ _ _ _ _ _ _ _ _ Hc)).
    split; [done|]. split; [|done]. exists (Gen o). by rewrite SetGeneration_Gen.
  - destruct (saveTxn_after_write s info indexes key o (SetGeneration o (Next lastGen))
                (Some prevObj) st r1 o1 st1) as (-> & H2 & Hframe); try done.
    + intros lastGen0 prevObj0 _ Hu0 _ Hp0.
      rewrite Hu in Hu0. injection Hu0 as <-.
      rewrite Hp in Hp0. injection Hp0 as <-.
      split; [|done].
      unfold DeepEqual. apply bool_decide_eq_false. intros ->.
      simpl in Hgp. unfold Next in Hgp. lia.
    + split; [done|]. split; [by exists (Next lastGen)|done].
Qed.

(** C2. A default-mode Save followed by a Save of the object it returned:
    the second call comes back with the same outcome, leaves the object
    with the generation the first call gave it and the key space as the
    first call left it; over both calls at most one object key is written,
    so at most one generation is new. The codec has to give back the saved
    object, and the key space has to be one in which the object under the
    last generation carries that generation. *)
Theorem Save_twice s info indexes o st r1 o1 st1 :
  (Versioned info = true -> HasLastGen indexes) ->
  GenCodecOk s ->
  LastGenConsistent s info o st ->
  Save s info indexes (Some o) defaultOpts st = (r1, Some o1, st1) ->
  ObjectRoundTrip s info o1 ->
  Save s info indexes (Some o1) defaultOpts st1 = (r1, Some o1, st1) ∧
  ∃ gen, ∀ k,
    k ≠ objectKey ("/" +:+ KeyForStorable o) gen ->
    (∀ n, k ≠ "/index/" +:+ n) ->
    st1 !! k = st !! k.
Proof.
  intros Hl Hgen Hcons H Hrt. unfold Save in H |- *.
  destruct (Versioned info) eqn:Hv; simpl in *.
  - destruct (IsVersioned o) eqn:Ho; simpl in *.
    + destruct (NewSTM st _) as [[r o'] st'] eqn:Htxn. injection H as <- <- <-.
      destruct (saveTxn_twice _ _ _ _ _ _ _ _ (Hl eq_refl) Hgen Hcons Htxn Hrt)
        as (H2 & [g ->] & Hframe).
      simpl. rewrite Ho. simpl.
      change (KeyForStorable (SetGeneration o g)) with (KeyForStorable o).
      rewrite H2. split; [done|]. by exists g.
    + injection H as <- <- <-. rewrite Ho. simpl. split; [done|]. by exists 0.
  - destruct (marshal s o) as [data|] eqn:Hm.
    + injection H as <- <- <-. rewrite Hm. split.
      * unfold Put. by rewrite insert_insert_eq.
      * exists LastOrEmptyGen. intros k Hk _. unfold Put. by rewrite lookup_insert_ne.
    + injection H as <- <- <-. rewrite Hm. split; [done|]. by exists 0.
Qed.

(** Under ReplaceOrForceGen the generation of the caller stands: a zero
    generation is an error that writes nothing; otherwise the object keeps
    its generation and, unless the codec or the index loop panics, is written
    under it. *)
Lemma Save_force_generation s info indexes o st :
  Versioned info = true ->
  IsVersioned o = true ->
  (Gen o = LastOrEmptyGen ->
   Save s info indexes (Some o) WithReplaceOrForceGen st
   = (Err (ErrEmptyGeneration ("/" +:+ KeyForStorable o)), Some o, st)) ∧
  (Gen o ≠ LastOrEmptyGen ->
   ∃ r st', Save s info indexes (Some o) WithReplaceOrForceGen st = (r, Some o, st') ∧
     (r = Ok ->
      ∃ data, marshal s o = Some data ∧
              st' !! objectKey ("/" +:+ KeyForStorable o) (Gen o) = Some data) ∧
     (r ≠ Ok -> r = Panic ∧ st' = st)).
Proof.
  intros Hv Ho. rewrite (Save_versioned _ _ _ _ _ _ Hv Ho). split.
  - intros Hg. unfold NewSTM, saveTxn, chooseGeneration. simpl.
    unfold GetGeneration. by rewrite decide_True.
  - intros Hg.
    assert (Hc : chooseGeneration s info indexes WithReplaceOrForceGen
                   ("/" +:+ KeyForStorable o) o st = inr (o, None)
                 ∨ chooseGeneration s info indexes WithReplaceOrForceGen
                   ("/" +:+ KeyForStorable o) o st = inl (Panic, o)).
    { unfold chooseGeneration. simpl. unfold GetGeneration.
      rewrite decide_False by done.
      destruct (decide _); [by left|].
      destruct (unmarshal s _ _); [by left|by right]. }
    destruct Hc as [Hc|Hc].
    + destruct (saveTxn_write _ _ _ _ _ _ _ _ _ Hc)
        as [(data & st' & Hm & Hi & Htxn & Hst')|[_ [st' Htxn]]];
        unfold NewSTM; rewrite Htxn.
      * exists Ok, st'. split; [done|]. split; [|done]. intros _. by exists data.
      * exists Panic, st. split; [done|]. split; [done|]. by intros _.
    + rewrite (NewSTM_same _ _ _ _ (saveTxn_early _ _ _ _ _ _ _ _ _ Hc)).
      exists Panic, st. split; [done|]. split; [done|]. by intros _.
Qed.

(** *** The indexes after a Save that writes *)

(** What a default-mode Save that goes on to its writes does to the index
    entries. *)
Lemma Save_write_effects s info indexes o st o1 prev st1 :
  Versioned info = true ->
  IsVersioned o = true ->
  HasLastGen indexes ->
  ListCodecOk s ->
  chooseGeneration s info indexes defaultOpts ("/" +:+ KeyForStorable o) o st
    = inr (o1, prev) ->
  Save s info indexes (Some o) defaultOpts st = (Ok, Some o1, st1) ->
  st1 !! lastGenKey o = Some (marshalGen s (Gen o1)) ∧
  (∀ name, ListGenName indexes (codec s) o1 name ->
     ∃ before after,
       readValueList s (Get st ("/index/" +:+ name)) = Some before ∧
       readValueList s (Get st1 ("/index/" +:+ name)) = Some after ∧
       ∀ b, b ∈ after ↔ b ∈ before ∨ b = gostrings.to_bytes (marshalGen s (Gen o1))) ∧
  (∀ name, name ≠ "lastgen/" +:+ KeyForStorable o ->
     ¬ ListGenName indexes (codec s) o1 name ->
     st1 !! ("/index/" +:+ name) = st !! ("/index/" +:+ name)).
Proof.
  intros Hv Ho Hl Hcodec Hc H.
  rewrite (Save_versioned _ _ _ _ _ _ Hv Ho) in H.
  destruct (saveTxn_write _ _ _ _ _ _ _ _ _ Hc)
    as [(data & st' & Hm & Hi & Htxn & Hst')|[_ [st' Htxn]]];
    unfold NewSTM in H; rewrite Htxn in H; [|done].
  injection H as <-.
  assert (Hk1 : KeyForStorable o1 = KeyForStorable o).
  { unfold chooseGeneration in Hc. simpl in Hc.
    repeat match type of Hc with
           | context [match ?x with _ => _ end] => destruct x; try done
           end; by injection Hc as <- _. }
  split; [|split].
  - destruct Hl as (index & Hlook & Ht).
    destruct (lookupIndex_elem _ _ _ Hlook) as (e & He & <-).
    unfold lastGenKey. rewrite <- Hk1. by eapply saveIndexes_lastgen.
  - intros name Hname.
    destruct (saveIndexes_listgen _ _ _ _ _ _ _ _ Hcodec Hi Hname)
      as (before & after & Hb & Ha & Hmem).
    exists before, after. split; [|done].
    rewrite Get_Put_ne in Hb; [done|]. apply object_key_not_index.
  - intros name Hnl Hnt.
    rewrite (saveIndexes_other _ _ _ _ _ _ _ _ Hi).
    + unfold Put. rewrite lookup_insert_ne; [done|]. apply object_key_not_index.
    + intros e n He Hn Heq. apply index_key_inj in Heq. subst n.
      destruct (Type_ e.2) eqn:Ht.
      * by rewrite (name_undef _ _ _ Ht) in Hn.
      * rewrite (name_lastgen _ _ _ Ht) in Hn. injection Hn as <-.
        by rewrite Hk1 in Hnl.
      * apply Hnt. by exists e.
Qed.

(** *** The invariant of a key *)

Lemma string_app_inv_head a x y : a +:+ x = a +:+ y -> x = y.
Proof.
  induction a as [|c a IH]; [done|].
  intros H. apply IH. by injection H.
Qed.

Lemma Generation_String_inj g g' : Generation_String g = Generation_String g' -> g = g'.
Proof.
  unfold Generation_String. intros H.
  apply DecimalN.Unsigned.to_uint_inj.
  apply (f_equal NilEmpty.uint_of_string) in H.
  rewrite !NilEmpty.usu in H. by injection H.
Qed.

Lemma objectKey_inj key g g' : objectKey key g = objectKey key g' -> g = g'.
Proof.
  unfold objectKey. intros H.
  apply Generation_String_inj.
  by do 3 apply string_app_inv_head in H.
Qed.

Lemma marshalGen_inj s g g' :
  GenCodecOk s -> marshalGen s g = marshalGen s g' -> g = g'.
Proof.
  intros Hgen H. destruct (Hgen g) as [_ Hg], (Hgen g') as [_ Hg'].
  rewrite H, Hg' in Hg. by injection Hg.
Qed.

Lemma to_bytes_inj x y : gostrings.to_bytes x = gostrings.to_bytes y -> x = y.
Proof.
  unfold gostrings.to_bytes. intros H.
  apply (f_equal String.string_of_list_byte) in H.
  by rewrite !String.string_of_list_byte_of_string in H.
Qed.

(** The write path of chooseGeneration in default mode: the entry is
    absent and the generation is the first, or the entry names a generation
    whose object differs from the new one and the generation is the next. *)
Lemma chooseGeneration_write s info indexes key o st o1 prev :
  HasLastGen indexes ->
  chooseGeneration s info indexes defaultOpts key o st = inr (o1, prev) ->
  (Get st (lastGenKey o) = "" ∧ o1 = SetGeneration o FirstGen ∧ prev = None) ∨
  (∃ lastGen prevObj,
      Get st (lastGenKey o) ≠ "" ∧
      unmarshalGen s (Get st (lastGenKey o)) = Some lastGen ∧
      Get st (objectKey key lastGen) ≠ "" ∧
      unmarshal s (Get st (objectKey key lastGen)) (New info) = Some prevObj ∧
      prevObj ≠ o ∧
      o1 = SetGeneration o (Next lastGen) ∧ prev = Some prevObj).
Proof.
  intros Hl. rewrite (chooseGeneration_default _ _ _ _ _ _ Hl).
  destruct (decide (Get st (lastGenKey o) = "")) as [Habs|Hpres].
  { intros [= <- <-]. by left. }
  destruct (unmarshalGen s (Get st (lastGenKey o))) as [lastGen|]; [|done].
  destruct (decide (Get st (objectKey key lastGen) = "")) as [|Hobj]; [done|].
  destruct (unmarshal s (Get st (objectKey key lastGen)) (New info))
    as [prevObj|] eqn:Hp; [|done].
  destruct (DeepEqual prevObj o) eqn:Hd; simpl; [done|].
  intros [= <- <-]. right. exists lastGen, prevObj.
  repeat split; try done.
  by apply bool_decide_eq_false in Hd.
Qed.

Lemma entry_name_not_lastgen indexes c o name r :
  ListGenEntry indexes c o name -> name ≠ "lastgen/" +:+ r.
Proof.
  intros (Hne & e & v & _ & Ht & Hn).
  unfold Index_NameForValue in Hn. rewrite Ht in Hn. simpl in Hn.
  destruct (ValueTransform e.2) as [transform|]; [simpl in Hn|done].
  destruct (transform v); simpl in Hn.
  - by injection Hn as <-.
  - injection Hn as <-. cbn. discriminate.
  - injection Hn as <-. cbn. discriminate.
  - destruct (Marshal c _); simpl in Hn; [|done]. injection Hn as <-. cbn. discriminate.
Qed.

(** What is stored for the key after the writes of a Save. *)
Lemma Stored_after_write s info o o1 prev g l st st1 data obj :
  KeyForStorable o1 = KeyForStorable o ->
  GenCodecOk s ->
  ObjectRoundTrip s info o1 ->
  marshal s o1 = Some data ->
  saveIndexes s o1 prev (Gen o1) l
    (Put st (objectKey ("/" +:+ KeyForStorable o) (Gen o1)) data) = Some st1 ->
  Stored s info o g st1 obj ↔
    (g = Gen o1 ∧ obj = o1) ∨ (g ≠ Gen o1 ∧ Stored s info o g st obj).
Proof.
  intros Hk Hgen Hrt Hm Hi. unfold Stored.
  destruct (Hrt data Hm) as [Hdata Hread].
  destruct (decide (g = Gen o1)) as [->|Hg].
  - rewrite (Get_lookup _ _ _ (saveIndexes_not_index _ _ _ _ _ _ _ _ Hi
               (fun n => object_key_not_index _ _ n))).
    rewrite Get_Put_eq. rewrite Hread. split.
    + intros [_ [= <-]]. by left.
    + intros [[_ ->]|[? _]]; done.
  - rewrite (Get_lookup _ _ _ (saveIndexes_not_index _ _ _ _ _ _ _ _ Hi
               (fun n => object_key_not_index _ _ n))).
    rewrite Get_Put_ne by (intros Heq; by apply objectKey_inj in Heq).
    split; [by right|]. by intros [[? _]|[_ ?]].
Qed.

Lemma write_path_generation s info indexes o st o1 prev g :
  HasLastGen indexes ->
  HighestGen s o st ->
  chooseGeneration s info indexes defaultOpts ("/" +:+ KeyForStorable o) o st
    = inr (o1, prev) ->
  Get st (objectKey ("/" +:+ KeyForStorable o) g) ≠ "" ->
  g < Gen o1.
Proof.
  intros Hl Hhigh Hc Hg.
  destruct (Hhigh g Hg) as (Hpres & lastGen & Hu & Hle).
  destruct (chooseGeneration_write _ _ _ _ _ _ _ _ Hl Hc)
    as [(Habs & _)|(lastGen' & prevObj & _ & Hu' & _ & _ & _ & -> & _)]; [done|].
  rewrite Hu in Hu'. injection Hu' as <-. simpl. unfold Next. lia.
Qed.

(** A default-mode Save that returns without error keeps the invariant of
    the key of the object. *)
Lemma Save_keeps_invariant s info indexes o st o1 st1 :
  Versioned info = true ->
  IsVersioned o = true ->
  HasLastGen indexes ->
  GenCodecOk s ->
  ListCodecOk s ->
  Save s info indexes (Some o) defaultOpts st = (Ok, Some o1, st1) ->
  ObjectRoundTrip s info o1 ->
  KeyInvariant s info indexes o st ->
  KeyInvariant s info indexes o st1.
Proof.
  intros Hv Ho Hl Hgen Hcodec H Hrt (Hcons & Hhigh & Hexact).
  rewrite (Save_versioned _ _ _ _ _ _ Hv Ho) in H.
  destruct (chooseGeneration s info indexes defaultOpts ("/" +:+ KeyForStorable o) o st)
    as [[r o']|[o1' prev]] eqn:Hc.
  { rewrite (NewSTM_same _ _ _ _ (saveTxn_early _ _ _ _ _ _ _ _ _ Hc)) in H.
    by injection H as _ _ <-. }
  destruct (saveTxn_write _ _ _ _ _ _ _ _ _ Hc)
    as [(data & st' & Hm & Hi & Htxn & Hst')|[_ [st' Htxn]]];
    unfold NewSTM in H; rewrite Htxn in H; [|done].
  injection H as <- <-.
  assert (Hk1 : KeyForStorable o1' = KeyForStorable o).
  { destruct (chooseGeneration_write _ _ _ _ _ _ _ _ Hl Hc)
      as [(_ & -> & _)|(? & ? & _ & _ & _ & _ & _ & -> & _)]; done. }
  assert (Hlast : st' !! lastGenKey o = Some (marshalGen s (Gen o1'))).
  { destruct Hl as (index & Hlook & Ht).
    destruct (lookupIndex_elem _ _ _ Hlook) as (e & He & <-).
    unfold lastGenKey. rewrite <- Hk1. by eapply saveIndexes_lastgen. }
  destruct (Hgen (Gen o1')) as [Hgne Hgback].
  destruct (Hrt data Hm) as [Hdata Hread].
  pose proof (Stored_after_write s info o o1' prev) as Hstored.
  assert (Hfresh : Get st (objectKey ("/" +:+ KeyForStorable o) (Gen o1')) = "").
  { destruct (decide (Get st (objectKey ("/" +:+ KeyForStorable o) (Gen o1')) = ""))
      as [|Hne]; [done|].
    pose proof (write_path_generation _ _ _ _ _ _ _ _ Hl Hhigh Hc Hne). lia. }
  split; [|split].
  - intros lastGen prevObj _. unfold Get at 1. rewrite Hlast. simpl. rewrite Hgback.
    intros [= <-]. unfold Get. rewrite Hst'. simpl.
    rewrite Hread. by intros [= <-].
  - intros g Hg. unfold Get at 1 2. rewrite Hlast. simpl.
    split; [done|]. exists (Gen o1'). split; [done|].
    destruct (decide (g = Gen o1')) as [->|Hne]; [lia|].
    assert (Hg' : Get st (objectKey ("/" +:+ KeyForStorable o) g) ≠ "").
    { rewrite (Get_lookup _ _ _ (saveIndexes_not_index _ _ _ _ _ _ _ _ Hi
                 (fun n => object_key_not_index _ _ n))) in Hg.
      rewrite Get_Put_ne in Hg; [done|]. intros Heq. by apply objectKey_inj in Heq. }
    pose proof (write_path_generation _ _ _ _ _ _ _ _ Hl Hhigh Hc Hg'). lia.
  - intros name Hentry.
    destruct (Hexact name Hentry) as (lst & Hlst & Hmem).
    destruct (saveIndexes_list_effect _ _ _ _ _ _ _ name lst Hcodec Hi)
      as (after & Hafter & Hmem').
    { intros r. by eapply entry_name_not_lastgen. }
    { rewrite Get_Put_ne; [done|]. apply object_key_not_index. }
    exists after. split; [done|]. intros b. rewrite Hmem'. split.
    + intros [Hb|[-> Ht]].
      * apply Hmem in Hb as (g & obj & -> & Hs & Hn).
        exists g, obj. split; [done|]. split; [|done].
        apply (Hstored g _ _ _ data obj Hk1 Hgen Hrt Hm Hi). right. split; [|done].
        intros ->. destruct Hs as [Hs _]. by rewrite Hfresh in Hs.
      * exists (Gen o1'), o1'. split; [done|]. split; [|done].
        apply (Hstored (Gen o1') _ _ _ data o1' Hk1 Hgen Hrt Hm Hi). by left.
    + intros (g & obj & -> & Hs & Hn).
      apply (Hstored g _ _ _ data obj Hk1 Hgen Hrt Hm Hi) in Hs as [[-> ->]|[Hne Hs]].
      * right. by split.
      * left. apply Hmem. by exists g, obj.
Qed.

Lemma empty_KeyInvariant s info indexes o : KeyInvariant s info indexes o ∅.
Proof.
  split; [|split].
  - intros lastGen prevObj Hne. by unfold Get in Hne; rewrite lookup_empty in Hne.
  - intros g Hg. by unfold Get in Hg; rewrite lookup_empty in Hg.
  - intros name _. exists []. split.
    + unfold Get. rewrite lookup_empty. simpl. unfold readValueList.
      by rewrite decide_True.
    + intros b. split; [by intros ?%elem_of_nil|].
      intros (g & obj & _ & [Hs _] & _). by unfold Get in Hs; rewrite lookup_empty in Hs.
Qed.

Lemma KeyInvariant_key s info indexes o o' st :
  KeyForStorable o = KeyForStorable o' ->
  KeyInvariant s info indexes o st -> KeyInvariant s info indexes o' st.
Proof.
  unfold KeyInvariant, LastGenConsistent, HighestGen, ListGenExact, ListGenEntry,
    Stored, lastGenKey.
  by intros ->.
Qed.

(** Index consistency along the Saves of one key: from the empty key
    space, every run of default-mode Saves of objects with that key that
    return without error leaves the invariant of the key. *)
Lemma index_consistency_after_saves s info indexes key st :
  Versioned info = true ->
  HasLastGen indexes ->
  GenCodecOk s ->
  ListCodecOk s ->
  savedFrom s info indexes key st ->
  ∀ o, KeyForStorable o = key -> KeyInvariant s info indexes o st.
Proof.
  intros Hv Hl Hgen Hcodec Hsaved.
  induction Hsaved as [|o o1 st st1 Hsaved IH Hk Ho Hsave Hrt]; intros o' Hk'.
  - apply empty_KeyInvariant.
  - apply (KeyInvariant_key s info indexes o); [congruence|].
    eapply Save_keeps_invariant; try done. by apply IH.
Qed.

(** C3, as the code has it. A default-mode Save of a versioned object
    that goes on to its writes with the generation of [o1] leaves, in one
    transaction: the last-generation entry at that generation; every
    list-generation entry for a current indexed field value of the object
    with the new generation added to the members it had; and every other
    index entry as it was. No generation is taken out of a list: the entry
    under the former value of a changed field keeps the previous generation.
    Consequently, when the codec gives back the saved object, the invariant
    of the key goes over from the key space before to the key space after:
    every list-generation entry of the key holds exactly the generations at
    which the stored object has that value of the field, and the
    last-generation entry names the highest generation stored. *)
Theorem Save_new_generation_indexes s info indexes o st o1 prev st1 :
  Versioned info = true ->
  IsVersioned o = true ->
  HasLastGen indexes ->
  GenCodecOk s ->
  ListCodecOk s ->
  chooseGeneration s info indexes defaultOpts ("/" +:+ KeyForStorable o) o st
    = inr (o1, prev) ->
  Save s info indexes (Some o) defaultOpts st = (Ok, Some o1, st1) ->
  st1 !! lastGenKey o = Some (marshalGen s (Gen o1)) ∧
  (∀ name, ListGenName indexes (codec s) o1 name ->
     ∃ before after,
       readValueList s (Get st ("/index/" +:+ name)) = Some before ∧
       readValueList s (Get st1 ("/index/" +:+ name)) = Some after ∧
       ∀ b, b ∈ after ↔ b ∈ before ∨ b = gostrings.to_bytes (marshalGen s (Gen o1))) ∧
  (∀ name, name ≠ "lastgen/" +:+ KeyForStorable o ->
     ¬ ListGenName indexes (codec s) o1 name ->
     st1 !! ("/index/" +:+ name) = st !! ("/index/" +:+ name)) ∧
  (ObjectRoundTrip s info o1 ->
   KeyInvariant s info indexes o st ->
   KeyInvariant s info indexes o st1).
Proof.
  intros Hv Ho Hl Hgen Hcodec Hc H.
  destruct (Save_write_effects _ _ _ _ _ _ _ _ Hv Ho Hl Hcodec Hc H) as (H1 & H2 & H3).
  split; [done|]. split; [done|]. split; [done|].
  intros Hrt Hinv. by eapply Save_keeps_invariant.
Qed.

End etcd_facts.

(** ** The plain codec *)
Module plain_facts.
Import runtime store etcd plain etcd_facts.

Lemma readItems_writeItem x rest l :
  readItems rest = Some l -> readItems (writeItem x +:+ rest) = Some (x :: l).
Proof.
  intros Hr. induction x as [|c x IHx].
  - change (readItems (String "0" rest) = Some ("" :: l)). simpl. by rewrite Hr.
  - change (readItems (String "1" (String c (writeItem x +:+ rest)))
            = Some (String c x :: l)).
    simpl. by rewrite IHx.
Qed.

Lemma readItems_writeItems l : readItems (writeItems l) = Some l.
Proof.
  induction l as [|x l IH]; [done|]. simpl. by apply readItems_writeItem.
Qed.

Lemma Generation_String_nonempty g : Generation_String g ≠ "".
Proof.
  unfold Generation_String.
  assert (Hn : N.to_uint g ≠ Decimal.Nil).
  { destruct g; [done|]. apply DecimalPos.Unsigned.to_uint_nonnil. }
  by destruct (N.to_uint g).
Qed.

Lemma parseGen_String g : parseGen (Generation_String g) = Some g.
Proof.
  unfold parseGen. pose proof (Generation_String_nonempty g) as Hne.
  destruct (Generation_String g) eqn:Hs; [done|]. rewrite <- Hs.
  unfold Generation_String. rewrite NilEmpty.usu. simpl.
  by rewrite DecimalN.Unsigned.of_to.
Qed.

Lemma plain_GenCodecOk : GenCodecOk plainStore.
Proof.
  intros g. split; [apply Generation_String_nonempty | apply parseGen_String].
Qed.

Lemma plain_ListCodecOk : ListCodecOk plainStore.
Proof.
  intros l data [= <-]. unfold readValueList. rewrite decide_False by done.
  change (map String.list_byte_of_string
            <$> readItems (writeItems (map String.string_of_list_byte l)) = Some l).
  rewrite readItems_writeItems. simpl. f_equal.
  induction l as [|x l IH]; [done|]. simpl.
  by rewrite String.list_byte_of_string_of_list_byte, IH.
Qed.

Lemma service_HasLastGen : HasLastGen (IndexesFor serviceInfo).
Proof. eexists. split; reflexivity. Qed.

Lemma afterFirstSave_consistent o :
  KeyForStorable o = "p/service/kafka" ->
  LastGenConsistent plainStore serviceInfo o afterFirstSave.
Proof.
  intros Hk lastGen prevObj _. unfold lastGenKey. rewrite Hk.
  intros H1. vm_compute in H1. injection H1 as <-.
  intros H2. vm_compute in H2. by injection H2 as <-.
Qed.

(** *** Runs of Save *)

(** C1, at a failing input. The key space holds the service at
    generation 1. Saving an object with the same content and generation 0
    is no no-op: the comparison takes the generation in, finds the objects
    different, and Save writes a generation 2 with the content of
    generation 1. *)
Theorem Save_same_content_new_generation :
  readObject (Get afterFirstSave "/object/p/service/kafka@1") (New serviceInfo)
    = Some (kafka 1 "1") ∧
  SetGeneration (kafka 0 "1") 1 = kafka 1 "1" ∧
  let res :=
    Save plainStore serviceInfo (IndexesFor serviceInfo)
      (Some (kafka 0 "1")) defaultOpts afterFirstSave in
  res.1 = (Ok, Some (kafka 2 "1")) ∧
  Get res.2 "/index/lastgen/p/service/kafka" = "2" ∧
  readObject (Get res.2 "/object/p/service/kafka@2") (New serviceInfo)
    = Some (kafka 2 "1") ∧
  Get afterFirstSave "/object/p/service/kafka@2" = "".
Proof. cbv zeta. repeat split; vm_compute; reflexivity. Qed.

(** C3, against the removal. The service is saved with one replica and
    then with three: the second Save gives generation 2, and the list
    entry under the former value still holds generation 1. *)
Lemma Save_keeps_previous_generation_listed :
  let res :=
    Save plainStore serviceInfo (IndexesFor serviceInfo)
      (Some (kafka 0 "3")) defaultOpts afterFirstSave in
  res.1 = (Ok, Some (kafka 2 "3")) ∧
  readValueList plainStore (Get res.2 "/index/listgen/p/service/kafka/Replicas=1")
    = Some [gostrings.to_bytes "1"] ∧
  readValueList plainStore (Get res.2 "/index/listgen/p/service/kafka/Replicas=3")
    = Some [gostrings.to_bytes "2"].
Proof. cbv zeta. repeat split; vm_compute; reflexivity. Qed.

(** C4, at a failing input. The key space holds the service at
    generation 1 with one replica, listed under [Replicas=1]. Saving it
    with three replicas at generation 1 under ReplaceOrForceGen overwrites
    the object and lists generation 1 under [Replicas=3], and generation 1
    stays listed under [Replicas=1]: the object that was there is not taken
    out of the indexes. *)
Theorem Save_replace_leaves_old_index_entry :
  readObject (Get afterFirstSave "/object/p/service/kafka@1") (New serviceInfo)
    = Some (kafka 1 "1") ∧
  let res :=
    Save plainStore serviceInfo (IndexesFor serviceInfo)
      (Some (kafka 1 "3")) WithReplaceOrForceGen afterFirstSave in
  res.1 = (Ok, Some (kafka 1 "3")) ∧
  readObject (Get res.2 "/object/p/service/kafka@1") (New serviceInfo)
    = Some (kafka 1 "3") ∧
  readValueList plainStore (Get res.2 "/index/listgen/p/service/kafka/Replicas=3")
    = Some [gostrings.to_bytes "1"] ∧
  readValueList plainStore (Get res.2 "/index/listgen/p/service/kafka/Replicas=1")
    = Some [gostrings.to_bytes "1"].
Proof. cbv zeta. repeat split; vm_compute; reflexivity. Qed.

(** C6, at a failing input. The list holds "1" and "3"; removing "2",
    which Contains reports absent, takes "3" out. *)
Theorem Remove_absent_value_drops_another :
  Contains [gostrings.to_bytes "1"; gostrings.to_bytes "3"] (gostrings.to_bytes "2")
    = false ∧
  Remove [gostrings.to_bytes "1"; gostrings.to_bytes "3"] (gostrings.to_bytes "2")
    = [gostrings.to_bytes "1"].
Proof. split; by vm_compute. Qed.

(** *** The general statements at concrete inputs *)

(** The first Save of the service: generation 1, written under [@1], the
    indexes set. *)
Example first_save :
  let res :=
    Save plainStore serviceInfo (IndexesFor serviceInfo)
      (Some (kafka 0 "1")) defaultOpts ∅ in
  res.1 = (Ok, Some (kafka 1 "1")) ∧
  readObject (Get res.2 "/object/p/service/kafka@1") (New serviceInfo)
    = Some (kafka 1 "1") ∧
  Get res.2 "/index/lastgen/p/service/kafka" = "1" ∧
  readValueList plainStore (Get res.2 "/index/listgen/p/service/kafka/Replicas=1")
    = Some [gostrings.to_bytes "1"].
Proof. cbv zeta. repeat split; vm_compute; reflexivity. Qed.

(** Saving the object that the first Save returned changes nothing. *)
Example second_save :
  Save plainStore serviceInfo (IndexesFor serviceInfo)
    (Some (kafka 1 "1")) defaultOpts afterFirstSave
  = (Ok, Some (kafka 1 "1"), afterFirstSave).
Proof.
  unfold Save. simpl. unfold NewSTM.
  replace (saveTxn plainStore serviceInfo (IndexesFor serviceInfo) defaultOpts
             ("/" +:+ KeyForStorable (kafka 1 "1")) (kafka 1 "1") afterFirstSave)
    with (Ok, kafka 1 "1", afterFirstSave); [done|].
  unfold saveTxn.
  replace (chooseGeneration plainStore serviceInfo (IndexesFor serviceInfo) defaultOpts
             ("/" +:+ KeyForStorable (kafka 1 "1")) (kafka 1 "1") afterFirstSave)
    with (inl (Ok, kafka 1 "1") : (outcome * Storable) + (Storable * option Storable));
    [done|].
  vm_compute. reflexivity.
Qed.


Lemma Save_twice_witness :
  let st1 := (Save plainStore serviceInfo (IndexesFor serviceInfo)
                (Some (kafka 0 "3")) defaultOpts afterFirstSave).2 in
  Save plainStore serviceInfo (IndexesFor serviceInfo) (Some (kafka 2 "3"))
    defaultOpts st1 = (Ok, Some (kafka 2 "3"), st1) ∧
  ∃ gen, ∀ k,
    k ≠ objectKey ("/" +:+ KeyForStorable (kafka 0 "3")) gen ->
    (∀ n, k ≠ "/index/" +:+ n) ->
    st1 !! k = afterFirstSave !! k.
Proof.
  apply (Save_twice plainStore serviceInfo (IndexesFor serviceInfo)
           (kafka 0 "3") afterFirstSave Ok (kafka 2 "3")).
  - intros _. exact service_HasLastGen.
  - exact plain_GenCodecOk.
  - apply afterFirstSave_consistent. reflexivity.
  - rewrite (surjective_pairing (Save _ _ _ _ _ _)) at 1.
    f_equal; vm_compute; reflexivity.
  - intros data H. vm_compute in H. injection H as <-.
    split; [discriminate | vm_compute; reflexivity].
Defined.

Lemma afterFirstSave_savedFrom :
  savedFrom plainStore serviceInfo (IndexesFor serviceInfo) "p/service/kafka"
    afterFirstSave.
Proof.
  apply (savedFrom_Save _ _ _ _ (kafka 0 "1") (kafka 1 "1") ∅).
  - constructor.
  - reflexivity.
  - reflexivity.
  - rewrite (surjective_pairing (Save _ _ _ _ _ _)) at 1.
    f_equal; vm_compute; reflexivity.
  - intros data H. vm_compute in H. injection H as <-.
    split; [discriminate | vm_compute; reflexivity].
Qed.

Lemma Save_new_generation_indexes_witness :
  let st1 := (Save plainStore serviceInfo (IndexesFor serviceInfo)
                (Some (kafka 0 "3")) defaultOpts afterFirstSave).2 in
  let o1 := kafka 2 "3" in
  st1 !! lastGenKey (kafka 0 "3") = Some (marshalGen plainStore (Gen o1)) ∧
  (∀ name, ListGenName (IndexesFor serviceInfo) (codec plainStore) o1 name ->
     ∃ before after,
       readValueList plainStore (Get afterFirstSave ("/index/" +:+ name)) = Some before ∧
       readValueList plainStore (Get st1 ("/index/" +:+ name)) = Some after ∧
       ∀ b, b ∈ after ↔
            b ∈ before ∨ b = gostrings.to_bytes (marshalGen plainStore (Gen o1))) ∧
  (∀ name, name ≠ "lastgen/" +:+ KeyForStorable (kafka 0 "3") ->
     ¬ ListGenName (IndexesFor serviceInfo) (codec plainStore) o1 name ->
     st1 !! ("/index/" +:+ name) = afterFirstSave !! ("/index/" +:+ name)) ∧
  KeyInvariant plainStore serviceInfo (IndexesFor serviceInfo) (kafka 0 "3") st1.
Proof.
  destruct (Save_new_generation_indexes plainStore serviceInfo (IndexesFor serviceInfo)
              (kafka 0 "3") afterFirstSave (kafka 2 "3") (Some (kafka 1 "1"))
              (Save plainStore serviceInfo (IndexesFor serviceInfo)
                 (Some (kafka 0 "3")) defaultOpts afterFirstSave).2)
    as (H1 & H2 & H3 & H4).
  - reflexivity.
  - reflexivity.
  - exact service_HasLastGen.
  - exact plain_GenCodecOk.
  - exact plain_ListCodecOk.
  - vm_compute. reflexivity.
  - rewrite (surjective_pairing (Save _ _ _ _ _ _)) at 1.
    f_equal; vm_compute; reflexivity.
  - split; [exact H1|]. split; [exact H2|]. split; [exact H3|].
    apply H4.
    + intros data H. vm_compute in H. injection H as <-.
      split; [discriminate | vm_compute; reflexivity].
    + apply (index_consistency_after_saves plainStore serviceInfo
               (IndexesFor serviceInfo) "p/service/kafka").
      * reflexivity.
      * exact service_HasLastGen.
      * exact plain_GenCodecOk.
      * exact plain_ListCodecOk.
      * exact afterFirstSave_savedFrom.
      * reflexivity.
Defined.

End plain_facts.

(** ** Find *)
Module find_facts.
Import runtime store etcd.

(** C9. Find accepts a result whose type is the type of [info.New()] or
    a pointer to a slice of that type, and no other: on any other type it
    returns the error at once, with the result untouched and before a line
    is printed or a finder is called. (No path of Find reads the key
    space: the three finders are stubs.) *)
Theorem Find_result_shape info result findOpts :
  let resultTypeSingle := NewType info in
  let resultTypeList := reflect.PtrTo (reflect.SliceOf resultTypeSingle) in
  ((Find info result findOpts).1.1 = Err ErrResultType ↔
     resultType result ≠ resultTypeSingle ∧ resultType result ≠ resultTypeList) ∧
  ((Find info result findOpts).1.1 = Err ErrResultType ->
     Find info result findOpts = (Err ErrResultType, target result, [])).
Proof.
  intros single lst. unfold Find. fold single. fold lst.
  destruct (decide (resultType result = single)) as [Hs|Hs];
    [|destruct (decide (resultType result = lst)) as [Hl|Hl]].
  3:{ simpl. split; [|done]. split; [done|]. by intros _. }
  all: destruct (target result) as [v|]; simpl.
  all: repeat match goal with
    | |- context [decide ?P] => destruct (decide P)
    end; unfold findByKeyPrefix, findByKey, findByPredicate; simpl.
  all: repeat match goal with
    | |- context [appendToResult ?a ?b] => destruct (appendToResult a b)
    end; simpl.
  all: split; [split; [done|intros [? ?]; done]|done].
Qed.

Lemma Find_result_shape_witness :
  Find plain.serviceInfo
    (mkResult (reflect.TNamed "Service") (Some (One (plain.kafka 0 "1"))))
    (mkFindOpts "" "p/service/kafka" "")
  = (Err ErrResultType, Some (One (plain.kafka 0 "1")), []).
Proof.
  apply (Find_result_shape plain.serviceInfo
           (mkResult (reflect.TNamed "Service") (Some (One (plain.kafka 0 "1"))))
           (mkFindOpts "" "p/service/kafka" "")).
  vm_compute. reflexivity.
Defined.

End find_facts.

(** ** The policy handlers *)
Module api_facts.
Import runtime api.

Section Handlers.
Context (W : World).

Lemma parseNoop_true params :
  strconv.ParseBool (params "noop") = Some true -> parseNoop params = true.
Proof. unfold parseNoop. by intros ->. Qed.

(** *** The policy copy and the calls made on it *)

Lemma foldl_bind_None {A B} (f : A -> B -> option A) (l : list B) :
  foldl (fun r b => a ← r; f a b) None l = None.
Proof. by induction l. Qed.

Lemma addAll_cons user obj rest policy :
  addAll W user (obj :: rest) policy =
    if ManageObject W policy user obj
    then policy' ← AddObject W policy obj; addAll W user rest policy'
    else None.
Proof.
  unfold addAll. simpl. destruct (ManageObject W policy user obj).
  - destruct (AddObject W policy obj); simpl; [done|apply foldl_bind_None].
  - apply foldl_bind_None.
Qed.

Lemma removeAll_cons user obj rest policy :
  removeAll W user (obj :: rest) policy =
    if ManageObject W policy user obj
    then removeAll W user rest (RemoveObject W policy obj)
    else None.
Proof.
  unfold removeAll. simpl. destruct (ManageObject W policy user obj); [done|].
  apply foldl_bind_None.
Qed.

Lemma addObjects_addAll user objects policy :
  (addObjects W user objects policy).2 = addAll W user objects policy.
Proof.
  revert policy. induction objects as [|obj rest IH]; intros policy; [done|].
  rewrite addAll_cons. simpl. destruct (ManageObject W policy user obj); [|done].
  destruct (AddObject W policy obj) as [policy'|]; [|done]. simpl.
  rewrite <- IH. by destruct (addObjects W user rest policy').
Qed.

Lemma removeObjects_removeAll user objects policy :
  (removeObjects W user objects policy).2 = removeAll W user objects policy.
Proof.
  revert policy. induction objects as [|obj rest IH]; intros policy; [done|].
  rewrite removeAll_cons. simpl. destruct (ManageObject W policy user obj); [|done].
  rewrite <- IH. by destruct (removeObjects W user rest _).
Qed.

Lemma addObjects_calls user objects policy policyUpdated :
  addAll W user objects policy = Some policyUpdated ->
  (addObjects W user objects policy).1 = addCalls W objects.
Proof.
  revert policy. induction objects as [|obj rest IH]; intros policy; [done|].
  rewrite addAll_cons. simpl. destruct (ManageObject W policy user obj); [|done].
  destruct (AddObject W policy obj) as [policy'|]; [|done]. simpl.
  intros H. specialize (IH _ H).
  destruct (addObjects W user rest policy'). simpl in *. by rewrite IH.
Qed.

Lemma removeObjects_calls user objects policy policyUpdated :
  removeAll W user objects policy = Some policyUpdated ->
  (removeObjects W user objects policy).1 = removeCalls W objects.
Proof.
  revert policy. induction objects as [|obj rest IH]; intros policy; [done|].
  rewrite removeAll_cons. simpl. destruct (ManageObject W policy user obj); [|done].
  intros H. specialize (IH _ H).
  destruct (removeObjects W user rest _). simpl in *. by rewrite IH.
Qed.

(** The loop stops at the first object that the user may not manage, or
    that cannot be added. *)
Lemma addObjects_stops user objects policy n policy' obj :
  addAll W user (take n objects) policy = Some policy' ->
  objects !! n = Some obj ->
  (ManageObject W policy' user obj = false ->
   addObjects W user objects policy
   = (addCalls W (take n objects) ++ [OpManage W obj false], None)) ∧
  (ManageObject W policy' user obj = true -> AddObject W policy' obj = None ->
   addObjects W user objects policy
   = (addCalls W (take n objects) ++ [OpManage W obj true; OpAdd W obj false], None)).
Proof.
  revert policy n. induction objects as [|o rest IH]; intros policy n Hall Hn.
  - by rewrite lookup_nil in Hn.
  - destruct n as [|n]; simpl in Hn.
    + injection Hn as ->. injection Hall as <-. simpl.
      split; [by intros ->|]. by intros -> ->.
    + rewrite firstn_cons, addAll_cons in Hall. simpl.
      destruct (ManageObject W policy user o); [|done].
      destruct (AddObject W policy o) as [policy1|]; [|done]. simpl in Hall.
      destruct (IH _ _ Hall Hn) as [IH1 IH2].
      split.
      * intros H. by rewrite (IH1 H).
      * intros H1 H2. by rewrite (IH2 H1 H2).
Qed.

Lemma removeObjects_stops user objects policy n policy' obj :
  removeAll W user (take n objects) policy = Some policy' ->
  objects !! n = Some obj ->
  ManageObject W policy' user obj = false ->
  removeObjects W user objects policy
  = (removeCalls W (take n objects) ++ [OpManage W obj false], None).
Proof.
  revert policy n. induction objects as [|o rest IH]; intros policy n Hall Hn Hobj.
  - by rewrite lookup_nil in Hn.
  - destruct n as [|n]; simpl in Hn.
    + injection Hn as ->. injection Hall as <-. simpl. by rewrite Hobj.
    + rewrite firstn_cons, removeAll_cons in Hall. simpl.
      destruct (ManageObject W policy user o); [|done].
      by rewrite (IH _ _ Hall Hn Hobj).
Qed.

(** *** The handlers after the registry has been read *)

Lemma loads_unique reg policyGen desiredState policyCopy policyGen' desiredState'
    policyCopy' :
  loads W reg policyGen desiredState policyCopy ->
  loads W reg policyGen' desiredState' policyCopy' ->
  policyGen' = policyGen ∧ desiredState' = desiredState ∧ policyCopy' = policyCopy.
Proof.
  intros (policy & revision & gen & H1 & H2 & H3 & H4)
         (policy' & revision' & gen' & H1' & H2' & H3' & H4').
  rewrite H1 in H1'. injection H1' as <- <-.
  rewrite H2 in H2'. injection H2' as <-.
  rewrite H3 in H3'. injection H3' as <-.
  rewrite H4 in H4'. by injection H4' as <- <-.
Qed.

Lemma loads_or_not reg :
  (∃ policyGen desiredState policyCopy, loads W reg policyGen desiredState policyCopy) ∨
  (∀ policyGen desiredState policyCopy, ¬ loads W reg policyGen desiredState policyCopy).
Proof.
  destruct (GetPolicy W reg LastOrEmptyGen) as [[policy policyGen]|] eqn:H1.
  2: { right. intros ? ? ? (? & ? & ? & H & _). by rewrite H1 in H. }
  destruct (GetLastRevisionForPolicy W reg policyGen) as [revision|] eqn:H2.
  2: { right. intros ? ? ? (? & ? & ? & H & H' & _).
       rewrite H1 in H. injection H as <- <-. by rewrite H2 in H'. }
  destruct (GetDesiredState W reg revision) as [desiredState|] eqn:H3.
  2: { right. intros ? ? ? (? & ? & ? & H & H' & H'' & _).
       rewrite H1 in H. injection H as <- <-. rewrite H2 in H'. injection H' as <-.
       by rewrite H3 in H''. }
  destruct (GetPolicy W reg policyGen) as [[policyCopy gen]|] eqn:H4.
  2: { right. intros ? ? ? (? & ? & ? & H & _ & _ & H').
       rewrite H1 in H. injection H as <- <-. by rewrite H4 in H'. }
  left. exists policyGen, desiredState, policyCopy. by exists policy, revision, gen.
Qed.

Lemma handlePolicyUpdate_loaded reg objects user params policyGen desiredState policyCopy :
  loads W reg policyGen desiredState policyCopy ->
  handlePolicyUpdate W reg objects user params =
    let sorted := Sort W (Less W) objects in
    let ops := (addObjects W user sorted policyCopy).1 in
    match addAll W user sorted policyCopy with
    | None => panicked W reg ops
    | Some policyUpdated =>
        if Policy_Validate W policyUpdated && forallb (clusterValid W) sorted
        then resolveAndApply W reg sorted user params policyGen desiredState
               policyUpdated ops "api-policy-update" false
        else panicked W reg ops
    end.
Proof.
  intros (policy & revision & gen & H1 & H2 & H3 & H4).
  unfold handlePolicyUpdate. rewrite H1, H2, H3, H4. cbv zeta.
  rewrite <- addObjects_addAll.
  destruct (addObjects W user _ policyCopy) as [ops [policyUpdated|]]; simpl; [|done].
  destruct (Policy_Validate W policyUpdated); simpl; [|done].
  by destruct (forallb _ _).
Qed.

Lemma handlePolicyDelete_loaded reg objects user params policyGen desiredState policyCopy :
  loads W reg policyGen desiredState policyCopy ->
  handlePolicyDelete W reg objects user params =
    let sorted := Sort W (Reverse W (Less W)) objects in
    let ops := (removeObjects W user sorted policyCopy).1 in
    match removeAll W user sorted policyCopy with
    | None => panicked W reg ops
    | Some policyUpdated =>
        if Policy_Validate W policyUpdated
        then resolveAndApply W reg sorted user params policyGen desiredState
               policyUpdated ops "api-policy-delete" true
        else panicked W reg ops
    end.
Proof.
  intros (policy & revision & gen & H1 & H2 & H3 & H4).
  unfold handlePolicyDelete. rewrite H1, H2, H3, H4. cbv zeta.
  rewrite <- removeObjects_removeAll.
  destruct (removeObjects W user _ policyCopy) as [ops [policyUpdated|]]; simpl; [|done].
  by destruct (Policy_Validate W policyUpdated).
Qed.

Lemma handlers_not_loaded reg objects user params :
  (∀ policyGen desiredState policyCopy, ¬ loads W reg policyGen desiredState policyCopy) ->
  handlePolicyUpdate W reg objects user params = panicked W reg [] ∧
  handlePolicyDelete W reg objects user params = panicked W reg [].
Proof.
  intros Hnot. unfold handlePolicyUpdate, handlePolicyDelete.
  destruct (GetPolicy W reg LastOrEmptyGen) as [[policy policyGen]|] eqn:H1; [|done].
  destruct (GetLastRevisionForPolicy W reg policyGen) as [revision|] eqn:H2; [|done].
  destruct (GetDesiredState W reg revision) as [desiredState|] eqn:H3; [|done].
  destruct (GetPolicy W reg policyGen) as [[policyCopy gen]|] eqn:H4; [|done].
  destruct (Hnot policyGen desiredState policyCopy). by exists policy, revision, gen.
Qed.

Lemma resolveAndApply_noop reg objects user params policyGen desiredState
    policyUpdated ops logName delete :
  parseNoop params = true ->
  resolveAndApply W reg objects user params policyGen desiredState policyUpdated
    ops logName delete =
  if Resolution_Validate W
       (ResolveAllClaims W policyUpdated (parseLogLevel W params) logName).1 policyUpdated
  then mkHandled W
         (Some (noopResult W params logName policyGen desiredState policyUpdated))
         reg ops false
  else panicked W reg ops.
Proof.
  intros Hnoop. unfold resolveAndApply, noopResult. rewrite Hnoop.
  destruct (ResolveAllClaims W policyUpdated (parseLogLevel W params) logName)
    as [desiredStateUpdated eventLog]. simpl.
  by destruct (Resolution_Validate W desiredStateUpdated policyUpdated).
Qed.

Lemma handlePolicyUpdate_noop reg objects user params policyGen desiredState policyCopy :
  parseNoop params = true ->
  loads W reg policyGen desiredState policyCopy ->
  let h := handlePolicyUpdate W reg objects user params in
  let added := Sort W (Less W) objects in
  registry W h = reg ∧ enforcementSignal W h = false ∧
  ∀ r, response W h = Some r ↔
    ∃ policyUpdated,
      addAll W user added policyCopy = Some policyUpdated ∧
      Policy_Validate W policyUpdated = true ∧
      forallb (clusterValid W) added = true ∧
      resolves W params "api-policy-update" policyUpdated ∧
      r = noopResult W params "api-policy-update" policyGen desiredState policyUpdated.
Proof.
  intros Hnoop Hloads. cbv zeta. rewrite (handlePolicyUpdate_loaded _ _ _ _ _ _ _ Hloads).
  cbv zeta. unfold resolves.
  destruct (addAll W user _ policyCopy) as [policyUpdated|] eqn:Hall; simpl.
  2: { split; [done|]. split; [done|]. intros r. split; [done|]. by intros (? & [=] & _). }
  destruct (Policy_Validate W policyUpdated) eqn:Hvalid; simpl.
  2: { split; [done|]. split; [done|]. intros r. split; [done|].
       intros (? & [= <-] & Hv & _). by rewrite Hvalid in Hv. }
  destruct (forallb _ _) eqn:Hclusters; simpl.
  2: { split; [done|]. split; [done|]. intros r. split; [done|]. by intros (? & _ & _ & [=] & _). }
  rewrite (resolveAndApply_noop _ _ _ _ _ _ _ _ _ _ Hnoop).
  destruct (Resolution_Validate W _ policyUpdated) eqn:Hres; simpl.
  2: { split; [done|]. split; [done|]. intros r. split; [done|].
       intros (? & [= <-] & _ & _ & Hr & _). by rewrite Hres in Hr. }
  split; [done|]. split; [done|]. intros r. split.
  - intros [= <-]. by exists policyUpdated.
  - by intros (? & [= <-] & _ & _ & _ & ->).
Qed.

Lemma handlePolicyDelete_noop reg objects user params policyGen desiredState policyCopy :
  parseNoop params = true ->
  loads W reg policyGen desiredState policyCopy ->
  let h := handlePolicyDelete W reg objects user params in
  let removed := Sort W (Reverse W (Less W)) objects in
  registry W h = reg ∧ enforcementSignal W h = false ∧
  ∀ r, response W h = Some r ↔
    ∃ policyUpdated,
      removeAll W user removed policyCopy = Some policyUpdated ∧
      Policy_Validate W policyUpdated = true ∧
      resolves W params "api-policy-delete" policyUpdated ∧
      r = noopResult W params "api-policy-delete" policyGen desiredState policyUpdated.
Proof.
  intros Hnoop Hloads. cbv zeta. rewrite (handlePolicyDelete_loaded _ _ _ _ _ _ _ Hloads).
  cbv zeta. unfold resolves.
  destruct (removeAll W user _ policyCopy) as [policyUpdated|] eqn:Hall; simpl.
  2: { split; [done|]. split; [done|]. intros r. split; [done|]. by intros (? & [=] & _). }
  destruct (Policy_Validate W policyUpdated) eqn:Hvalid; simpl.
  2: { split; [done|]. split; [done|]. intros r. split; [done|].
       intros (? & [= <-] & Hv & _). by rewrite Hvalid in Hv. }
  rewrite (resolveAndApply_noop _ _ _ _ _ _ _ _ _ _ Hnoop).
  destruct (Resolution_Validate W _ policyUpdated) eqn:Hres; simpl.
  2: { split; [done|]. split; [done|]. intros r. split; [done|].
       intros (? & [= <-] & _ & Hr & _). by rewrite Hres in Hr. }
  split; [done|]. split; [done|]. intros r. split.
  - intros [= <-]. by exists policyUpdated.
  - by intros (? & [= <-] & _ & _ & ->).
Qed.

(** C8. With the noop flag set, the update handler and the delete
    handler leave the registry as it was (no policy generation and no
    revision is persisted) and do not signal the enforcement channel. They
    answer exactly when the registry could be read, every object of the
    request was checked and added to (removed from) the policy copy, the copy
    is valid, for an update every cluster among the objects is validated by
    its plugin, and the resolution of the copy is valid; the answer then has
    PolicyChanged false, the generation of the latest policy, WaitForRevision
    MaxGeneration, as plan the diff between the resolution of that copy and
    the desired state of the last revision, and the event log of that
    resolution. *)
Theorem noop_persists_nothing reg objects user params :
  strconv.ParseBool (params "noop") = Some true ->
  let hu := handlePolicyUpdate W reg objects user params in
  let hd := handlePolicyDelete W reg objects user params in
  let added := Sort W (Less W) objects in
  let removed := Sort W (Reverse W (Less W)) objects in
  (registry W hu = reg ∧ enforcementSignal W hu = false ∧
   registry W hd = reg ∧ enforcementSignal W hd = false) ∧
  (∀ policyGen desiredState policyCopy,
     loads W reg policyGen desiredState policyCopy ->
     (∀ r, response W hu = Some r ↔
        ∃ policyUpdated,
          addAll W user added policyCopy = Some policyUpdated ∧
          Policy_Validate W policyUpdated = true ∧
          forallb (clusterValid W) added = true ∧
          resolves W params "api-policy-update" policyUpdated ∧
          r = noopResult W params "api-policy-update" policyGen desiredState
                policyUpdated) ∧
     (∀ r, response W hd = Some r ↔
        ∃ policyUpdated,
          removeAll W user removed policyCopy = Some policyUpdated ∧
          Policy_Validate W policyUpdated = true ∧
          resolves W params "api-policy-delete" policyUpdated ∧
          r = noopResult W params "api-policy-delete" policyGen desiredState
                policyUpdated)) ∧
  ((∀ policyGen desiredState policyCopy,
      ¬ loads W reg policyGen desiredState policyCopy) ->
   response W hu = None ∧ response W hd = None).
Proof.
  intros Hnoop. apply parseNoop_true in Hnoop. cbv zeta.
  split; [|split].
  - destruct (loads_or_not reg) as [(policyGen & desiredState & policyCopy & Hloads)|Hnot].
    + destruct (handlePolicyUpdate_noop reg objects user params _ _ _ Hnoop Hloads)
        as (Hr & Hs & _).
      destruct (handlePolicyDelete_noop reg objects user params _ _ _ Hnoop Hloads)
        as (Hr' & Hs' & _).
      done.
    + destruct (handlers_not_loaded reg objects user params Hnot) as [-> ->]. done.
  - intros policyGen desiredState policyCopy Hloads. split.
    + by destruct (handlePolicyUpdate_noop reg objects user params _ _ _ Hnoop Hloads)
        as (_ & _ & H).
    + by destruct (handlePolicyDelete_noop reg objects user params _ _ _ Hnoop Hloads)
        as (_ & _ & H).
  - intros Hnot. by destruct (handlers_not_loaded reg objects user params Hnot) as [-> ->].
Qed.

(** *** The order in which the objects are taken *)

Lemma checkedFirst_step obj (ops : list (PolicyOp W)) op :
  (op = OpAdd W obj true ∨ op = OpRemove W obj) ->
  checkedFirst W ops ->
  checkedFirst W (OpManage W obj true :: op :: ops).
Proof.
  intros Hop IH i obj' Hi.
  destruct i as [|[|i]]; simpl in Hi.
  - destruct Hi as [[ok [=]]|[=]].
  - exists 0%nat. split; [done|]. simpl.
    destruct Hop as [-> | ->], Hi as [[ok [=]]|[=]]; by subst.
  - destruct (IH i obj' Hi) as (j & -> & Hj). by exists (S (S j)).
Qed.

Lemma checkedFirst_fail (ops : list (PolicyOp W)) :
  (∀ op, op ∈ ops -> ∃ obj, op = OpManage W obj false) ->
  checkedFirst W ops.
Proof.
  intros Hall i obj Hi.
  assert (∃ op, ops !! i = Some op ∧ (∀ o, op ≠ OpManage W o false)) as (op & Hop & Hne).
  { destruct Hi as [[ok Hi]|Hi]; eexists; (split; [exact Hi|done]). }
  destruct (Hall op) as [o ->]; [by eapply list_elem_of_lookup_2|].
  by destruct (Hne o).
Qed.

Lemma addedObjects_step obj ok ops :
  addedObjects W (OpManage W obj true :: OpAdd W obj ok :: ops)
  = obj :: addedObjects W ops.
Proof. done. Qed.

Lemma removedObjects_step obj ops :
  removedObjects W (OpManage W obj true :: OpRemove W obj :: ops)
  = obj :: removedObjects W ops.
Proof. done. Qed.

Lemma addObjects_ops user objects policy ops r :
  addObjects W user objects policy = (ops, r) ->
  checkedFirst W ops ∧
  (∃ n, addedObjects W ops = take n objects) ∧
  (is_Some r -> addedObjects W ops = objects).
Proof.
  revert policy ops r.
  induction objects as [|obj rest IH]; intros policy ops r H; simpl in H.
  - injection H as <- <-. split; [|split; [by exists 0%nat|done]].
    intros i obj [[ok Hi]|Hi]; by rewrite lookup_nil in Hi.
  - destruct (ManageObject W policy user obj).
    + destruct (AddObject W policy obj) as [policy'|].
      * destruct (addObjects W user rest policy') as [ops' r'] eqn:Hrest.
        injection H as <- <-.
        destruct (IH _ _ _ Hrest) as (Hc & [n Hn] & Hall).
        split; [apply checkedFirst_step; [by left|done]|].
        split.
        -- exists (S n). by rewrite addedObjects_step, Hn.
        -- intros Hr. by rewrite addedObjects_step, (Hall Hr).
      * injection H as <- <-. split; [|split].
        -- intros i obj' Hi. destruct i as [|[|i]]; simpl in Hi.
           ++ destruct Hi as [[ok [=]]|[=]].
           ++ exists 0%nat. split; [done|].
              destruct Hi as [[ok [=]]|[=]]; by subst.
           ++ destruct Hi as [[ok Hi]|Hi]; by rewrite lookup_nil in Hi.
        -- by exists 1%nat.
        -- by intros [? [=]].
    + injection H as <- <-. split; [|split].
      * apply checkedFirst_fail. intros op Hop.
        apply list_elem_of_singleton in Hop as ->. by exists obj.
      * by exists 0%nat.
      * by intros [? [=]].
Qed.

Lemma removeObjects_ops user objects policy ops r :
  removeObjects W user objects policy = (ops, r) ->
  checkedFirst W ops ∧
  (∃ n, removedObjects W ops = take n objects) ∧
  (is_Some r -> removedObjects W ops = objects).
Proof.
  revert policy ops r.
  induction objects as [|obj rest IH]; intros policy ops r H; simpl in H.
  - injection H as <- <-. split; [|split; [by exists 0%nat|done]].
    intros i obj [[ok Hi]|Hi]; by rewrite lookup_nil in Hi.
  - destruct (ManageObject W policy user obj).
    + destruct (removeObjects W user rest (RemoveObject W policy obj))
        as [ops' r'] eqn:Hrest.
      injection H as <- <-.
      destruct (IH _ _ _ Hrest) as (Hc & [n Hn] & Hall).
      split; [apply checkedFirst_step; [by right|done]|].
      split.
      * exists (S n). by rewrite removedObjects_step, Hn.
      * intros Hr. by rewrite removedObjects_step, (Hall Hr).
    + injection H as <- <-. split; [|split].
      * apply checkedFirst_fail. intros op Hop.
        apply list_elem_of_singleton in Hop as ->. by exists obj.
      * by exists 0%nat.
      * by intros [? [=]].
Qed.

Lemma StronglySorted_lookup {A} (R : A -> A -> Prop) l i j a b :
  StronglySorted R l -> (i < j)%nat -> l !! i = Some a -> l !! j = Some b -> R a b.
Proof.
  intros Hs. revert i j. induction Hs as [|x l Hs IH Hall]; intros i j Hij Hi Hj.
  - by rewrite lookup_nil in Hi.
  - destruct j as [|j]; [lia|]. simpl in Hj. destruct i as [|i]; simpl in Hi.
    + injection Hi as ->. rewrite Forall_forall in Hall. apply Hall.
      by eapply list_elem_of_lookup_2.
    + apply (IH i j); [lia|done..].
Qed.

Lemma Weight_ACL obj : Weight W obj = 0%nat ↔ isACLRule W obj.
Proof. unfold Weight, isACLRule. by case_decide. Qed.

Lemma Weight_le_1 obj : (Weight W obj <= 1)%nat.
Proof. unfold Weight. case_decide; lia. Qed.

Lemma sorted_aclRulesFirst objects :
  SortSpec W -> aclRulesFirst W (Sort W (Less W) objects).
Proof.
  intros Hsort.
  destruct (Hsort (Less W) (Weight W) objects) as [_ Hs]; [done|].
  intros i j a b Hij Hi Hj Hb.
  pose proof (StronglySorted_lookup _ _ _ _ _ _ Hs Hij Hi Hj) as Hw. simpl in Hw.
  apply Weight_ACL. apply Weight_ACL in Hb. lia.
Qed.

Lemma sorted_aclRulesLast objects :
  SortSpec W -> aclRulesLast W (Sort W (Reverse W (Less W)) objects).
Proof.
  intros Hsort.
  destruct (Hsort (Reverse W (Less W)) (fun obj => (1 - Weight W obj)%nat) objects)
    as [_ Hs].
  { intros a b. unfold Reverse, Less.
    pose proof (Weight_le_1 a). pose proof (Weight_le_1 b).
    destruct (Weight W b <? Weight W a)%nat eqn:Hlt; symmetry.
    - apply Nat.ltb_lt. apply Nat.ltb_lt in Hlt. lia.
    - apply Nat.ltb_ge. apply Nat.ltb_ge in Hlt. lia. }
  intros i j a b Hij Hi Hj Ha.
  pose proof (StronglySorted_lookup _ _ _ _ _ _ Hs Hij Hi Hj) as Hw. simpl in Hw.
  pose proof (Weight_le_1 b).
  apply Weight_ACL. apply Weight_ACL in Ha. lia.
Qed.

Lemma aclRulesFirst_take l n : aclRulesFirst W l -> aclRulesFirst W (take n l).
Proof.
  intros H i j a b Hij Hi Hj. apply lookup_take_Some in Hi as [Hi _].
  apply lookup_take_Some in Hj as [Hj _]. by eapply H.
Qed.

Lemma aclRulesLast_take l n : aclRulesLast W l -> aclRulesLast W (take n l).
Proof.
  intros H i j a b Hij Hi Hj. apply lookup_take_Some in Hi as [Hi _].
  apply lookup_take_Some in Hj as [Hj _]. by eapply H.
Qed.

Lemma resolveAndApply_ops reg objects user params policyGen desiredState
    policyUpdated ops logName delete :
  policyOps W
    (resolveAndApply W reg objects user params policyGen desiredState policyUpdated
       ops logName delete) = ops.
Proof.
  unfold resolveAndApply.
  destruct (ResolveAllClaims W _ _ _) as [d e].
  destruct (Resolution_Validate W _ _); simpl; [|done].
  destruct (parseNoop params); [done|].
  destruct (changePolicy W reg objects user d delete) as [reg' [[[? ?] ?]|]]; done.
Qed.

Lemma handlers_calls_checked reg objects user params :
  SortSpec W ->
  let hu := handlePolicyUpdate W reg objects user params in
  let hd := handlePolicyDelete W reg objects user params in
  (checkedFirst W (policyOps W hu) ∧
   aclRulesFirst W (addedObjects W (policyOps W hu)) ∧
   (∃ n, addedObjects W (policyOps W hu) = take n (Sort W (Less W) objects)) ∧
   (is_Some (response W hu) -> addedObjects W (policyOps W hu) ≡ₚ objects)) ∧
  (checkedFirst W (policyOps W hd) ∧
   aclRulesLast W (removedObjects W (policyOps W hd)) ∧
   (∃ n, removedObjects W (policyOps W hd)
         = take n (Sort W (Reverse W (Less W)) objects)) ∧
   (is_Some (response W hd) -> removedObjects W (policyOps W hd) ≡ₚ objects)).
Proof.
  intros Hsort hu hd.
  assert (Hnil : checkedFirst W [] ∧
                 (∀ l, ∃ n, @nil (Base W) = take n l)).
  { split; [|by exists 0%nat].
    intros i obj [[ok Hi]|Hi]; by rewrite lookup_nil in Hi. }
  destruct Hnil as [Hnil Hnil'].
  split.
  - subst hu hd. unfold handlePolicyUpdate.
    destruct (GetPolicy W reg LastOrEmptyGen) as [[policy policyGen]|];
      [|by repeat split; try done; intros [? [=]]].
    destruct (GetLastRevisionForPolicy W reg policyGen) as [revision|];
      [|by repeat split; try done; intros [? [=]]].
    destruct (GetDesiredState W reg revision) as [desiredState|];
      [|by repeat split; try done; intros [? [=]]].
    destruct (GetPolicy W reg policyGen) as [[policyUpdated ?]|];
      [|by repeat split; try done; intros [? [=]]].
    destruct (addObjects W user _ policyUpdated) as [ops r] eqn:Hadd.
    destruct (addObjects_ops _ _ _ _ _ Hadd) as (Hc & [n Hn] & Hall).
    assert (Hfirst : aclRulesFirst W (addedObjects W ops)).
    { rewrite Hn. apply aclRulesFirst_take. by apply sorted_aclRulesFirst. }
    assert (Hperm : is_Some r -> addedObjects W ops ≡ₚ objects).
    { intros Hr. rewrite (Hall Hr).
      by destruct (Hsort (Less W) (Weight W) objects). }
    destruct r as [policyUpdated'|];
      [|by repeat split; eauto; intros [? [=]]].
    destruct (Policy_Validate W policyUpdated');
      [|by repeat split; eauto; intros [? [=]]].
    destruct (forallb _ _); [|by repeat split; eauto; intros [? [=]]].
    simpl. rewrite resolveAndApply_ops. repeat split; eauto.
  - subst hu hd. unfold handlePolicyDelete.
    destruct (GetPolicy W reg LastOrEmptyGen) as [[policy policyGen]|];
      [|by repeat split; try done; intros [? [=]]].
    destruct (GetLastRevisionForPolicy W reg policyGen) as [revision|];
      [|by repeat split; try done; intros [? [=]]].
    destruct (GetDesiredState W reg revision) as [desiredState|];
      [|by repeat split; try done; intros [? [=]]].
    destruct (GetPolicy W reg policyGen) as [[policyUpdated ?]|];
      [|by repeat split; try done; intros [? [=]]].
    destruct (removeObjects W user _ policyUpdated) as [ops r] eqn:Hrem.
    destruct (removeObjects_ops _ _ _ _ _ Hrem) as (Hc & [n Hn] & Hall).
    assert (Hlast : aclRulesLast W (removedObjects W ops)).
    { rewrite Hn. apply aclRulesLast_take. by apply sorted_aclRulesLast. }
    assert (Hperm : is_Some r -> removedObjects W ops ≡ₚ objects).
    { intros Hr. rewrite (Hall Hr).
      destruct (Hsort (Reverse W (Less W)) (fun obj => (1 - Weight W obj)%nat) objects)
        as [Hp _]; [|done].
      intros a b. unfold Reverse, Less.
      pose proof (Weight_le_1 a). pose proof (Weight_le_1 b).
      destruct (Weight W b <? Weight W a)%nat eqn:Hlt; symmetry.
      - apply Nat.ltb_lt. apply Nat.ltb_lt in Hlt. lia.
      - apply Nat.ltb_ge. apply Nat.ltb_ge in Hlt. lia. }
    destruct r as [policyUpdated'|];
      [|by repeat split; eauto; intros [? [=]]].
    destruct (Policy_Validate W policyUpdated');
      [|by repeat split; eauto; intros [? [=]]].
    simpl. rewrite resolveAndApply_ops. repeat split; eauto.
Qed.

Lemma addedObjects_addCalls objects : addedObjects W (addCalls W objects) = objects.
Proof.
  induction objects as [|obj rest IH]; [done|].
  unfold addCalls. rewrite bind_cons. simpl. f_equal. exact IH.
Qed.

Lemma removedObjects_removeCalls objects :
  removedObjects W (removeCalls W objects) = objects.
Proof.
  induction objects as [|obj rest IH]; [done|].
  unfold removeCalls. rewrite bind_cons. simpl. f_equal. exact IH.
Qed.

Lemma Sort_Less_perm objects : SortSpec W -> Sort W (Less W) objects ≡ₚ objects.
Proof. intros Hsort. by destruct (Hsort (Less W) (Weight W) objects) as [Hp _]. Qed.

Lemma Sort_Reverse_perm objects :
  SortSpec W -> Sort W (Reverse W (Less W)) objects ≡ₚ objects.
Proof.
  intros Hsort.
  destruct (Hsort (Reverse W (Less W)) (fun obj => (1 - Weight W obj)%nat) objects)
    as [Hp _]; [|done].
  intros a b. unfold Reverse, Less.
  pose proof (Weight_le_1 a). pose proof (Weight_le_1 b).
  destruct (Weight W b <? Weight W a)%nat eqn:Hlt; symmetry.
  - apply Nat.ltb_lt. apply Nat.ltb_lt in Hlt. lia.
  - apply Nat.ltb_ge. apply Nat.ltb_ge in Hlt. lia.
Qed.

Lemma handlePolicyUpdate_calls reg objects user params policyGen desiredState policyCopy :
  loads W reg policyGen desiredState policyCopy ->
  let h := handlePolicyUpdate W reg objects user params in
  let added := Sort W (Less W) objects in
  policyOps W h = (addObjects W user added policyCopy).1 ∧
  (addAll W user added policyCopy = None -> response W h = None ∧ registry W h = reg).
Proof.
  intros Hloads. cbv zeta. rewrite (handlePolicyUpdate_loaded _ _ _ _ _ _ _ Hloads).
  cbv zeta. destruct (addAll W user _ policyCopy) as [policyUpdated|]; [|done].
  split; [|done]. destruct (_ && _); [|done]. apply resolveAndApply_ops.
Qed.

Lemma handlePolicyDelete_calls reg objects user params policyGen desiredState policyCopy :
  loads W reg policyGen desiredState policyCopy ->
  let h := handlePolicyDelete W reg objects user params in
  let removed := Sort W (Reverse W (Less W)) objects in
  policyOps W h = (removeObjects W user removed policyCopy).1 ∧
  (removeAll W user removed policyCopy = None -> response W h = None ∧ registry W h = reg).
Proof.
  intros Hloads. cbv zeta. rewrite (handlePolicyDelete_loaded _ _ _ _ _ _ _ Hloads).
  cbv zeta. destruct (removeAll W user _ policyCopy) as [policyUpdated|]; [|done].
  split; [|done]. destruct (Policy_Validate W policyUpdated); [|done].
  apply resolveAndApply_ops.
Qed.

(** C10. The update handler takes the objects in the order sort.Sort
    gives with the ACL weights, every ACL rule before every other object; the
    delete handler takes them in the reverse order, every ACL rule after
    every other object. Once the registry has been read, each object in that
    order is first checked with ManageObject on the policy copy and then
    handed to AddObject (RemoveObject): while the checks and the additions
    succeed the calls are exactly these, for every object of the request, and
    at the first object that the user may not manage, or that cannot be
    added, the handler stops with a panic, that object and the ones after it
    not added (removed). Each call of AddObject or RemoveObject comes right
    after a ManageObject check of the same object that passed. *)
Theorem policy_objects_order reg objects user params :
  SortSpec W ->
  let hu := handlePolicyUpdate W reg objects user params in
  let hd := handlePolicyDelete W reg objects user params in
  let added := Sort W (Less W) objects in
  let removed := Sort W (Reverse W (Less W)) objects in
  (added ≡ₚ objects ∧ aclRulesFirst W added ∧
   removed ≡ₚ objects ∧ aclRulesLast W removed) ∧
  (checkedFirst W (policyOps W hu) ∧
   aclRulesFirst W (addedObjects W (policyOps W hu)) ∧
   (∃ n, addedObjects W (policyOps W hu) = take n added) ∧
   (is_Some (response W hu) -> addedObjects W (policyOps W hu) ≡ₚ objects)) ∧
  (checkedFirst W (policyOps W hd) ∧
   aclRulesLast W (removedObjects W (policyOps W hd)) ∧
   (∃ n, removedObjects W (policyOps W hd) = take n removed) ∧
   (is_Some (response W hd) -> removedObjects W (policyOps W hd) ≡ₚ objects)) ∧
  ∀ policyGen desiredState policyCopy,
    loads W reg policyGen desiredState policyCopy ->
    (is_Some (addAll W user added policyCopy) ->
     policyOps W hu = addCalls W added ∧ addedObjects W (policyOps W hu) = added) ∧
    (is_Some (removeAll W user removed policyCopy) ->
     policyOps W hd = removeCalls W removed ∧
     removedObjects W (policyOps W hd) = removed) ∧
    (∀ n policy obj,
       addAll W user (take n added) policyCopy = Some policy ->
       added !! n = Some obj ->
       (ManageObject W policy user obj = false ->
        policyOps W hu = addCalls W (take n added) ++ [OpManage W obj false] ∧
        addedObjects W (policyOps W hu) = take n added ∧
        response W hu = None ∧ registry W hu = reg) ∧
       (ManageObject W policy user obj = true -> AddObject W policy obj = None ->
        policyOps W hu
        = addCalls W (take n added) ++ [OpManage W obj true; OpAdd W obj false] ∧
        response W hu = None ∧ registry W hu = reg)) ∧
    (∀ n policy obj,
       removeAll W user (take n removed) policyCopy = Some policy ->
       removed !! n = Some obj ->
       ManageObject W policy user obj = false ->
       policyOps W hd = removeCalls W (take n removed) ++ [OpManage W obj false] ∧
       removedObjects W (policyOps W hd) = take n removed ∧
       response W hd = None ∧ registry W hd = reg).
Proof.
  intros Hsort. cbv zeta.
  destruct (handlers_calls_checked reg objects user params Hsort) as [Hu Hd].
  split; [|split; [done|split; [done|]]].
  { split; [by apply Sort_Less_perm|]. split; [by apply sorted_aclRulesFirst|].
    split; [by apply Sort_Reverse_perm|]. by apply sorted_aclRulesLast. }
  intros policyGen desiredState policyCopy Hloads.
  destruct (handlePolicyUpdate_calls reg objects user params _ _ _ Hloads) as [Hops Hnone].
  destruct (handlePolicyDelete_calls reg objects user params _ _ _ Hloads)
    as [Hops' Hnone'].
  rewrite Hops, Hops'.
  split; [|split; [|split]].
  - intros [policyUpdated Hall]. rewrite (addObjects_calls _ _ _ _ Hall).
    split; [done|]. apply addedObjects_addCalls.
  - intros [policyUpdated Hall]. rewrite (removeObjects_calls _ _ _ _ Hall).
    split; [done|]. apply removedObjects_removeCalls.
  - intros n policy obj Hall Hn.
    destruct (addObjects_stops user _ _ _ _ _ Hall Hn) as [H1 H2]. split.
    + intros Hm. specialize (H1 Hm).
      assert (Hnone1 : addAll W user (Sort W (Less W) objects) policyCopy = None).
      { by rewrite <- addObjects_addAll, H1. }
      rewrite H1. simpl. split; [done|]. split; [|by apply Hnone].
      unfold addedObjects. rewrite omap_app. simpl. rewrite app_nil_r.
      apply addedObjects_addCalls.
    + intros Hm Ha. specialize (H2 Hm Ha).
      assert (Hnone1 : addAll W user (Sort W (Less W) objects) policyCopy = None).
      { by rewrite <- addObjects_addAll, H2. }
      rewrite H2. simpl. split; [done|]. by apply Hnone.
  - intros n policy obj Hall Hn Hm.
    pose proof (removeObjects_stops user _ _ _ _ _ Hall Hn Hm) as H1.
    assert (Hnone1 : removeAll W user (Sort W (Reverse W (Less W)) objects) policyCopy
                     = None).
    { by rewrite <- removeObjects_removeAll, H1. }
    rewrite H1. simpl. split; [done|]. split; [|by apply Hnone'].
    unfold removedObjects. rewrite omap_app. simpl. rewrite app_nil_r.
    apply removedObjects_removeCalls.
Qed.

End Handlers.

End api_facts.

(** ** The small world *)
Module toy_facts.
Import runtime api toy api_facts.

Lemma insert_perm {A} (less : A -> A -> bool) x l : insert less x l ≡ₚ x :: l.
Proof.
  induction l as [|y l IH]; simpl; [done|].
  destruct (less x y); [done|]. rewrite IH. apply Permutation_swap.
Qed.

Lemma isort_perm {A} (less : A -> A -> bool) l : isort less l ≡ₚ l.
Proof.
  induction l as [|x l IH]; simpl; [done|].
  rewrite insert_perm. by rewrite IH.
Qed.

Lemma insert_sorted {A} (less : A -> A -> bool) (weight : A -> nat) x l :
  (∀ a b, less a b = (weight a <? weight b)%nat) ->
  StronglySorted (fun a b => (weight a <= weight b)%nat) l ->
  StronglySorted (fun a b => (weight a <= weight b)%nat) (insert less x l).
Proof.
  intros Hless Hs. induction Hs as [|y l Hs IH Hall]; simpl.
  - repeat constructor.
  - rewrite Hless. destruct (weight x <? weight y)%nat eqn:Hlt.
    + apply Nat.ltb_lt in Hlt. constructor; [by constructor|].
      constructor; [lia|]. eapply Forall_impl; [exact Hall|].
      simpl. intros z Hz. lia.
    + apply Nat.ltb_ge in Hlt. constructor; [done|].
      rewrite insert_perm. by constructor.
Qed.

Lemma toy_SortSpec : SortSpec toyWorld.
Proof.
  intros less weight l Hless. split; [apply isort_perm|].
  simpl. induction l as [|x l IH]; simpl; [constructor|].
  by apply insert_sorted.
Qed.

Lemma noop_persists_nothing_witness :
  let W := toyWorld in
  let reg := (3, 7) in
  let hu := handlePolicyUpdate W reg request "Sam" noopParams in
  let hd := handlePolicyDelete W reg request "Sam" noopParams in
  let added := Sort W (Less W) request in
  let removed := Sort W (Reverse W (Less W)) request in
  (registry W hu = reg ∧ enforcementSignal W hu = false ∧
   registry W hd = reg ∧ enforcementSignal W hd = false) ∧
  (∀ policyGen desiredState policyCopy,
     loads W reg policyGen desiredState policyCopy ->
     (∀ r, response W hu = Some r ↔
        ∃ policyUpdated,
          addAll W "Sam" added policyCopy = Some policyUpdated ∧
          Policy_Validate W policyUpdated = true ∧
          forallb (clusterValid W) added = true ∧
          resolves W noopParams "api-policy-update" policyUpdated ∧
          r = noopResult W noopParams "api-policy-update" policyGen desiredState
                policyUpdated) ∧
     (∀ r, response W hd = Some r ↔
        ∃ policyUpdated,
          removeAll W "Sam" removed policyCopy = Some policyUpdated ∧
          Policy_Validate W policyUpdated = true ∧
          resolves W noopParams "api-policy-delete" policyUpdated ∧
          r = noopResult W noopParams "api-policy-delete" policyGen desiredState
                policyUpdated)) ∧
  ((∀ policyGen desiredState policyCopy,
      ¬ loads W reg policyGen desiredState policyCopy) ->
   response W hu = None ∧ response W hd = None).
Proof.
  apply (noop_persists_nothing toyWorld (3, 7) request "Sam" noopParams).
  vm_compute. reflexivity.
Defined.

Lemma policy_objects_order_witness :
  let W := toyWorld in
  let reg := (3, 7) in
  let user := "Sam" in
  let hu := handlePolicyUpdate W reg request user noopParams in
  let hd := handlePolicyDelete W reg request user noopParams in
  let added := Sort W (Less W) request in
  let removed := Sort W (Reverse W (Less W)) request in
  (added ≡ₚ request ∧ aclRulesFirst W added ∧
   removed ≡ₚ request ∧ aclRulesLast W removed) ∧
  (checkedFirst W (policyOps W hu) ∧
   aclRulesFirst W (addedObjects W (policyOps W hu)) ∧
   (∃ n, addedObjects W (policyOps W hu) = take n added) ∧
   (is_Some (response W hu) -> addedObjects W (policyOps W hu) ≡ₚ request)) ∧
  (checkedFirst W (policyOps W hd) ∧
   aclRulesLast W (removedObjects W (policyOps W hd)) ∧
   (∃ n, removedObjects W (policyOps W hd) = take n removed) ∧
   (is_Some (response W hd) -> removedObjects W (policyOps W hd) ≡ₚ request)) ∧
  ∀ policyGen desiredState policyCopy,
    loads W reg policyGen desiredState policyCopy ->
    (is_Some (addAll W user added policyCopy) ->
     policyOps W hu = addCalls W added ∧ addedObjects W (policyOps W hu) = added) ∧
    (is_Some (removeAll W user removed policyCopy) ->
     policyOps W hd = removeCalls W removed ∧
     removedObjects W (policyOps W hd) = removed) ∧
    (∀ n policy obj,
       addAll W user (take n added) policyCopy = Some policy ->
       added !! n = Some obj ->
       (ManageObject W policy user obj = false ->
        policyOps W hu = addCalls W (take n added) ++ [OpManage W obj false] ∧
        addedObjects W (policyOps W hu) = take n added ∧
        response W hu = None ∧ registry W hu = reg) ∧
       (ManageObject W policy user obj = true -> AddObject W policy obj = None ->
        policyOps W hu
        = addCalls W (take n added) ++ [OpManage W obj true; OpAdd W obj false] ∧
        response W hu = None ∧ registry W hu = reg)) ∧
    (∀ n policy obj,
       removeAll W user (take n removed) policyCopy = Some policy ->
       removed !! n = Some obj ->
       ManageObject W policy user obj = false ->
       policyOps W hd = removeCalls W (take n removed) ++ [OpManage W obj false] ∧
       removedObjects W (policyOps W hd) = take n removed ∧
       response W hd = None ∧ registry W hd = reg).
Proof.
  apply (policy_objects_order toyWorld (3, 7) request "Sam" noopParams).
  exact toy_SortSpec.
Defined.

(** The small world reads its registry: the latest policy has generation
    3, the desired state and the policy copy are empty. *)
Example toy_loads : loads toyWorld (3, 7) 3 [] [].
Proof. by exists [], 7, 3. Qed.

(** The handlers on the request of the small world: the update takes the
    ACL rule first, the delete takes it last. *)
Example update_order :
  addedObjects toyWorld
    (policyOps toyWorld (handlePolicyUpdate toyWorld (3, 7) request "Sam" noopParams))
  = [("aclrule", "admins"); ("cluster", "c1"); ("service", "kafka")].
Proof. vm_compute. reflexivity. Qed.

Example delete_order :
  removedObjects toyWorld
    (policyOps toyWorld (handlePolicyDelete toyWorld (3, 7) request "Sam" noopParams))
  = [("cluster", "c1"); ("service", "kafka"); ("aclrule", "admins")].
Proof. vm_compute. reflexivity. Qed.

Example noop_answer :
  response toyWorld (handlePolicyUpdate toyWorld (3, 7) request "Sam" noopParams)
  = Some (mkResult toyWorld "policy-update-result" 3 false 18446744073709551615
            [("service", "kafka"); ("cluster", "c1"); ("aclrule", "admins")]
            ["api-policy-update"]).
Proof. vm_compute. reflexivity. Qed.

End toy_facts.

(** ** IndexValueList as a sorted set of byte strings *)
Module IndexValueList_facts.
Import store store_facts.

Lemma ascending_nil : ascending [].
Proof. intros i j a b _ Hi. by destruct i. Qed.

Lemma ascending_cons x l :
  ascending (x :: l) ↔ (∀ y, y ∈ l -> bytes.Compare x y = Lt) ∧ ascending l.
Proof.
  split.
  - intros Hasc. split.
    + intros y [k Hk]%list_elem_of_lookup_1.
      apply (Hasc 0%nat (S k) x y); [lia|done|done].
    + intros i j a b Hij Hi Hj. apply (Hasc (S i) (S j) a b); [lia|done|done].
  - intros [Hx Hasc] i j a b Hij Hi Hj.
    destruct j as [|j]; [lia|]. simpl in Hj.
    destruct i as [|i]; simpl in Hi.
    + injection Hi as <-. apply Hx. by eapply list_elem_of_lookup_2.
    + apply (Hasc i j a b); [lia|done|done].
Qed.

Lemma ascending_two a b : bytes.Compare a b = Lt -> ascending [a; b].
Proof.
  intros Hab. apply ascending_cons. split.
  - by intros y ->%list_elem_of_singleton.
  - apply ascending_cons. split; [|apply ascending_nil].
    intros y Hy. by apply elem_of_nil in Hy.
Qed.

(** Two ascending lists with the same members are the same list. *)
Lemma ascending_ext l1 l2 :
  ascending l1 -> ascending l2 -> (∀ b, b ∈ l1 ↔ b ∈ l2) -> l1 = l2.
Proof.
  revert l2. induction l1 as [|x l1 IH]; intros [|y l2] H1 H2 Hmem.
  - done.
  - exfalso. apply (not_elem_of_nil y), Hmem. by left.
  - exfalso. apply (not_elem_of_nil x), Hmem. by left.
  - apply ascending_cons in H1 as [Hx H1], H2 as [Hy H2].
    assert (x = y) as ->.
    { assert (Hxy : x ∈ y :: l2) by (apply Hmem; by left).
      assert (Hyx : y ∈ x :: l1) by (apply Hmem; by left).
      apply elem_of_cons in Hxy as [?|Hxy]; [done|].
      apply elem_of_cons in Hyx as [?|Hyx]; [done|].
      apply Hy in Hxy. apply Hx in Hyx.
      rewrite Compare_antisym, Hxy in Hyx. done. }
    f_equal. apply IH; [done|done|]. intros b. split; intros Hb.
    + assert (Hb' : b ∈ y :: l2) by (apply Hmem; by right).
      apply elem_of_cons in Hb' as [->|Hb']; [|done].
      apply Hx in Hb. by rewrite Compare_refl in Hb.
    + assert (Hb' : b ∈ y :: l1) by (apply Hmem; by right).
      apply elem_of_cons in Hb' as [->|Hb']; [|done].
      apply Hy in Hb. by rewrite Compare_refl in Hb.
Qed.

Lemma Add_present lst value : ascending lst -> value ∈ lst -> Add lst value = lst.
Proof.
  intros Hasc Hin. apply ascending_ext; [by apply Add_ascending|done|].
  intros b. rewrite elem_of_Add. split; [|by left]. by intros [?| ->].
Qed.

Lemma Add_absent_length lst value :
  ascending lst -> value ∉ lst -> length (Add lst value) = S (length lst).
Proof.
  intros Hasc Hnot. rewrite Add_unfold. cbv zeta.
  destruct (_ && _) eqn:Hfound.
  - destruct Hnot. apply (Contains_spec _ _ Hasc). exact Hfound.
  - pose proof (searchValue_le lst value).
    rewrite length_app, length_take. simpl. rewrite length_drop. lia.
Qed.

(** X1. Add on a list in ascending order: the list stays in ascending
    order, its members are the old ones and the value, a value that is
    already a member leaves the list as it is, and a new one makes it one
    longer. *)
Theorem Add_inserts_in_order lst value :
  ascending lst ->
  ascending (Add lst value) ∧
  (∀ b, b ∈ Add lst value ↔ b ∈ lst ∨ b = value) ∧
  (value ∈ lst -> Add lst value = lst) ∧
  (value ∉ lst -> length (Add lst value) = S (length lst)).
Proof.
  intros Hasc. split; [by apply Add_ascending|].
  split; [intros b; apply elem_of_Add|].
  split; [by apply Add_present|by apply Add_absent_length].
Qed.

Lemma Add_inserts_in_order_witness :
  let lst := [gostrings.to_bytes "1"; gostrings.to_bytes "3"] in
  let value := gostrings.to_bytes "2" in
  ascending (Add lst value) ∧
  (∀ b, b ∈ Add lst value ↔ b ∈ lst ∨ b = value) ∧
  (value ∈ lst -> Add lst value = lst) ∧
  (value ∉ lst -> length (Add lst value) = S (length lst)).
Proof.
  apply (Add_inserts_in_order [gostrings.to_bytes "1"; gostrings.to_bytes "3"]
           (gostrings.to_bytes "2")).
  apply ascending_two. reflexivity.
Defined.

(** X2. Contains on a list in ascending order tells membership; a value
    that was added is found, and adding it changes the answer for no other
    value. *)
Theorem Contains_finds_members lst value :
  ascending lst ->
  (Contains lst value = true ↔ value ∈ lst) ∧
  Contains (Add lst value) value = true ∧
  (∀ other, other ≠ value -> Contains (Add lst value) other = Contains lst other).
Proof.
  intros Hasc. pose proof (Add_ascending lst value Hasc) as Hasc'.
  split; [by apply Contains_spec|]. split.
  - apply (Contains_spec _ _ Hasc'), elem_of_Add. by right.
  - intros other Hne.
    pose proof (Contains_spec lst other Hasc) as H1.
    pose proof (Contains_spec (Add lst value) other Hasc') as H2.
    rewrite elem_of_Add in H2.
    destruct (Contains (Add lst value) other), (Contains lst other); try done.
    + destruct (proj1 H2 eq_refl) as [Hin|?]; [|done].
      by apply H1 in Hin.
    + apply H2. left. by apply H1.
Qed.

Lemma Contains_finds_members_witness :
  let lst := [gostrings.to_bytes "1"; gostrings.to_bytes "3"] in
  let value := gostrings.to_bytes "2" in
  (Contains lst value = true ↔ value ∈ lst) ∧
  Contains (Add lst value) value = true ∧
  (∀ other, other ≠ value -> Contains (Add lst value) other = Contains lst other).
Proof.
  apply (Contains_finds_members [gostrings.to_bytes "1"; gostrings.to_bytes "3"]
           (gostrings.to_bytes "2")).
  apply ascending_two. reflexivity.
Defined.

(** X3. On a list in ascending order Add and Remove undo each other:
    removing a value that was just added gives the list back, and so does
    adding again a member that was just removed. *)
Theorem Add_Remove_round_trip lst value :
  ascending lst ->
  (value ∉ lst -> Remove (Add lst value) value = lst) ∧
  (value ∈ lst -> Add (Remove lst value) value = lst).
Proof.
  intros Hasc. split; intros Hin.
  - pose proof (Add_ascending lst value Hasc) as Hasc'.
    apply ascending_ext; [by apply Remove_ascending|done|].
    intros b. rewrite Remove_present; [|done|apply elem_of_Add; by right].
    rewrite elem_of_Add. split.
    + by intros [[?|?] ?].
    + intros Hb. split; [by left|]. by intros ->.
  - apply ascending_ext; [by apply Add_ascending, Remove_ascending|done|].
    intros b. rewrite elem_of_Add, Remove_present by done. split.
    + by intros [[? _]| ->].
    + intros Hb. destruct (decide (b = value)); [by right|by left].
Qed.

Lemma Add_Remove_round_trip_witness :
  let lst := [gostrings.to_bytes "1"; gostrings.to_bytes "3"] in
  let value := gostrings.to_bytes "2" in
  (value ∉ lst -> Remove (Add lst value) value = lst) ∧
  (value ∈ lst -> Add (Remove lst value) value = lst).
Proof.
  apply (Add_Remove_round_trip [gostrings.to_bytes "1"; gostrings.to_bytes "3"]
           (gostrings.to_bytes "2")).
  apply ascending_two. reflexivity.
Defined.

Lemma foldl_Add_ascending values lst :
  ascending lst -> ascending (foldl Add lst values).
Proof.
  revert lst. induction values as [|v values IH]; intros lst Hasc; simpl; [done|].
  by apply IH, Add_ascending.
Qed.

Lemma elem_of_foldl_Add values lst b :
  b ∈ foldl Add lst values ↔ b ∈ lst ∨ b ∈ values.
Proof.
  revert lst. induction values as [|v values IH]; intros lst; simpl.
  - split; [by left|]. intros [?|Hb]; [done|]. by apply elem_of_nil in Hb.
  - rewrite IH, elem_of_Add, elem_of_cons. tauto.
Qed.

(** X4. What a list in ascending order holds after a run of Adds depends
    on the values added and not on their order or number: two runs with the
    same values end in the same list. *)
Theorem Add_order_independent lst values values' :
  ascending lst ->
  (∀ b, b ∈ values ↔ b ∈ values') ->
  foldl Add lst values = foldl Add lst values'.
Proof.
  intros Hasc Hsame.
  apply ascending_ext; [by apply foldl_Add_ascending..|].
  intros b. rewrite !elem_of_foldl_Add, Hsame. done.
Qed.

Lemma Add_order_independent_witness :
  let one := gostrings.to_bytes "1" in
  let two := gostrings.to_bytes "2" in
  foldl Add [] [two; one; two] = foldl Add [] [one; two].
Proof.
  apply (Add_order_independent []
           [gostrings.to_bytes "2"; gostrings.to_bytes "1"; gostrings.to_bytes "2"]
           [gostrings.to_bytes "1"; gostrings.to_bytes "2"]).
  - apply ascending_nil.
  - intros b. rewrite !elem_of_cons. pose proof (not_elem_of_nil b). tauto.
Defined.

(** X5. Remove of a member of a list in ascending order takes out that
    value and nothing else: the list stays in ascending order, is one shorter,
    and Contains no longer finds the value. *)
Theorem Remove_takes_out_member lst value :
  ascending lst -> value ∈ lst ->
  ascending (Remove lst value) ∧
  (∀ b, b ∈ Remove lst value ↔ b ∈ lst ∧ b ≠ value) ∧
  Contains (Remove lst value) value = false ∧
  S (length (Remove lst value)) = length lst.
Proof.
  intros Hasc Hin. pose proof (Remove_ascending lst value Hasc) as Hasc'.
  split; [done|]. split; [by apply Remove_present|]. split.
  - destruct (Contains (Remove lst value) value) eqn:Hc; [|done].
    apply (Contains_spec _ _ Hasc'), Remove_present in Hc as [_ Hne]; done.
  - apply list_elem_of_lookup_1 in Hin as [k Hk].
    rewrite Remove_unfold. cbv zeta. rewrite (searchValue_found _ _ _ Hasc Hk).
    pose proof (lookup_lt_Some _ _ _ Hk) as Hlt.
    pose proof Hlt as Hlt'. apply Nat.ltb_lt in Hlt' as ->.
    rewrite length_app, length_take, length_drop. lia.
Qed.

Lemma Remove_takes_out_member_witness :
  let lst := [gostrings.to_bytes "1"; gostrings.to_bytes "3"] in
  let value := gostrings.to_bytes "3" in
  ascending (Remove lst value) ∧
  (∀ b, b ∈ Remove lst value ↔ b ∈ lst ∧ b ≠ value) ∧
  Contains (Remove lst value) value = false ∧
  S (length (Remove lst value)) = length lst.
Proof.
  apply (Remove_takes_out_member [gostrings.to_bytes "1"; gostrings.to_bytes "3"]
           (gostrings.to_bytes "3")).
  - apply ascending_two. reflexivity.
  - apply elem_of_cons. right. apply elem_of_cons. by left.
Defined.

End IndexValueList_facts.

(** ** Save: what it writes and what it leaves alone *)
Module Save_facts.
Import runtime store etcd plain samples invariants.
Import store_facts IndexValueList_facts etcd_facts plain_facts.

Lemma NewSTM_failure {A} st (f : gmap string string -> outcome * A * gmap string string) :
  (NewSTM st f).1.1 ≠ Ok -> (NewSTM st f).2 = st.
Proof. unfold NewSTM. destruct (f st) as [[[] a] st']; simpl; done. Qed.

(** X6. Save is all or nothing: whenever it comes back with an error or
    panics, in either mode and for any kind, the key space is as it was
    before the call. *)
Theorem Save_failure_writes_nothing s info indexes newStorable saveOpts st :
  (Save s info indexes newStorable saveOpts st).1.1 ≠ Ok ->
  (Save s info indexes newStorable saveOpts st).2 = st.
Proof.
  unfold Save. destruct newStorable as [o|]; [|done].
  destruct (Versioned info); simpl.
  - destruct (IsVersioned o); simpl; [|done].
    pose proof (NewSTM_failure st
      (saveTxn s info indexes saveOpts ("/" +:+ KeyForStorable o) o)) as Hf.
    destruct (NewSTM st _) as [[r o'] st']. exact Hf.
  - by destruct (marshal s o).
Qed.

Lemma Save_failure_writes_nothing_witness :
  let res := Save plainStore serviceInfo (IndexesFor serviceInfo)
               (Some (kafka 0 "3")) WithReplaceOrForceGen afterFirstSave in
  res.1.1 = Err (ErrEmptyGeneration "/p/service/kafka") ∧ res.2 = afterFirstSave.
Proof.
  cbv zeta. split; [vm_compute; reflexivity|].
  apply (Save_failure_writes_nothing plainStore serviceInfo (IndexesFor serviceInfo)
           (Some (kafka 0 "3")) WithReplaceOrForceGen afterFirstSave).
  vm_compute. discriminate.
Defined.

Lemma chooseGeneration_object s info indexes saveOpts key o st o1 prev :
  chooseGeneration s info indexes saveOpts key o st = inr (o1, prev) ->
  ∃ g, o1 = SetGeneration o g.
Proof.
  unfold chooseGeneration. intros Hc.
  repeat match type of Hc with
         | context [match ?x with _ => _ end] => destruct x; try done
         end;
    injection Hc as <- _; eauto.
  all: exists (Gen o); by destruct o.
Qed.

Lemma saveIndex_keeps_keys s o prev g index st st' k :
  saveIndex s o prev g index st = Some st' ->
  is_Some (st !! k) -> is_Some (st' !! k).
Proof.
  unfold saveIndex. intros H Hk.
  destruct (Index_NameForStorable index o (codec s)) as [name|]; [simpl in H|done].
  destruct (Type_ index); [done| |].
  - injection H as <-. unfold Put. apply lookup_insert_is_Some.
    destruct (decide ("/index/" +:+ name = k)); [by left|by right].
  - destruct (readValueList s _); [simpl in H|done].
    destruct (marshalList s _); [simpl in H|done].
    injection H as <-. unfold Put. apply lookup_insert_is_Some.
    destruct (decide ("/index/" +:+ name = k)); [by left|by right].
Qed.

Lemma saveIndexes_keeps_keys s o prev g l st st' k :
  saveIndexes s o prev g l st = Some st' ->
  is_Some (st !! k) -> is_Some (st' !! k).
Proof.
  revert st. induction l as [|[nm index] rest IH]; intros st H Hk; simpl in H.
  - by injection H as <-.
  - destruct (saveIndex s o prev g index st) as [st1|] eqn:H1; [simpl in H|done].
    eapply IH; [done|]. by eapply saveIndex_keeps_keys.
Qed.

Lemma saveIndexes_prev s o prev prev' g l st :
  saveIndexes s o prev g l st = saveIndexes s o prev' g l st.
Proof.
  revert st. induction l as [|[nm index] rest IH]; intros st; [done|]. simpl.
  assert (Hsame : saveIndex s o prev g index st = saveIndex s o prev' g index st) by done.
  rewrite Hsame. destruct (saveIndex _ _ prev' _ _ _); simpl; [apply IH|done].
Qed.

Lemma saveTxn_cases s info indexes saveOpts key o st :
  (NewSTM st (saveTxn s info indexes saveOpts key o)).2 = st ∨
  ∃ g data st',
    saveIndexes s (SetGeneration o g) None g (List indexes)
      (Put st (objectKey key g) data) = Some st' ∧
    (NewSTM st (saveTxn s info indexes saveOpts key o)).2 = st'.
Proof.
  unfold NewSTM, saveTxn.
  destruct (chooseGeneration s info indexes saveOpts key o st) as [[r o']|[o1 prev]] eqn:Hc.
  { left. by destruct r. }
  destruct (chooseGeneration_object _ _ _ _ _ _ _ _ _ Hc) as [g ->].
  destruct (marshal s _) as [data|]; [|by left].
  unfold GetGeneration. simpl.
  destruct (saveIndexes s (SetGeneration o g) prev g (List indexes) _) as [st'|] eqn:Hi;
    [|by left].
  right. exists g, data, st'. split; [|done].
  by rewrite (saveIndexes_prev _ _ None prev).
Qed.

(** The key space Save leaves, for an object that is not nil: the one it
    was given, or that one with the object put under its key at some
    generation and the index loop run after it. *)
Lemma Save_cases s info indexes o saveOpts st :
  (Save s info indexes (Some o) saveOpts st).2 = st ∨
  ∃ g data,
    (Save s info indexes (Some o) saveOpts st).2
      = Put st (objectKey ("/" +:+ KeyForStorable o) g) data ∨
    ∃ st',
      saveIndexes s (SetGeneration o g) None g (List indexes)
        (Put st (objectKey ("/" +:+ KeyForStorable o) g) data) = Some st' ∧
      (Save s info indexes (Some o) saveOpts st).2 = st'.
Proof.
  unfold Save. destruct (Versioned info); simpl.
  - destruct (IsVersioned o); simpl; [|by left].
    pose proof (saveTxn_cases s info indexes saveOpts ("/" +:+ KeyForStorable o) o st) as Ht.
    destruct (NewSTM st _) as [[r o'] st']. simpl in *.
    destruct Ht as [->|(g & data & st2 & Hi & ->)]; [by left|].
    right. exists g, data. right. by exists st2.
  - destruct (marshal s o) as [data|]; [|by left]. right.
    exists LastOrEmptyGen, data. by left.
Qed.

(** X7. Save of an object never takes a key out of the key space, and
    it leaves every key as it was that is neither a version of the key of
    the object ([/object/<key>@<generation>]) nor an index entry named for
    the object by one of the indexes of its kind. *)
Theorem Save_writes_only_own_keys s info indexes o saveOpts st k :
  let st' := (Save s info indexes (Some o) saveOpts st).2 in
  (is_Some (st !! k) -> is_Some (st' !! k)) ∧
  ((∀ g, k ≠ objectKey ("/" +:+ KeyForStorable o) g) ->
   (∀ e name, e ∈ List indexes ->
      Index_NameForStorable e.2 o (codec s) = Some name -> k ≠ "/index/" +:+ name) ->
   st' !! k = st !! k).
Proof.
  cbv zeta.
  destruct (Save_cases s info indexes o saveOpts st)
    as [->|(g & data & [->|(st2 & Hi & ->)])].
  - done.
  - split.
    + intros Hk. unfold Put. apply lookup_insert_is_Some.
      destruct (decide (objectKey ("/" +:+ KeyForStorable o) g = k)); [by left|by right].
    + intros Hobj _. unfold Put. apply lookup_insert_ne. apply not_eq_sym, Hobj.
  - split.
    + intros Hk. eapply saveIndexes_keeps_keys; [done|].
      unfold Put. apply lookup_insert_is_Some.
      destruct (decide (objectKey ("/" +:+ KeyForStorable o) g = k)); [by left|by right].
    + intros Hobj Hidx. rewrite (saveIndexes_other _ _ _ _ _ _ _ _ Hi).
      * unfold Put. apply lookup_insert_ne. apply not_eq_sym, Hobj.
      * intros e name He Hn. by apply (Hidx e name He).
Qed.

Lemma Save_writes_only_own_keys_witness :
  let st := <[ "/object/p/service/zoo@1" := "x" ]> afterFirstSave in
  let st' := (Save plainStore serviceInfo (IndexesFor serviceInfo)
                (Some (kafka 0 "3")) defaultOpts st).2 in
  st' !! "/object/p/service/zoo@1" = Some "x".
Proof.
  cbv zeta.
  destruct (Save_writes_only_own_keys plainStore serviceInfo (IndexesFor serviceInfo)
              (kafka 0 "3") defaultOpts
              (<[ "/object/p/service/zoo@1" := "x" ]> afterFirstSave)
              "/object/p/service/zoo@1") as [_ Hframe].
  rewrite Hframe.
  - apply lookup_insert_eq.
  - intros g. unfold objectKey. cbn. discriminate.
  - intros e name _ _. cbn. discriminate.
Defined.

(** X8. A kind that is not versioned keeps no history: whatever the
    options, Save puts the marshaled object under [/object/<key>@0], so
    that a second Save under the same key leaves the key space as if the
    first had not been; the object comes back as it was given. *)
Theorem Save_unversioned_keeps_no_history s info indexes o1 o2 opts1 opts2 st data :
  Versioned info = false ->
  KeyForStorable o1 = KeyForStorable o2 ->
  marshal s o2 = Some data ->
  Save s info indexes (Some o2) opts2 (Save s info indexes (Some o1) opts1 st).2
  = (Ok, Some o2, <[ "/object/" +:+ KeyForStorable o2 +:+ "@0" := data ]> st).
Proof.
  intros Hv Hk Hm. unfold Save. rewrite Hv. simpl. rewrite Hm, Hk.
  assert (Hkey : objectKey ("/" +:+ KeyForStorable o2) LastOrEmptyGen
                 = "/object/" +:+ KeyForStorable o2 +:+ "@0").
  { unfold objectKey. cbn. done. }
  rewrite Hkey. unfold Put.
  destruct (marshal s o1); simpl; [|done].
  by rewrite insert_insert_eq.
Qed.

Lemma Save_unversioned_keeps_no_history_witness :
  Save plainStore settingsInfo (IndexesFor settingsInfo) (Some (settings "info"))
    defaultOpts
    (Save plainStore settingsInfo (IndexesFor settingsInfo) (Some (settings "debug"))
       WithReplaceOrForceGen ∅).2
  = (Ok, Some (settings "info"),
     <[ "/object/" +:+ KeyForStorable (settings "info") +:+ "@0"
          := "1s1e1t1t1i1n1g1s01p01m1a1i1n01-01001s1i1n1f1o0" ]> ∅).
Proof.
  apply (Save_unversioned_keeps_no_history plainStore settingsInfo
           (IndexesFor settingsInfo) (settings "debug") (settings "info")
           WithReplaceOrForceGen defaultOpts ∅); reflexivity.
Defined.

(** X9. Under ReplaceOrForceGen a Save that returns without error has
    written the object, unchanged, under the generation it came with, and
    has set the last-generation entry of the key to that generation,
    whatever the entry named before. *)
Theorem Save_forced_generation_becomes_last s info indexes o st :
  Versioned info = true ->
  IsVersioned o = true ->
  HasLastGen indexes ->
  (Save s info indexes (Some o) WithReplaceOrForceGen st).1.1 = Ok ->
  Gen o ≠ LastOrEmptyGen ∧
  (Save s info indexes (Some o) WithReplaceOrForceGen st).1.2 = Some o ∧
  (Save s info indexes (Some o) WithReplaceOrForceGen st).2 !! lastGenKey o
    = Some (marshalGen s (Gen o)) ∧
  ∃ data, marshal s o = Some data ∧
    (Save s info indexes (Some o) WithReplaceOrForceGen st).2
      !! objectKey ("/" +:+ KeyForStorable o) (Gen o) = Some data.
Proof.
  intros Hv Ho Hl. rewrite (Save_versioned _ _ _ _ _ _ Hv Ho).
  destruct (chooseGeneration s info indexes WithReplaceOrForceGen
              ("/" +:+ KeyForStorable o) o st) as [[r o']|[o1 prev]] eqn:Hc.
  - rewrite (NewSTM_same _ _ _ _ (saveTxn_early _ _ _ _ _ _ _ _ _ Hc)). simpl.
    intros ->. exfalso. revert Hc. unfold chooseGeneration. simpl.
    repeat match goal with
           | |- context [match ?x with _ => _ end] => destruct x; try done
           end.
  - assert (Gen o ≠ LastOrEmptyGen ∧ o1 = o) as [Hg ->].
    { revert Hc. unfold chooseGeneration, GetGeneration. simpl.
      destruct (decide (Gen o = LastOrEmptyGen)); [done|].
      repeat match goal with
             | |- context [match ?x with _ => _ end] => destruct x; try done
             end; by intros [= <- _]. }
    destruct (saveTxn_write _ _ _ _ _ _ _ _ _ Hc)
      as [(data & st' & Hm & Hi & Htxn & Hst')|[_ [st' Htxn]]];
      unfold NewSTM; rewrite Htxn; simpl; [|done].
    intros _. split; [done|]. split; [done|]. split; [|by exists data].
    destruct Hl as (index & Hlook & Ht).
    destruct (lookupIndex_elem _ _ _ Hlook) as (e & He & <-).
    by eapply saveIndexes_lastgen.
Qed.

Lemma Save_forced_generation_becomes_last_witness :
  let res := Save plainStore serviceInfo (IndexesFor serviceInfo)
               (Some (kafka 1 "1")) WithReplaceOrForceGen afterSecondSave in
  Get afterSecondSave "/index/lastgen/p/service/kafka" = "2" ∧
  Get afterSecondSave "/object/p/service/kafka@2" ≠ "" ∧
  Gen (kafka 1 "1") ≠ LastOrEmptyGen ∧
  res.1.2 = Some (kafka 1 "1") ∧
  res.2 !! lastGenKey (kafka 1 "1") = Some (marshalGen plainStore (Gen (kafka 1 "1"))) ∧
  ∃ data, marshal plainStore (kafka 1 "1") = Some data ∧
    res.2 !! objectKey ("/" +:+ KeyForStorable (kafka 1 "1")) (Gen (kafka 1 "1"))
      = Some data.
Proof.
  cbv zeta. split; [vm_compute; reflexivity|]. split; [vm_compute; discriminate|].
  apply (Save_forced_generation_becomes_last plainStore serviceInfo
           (IndexesFor serviceInfo) (kafka 1 "1") afterSecondSave).
  - reflexivity.
  - reflexivity.
  - apply service_HasLastGen.
  - vm_compute. reflexivity.
Defined.

(** X10. In default mode, a last-generation entry that names a
    generation at which nothing is stored for the key makes Save return the
    error that the index seems to be corrupted; the object and the key space
    are left as they were. *)
Theorem Save_reports_corrupted_lastgen s info indexes o st lastGen :
  Versioned info = true ->
  IsVersioned o = true ->
  HasLastGen indexes ->
  Get st (lastGenKey o) ≠ "" ->
  unmarshalGen s (Get st (lastGenKey o)) = Some lastGen ->
  Get st (objectKey ("/" +:+ KeyForStorable o) lastGen) = "" ->
  Save s info indexes (Some o) defaultOpts st
  = (Err (ErrLastGenCorrupted ("/" +:+ KeyForStorable o)), Some o, st).
Proof.
  intros Hv Ho Hl Hpres Hu Habs. rewrite (Save_versioned _ _ _ _ _ _ Hv Ho).
  assert (Hc : chooseGeneration s info indexes defaultOpts ("/" +:+ KeyForStorable o) o st
               = inl (Err (ErrLastGenCorrupted ("/" +:+ KeyForStorable o)), o)).
  { rewrite (chooseGeneration_default _ _ _ _ _ _ Hl).
    rewrite decide_False by done. rewrite Hu. by rewrite decide_True. }
  by rewrite (NewSTM_same _ _ _ _ (saveTxn_early _ _ _ _ _ _ _ _ _ Hc)).
Qed.

Lemma Save_reports_corrupted_lastgen_witness :
  Save plainStore serviceInfo (IndexesFor serviceInfo) (Some (kafka 0 "1"))
    defaultOpts danglingLastGen
  = (Err (ErrLastGenCorrupted ("/" +:+ KeyForStorable (kafka 0 "1"))),
     Some (kafka 0 "1"), danglingLastGen).
Proof.
  apply (Save_reports_corrupted_lastgen plainStore serviceInfo (IndexesFor serviceInfo)
           (kafka 0 "1") danglingLastGen 7).
  - reflexivity.
  - reflexivity.
  - apply service_HasLastGen.
  - vm_compute. discriminate.
  - vm_compute. reflexivity.
  - vm_compute. reflexivity.
Defined.

(** X11. A default-mode Save of a versioned object that returns without
    error gives back the object with nothing but its generation changed. Either
    the object equals the one stored at the last generation, the generation is
    that one and the key space is untouched; or the generation is 1 when the
    key has no last-generation entry and the last generation plus one
    otherwise, the marshaled object stands under that generation and the
    last-generation entry names it. *)
Theorem Save_generation_step s info indexes o st :
  Versioned info = true ->
  IsVersioned o = true ->
  HasLastGen indexes ->
  (Save s info indexes (Some o) defaultOpts st).1.1 = Ok ->
  ∃ g,
    (Save s info indexes (Some o) defaultOpts st).1.2 = Some (SetGeneration o g) ∧
    ((unmarshalGen s (Get st (lastGenKey o)) = Some g ∧
      Get st (objectKey ("/" +:+ KeyForStorable o) g) ≠ "" ∧
      unmarshal s (Get st (objectKey ("/" +:+ KeyForStorable o) g)) (New info) = Some o ∧
      (Save s info indexes (Some o) defaultOpts st).2 = st)
     ∨
     ((Get st (lastGenKey o) = "" ∧ g = FirstGen
       ∨ ∃ lastGen, Get st (lastGenKey o) ≠ "" ∧
           unmarshalGen s (Get st (lastGenKey o)) = Some lastGen ∧ g = Next lastGen) ∧
      (Save s info indexes (Some o) defaultOpts st).2 !! lastGenKey o
        = Some (marshalGen s g) ∧
      ∃ data, marshal s (SetGeneration o g) = Some data ∧
        (Save s info indexes (Some o) defaultOpts st).2
          !! objectKey ("/" +:+ KeyForStorable o) g = Some data)).
Proof.
  intros Hv Ho Hl. rewrite (Save_versioned _ _ _ _ _ _ Hv Ho).
  destruct (chooseGeneration s info indexes defaultOpts ("/" +:+ KeyForStorable o) o st)
    as [[r o']|[o1 prev]] eqn:Hc.
  - rewrite (NewSTM_same _ _ _ _ (saveTxn_early _ _ _ _ _ _ _ _ _ Hc)). simpl.
    intros ->. rewrite (chooseGeneration_default _ _ _ _ _ _ Hl) in Hc.
    destruct (decide (Get st (lastGenKey o) = "")); [done|].
    destruct (unmarshalGen s (Get st (lastGenKey o))) as [lastGen|]; [|done].
    destruct (decide (Get st (objectKey ("/" +:+ KeyForStorable o) lastGen) = ""));
      [done|].
    destruct (unmarshal s _ (New info)) as [prevObj|] eqn:Hp; [|done].
    destruct (DeepEqual prevObj o) eqn:Hd; simpl in Hc; [|done].
    apply bool_decide_eq_true in Hd as ->. injection Hc as <-.
    exists lastGen. split; [done|]. by left.
  - pose proof (chooseGeneration_write _ _ _ _ _ _ _ _ Hl Hc) as Hw.
    destruct (saveTxn_write _ _ _ _ _ _ _ _ _ Hc)
      as [(data & st' & Hm & Hi & Htxn & Hst')|[_ [st' Htxn]]];
      unfold NewSTM; rewrite Htxn; simpl; [|done].
    intros _.
    assert (Hlast : st' !! lastGenKey o1 = Some (marshalGen s (Gen o1))).
    { destruct Hl as (index & Hlook & Ht).
      destruct (lookupIndex_elem _ _ _ Hlook) as (e & He & <-).
      by eapply saveIndexes_lastgen. }
    destruct Hw as [(Habs & -> & _)|(lastGen & prevObj & Hpres & Hu & _ & _ & _ & -> & _)].
    + exists FirstGen. split; [done|]. right. split; [by left|].
      split; [done|]. by exists data.
    + exists (Next lastGen). split; [done|]. right. split; [right; by exists lastGen|].
      split; [done|]. by exists data.
Qed.

Lemma Save_generation_step_witness :
  let res := Save plainStore serviceInfo (IndexesFor serviceInfo)
               (Some (kafka 0 "3")) defaultOpts afterFirstSave in
  let o := kafka 0 "3" in
  ∃ g,
    res.1.2 = Some (SetGeneration o g) ∧
    ((unmarshalGen plainStore (Get afterFirstSave (lastGenKey o)) = Some g ∧
      Get afterFirstSave (objectKey ("/" +:+ KeyForStorable o) g) ≠ "" ∧
      unmarshal plainStore (Get afterFirstSave (objectKey ("/" +:+ KeyForStorable o) g))
        (New serviceInfo) = Some o ∧
      res.2 = afterFirstSave)
     ∨
     ((Get afterFirstSave (lastGenKey o) = "" ∧ g = FirstGen
       ∨ ∃ lastGen, Get afterFirstSave (lastGenKey o) ≠ "" ∧
           unmarshalGen plainStore (Get afterFirstSave (lastGenKey o)) = Some lastGen ∧
           g = Next lastGen) ∧
      res.2 !! lastGenKey o = Some (marshalGen plainStore g) ∧
      ∃ data, marshal plainStore (SetGeneration o g) = Some data ∧
        res.2 !! objectKey ("/" +:+ KeyForStorable o) g = Some data)).
Proof.
  apply (Save_generation_step plainStore serviceInfo (IndexesFor serviceInfo)
           (kafka 0 "3") afterFirstSave).
  - reflexivity.
  - reflexivity.
  - apply service_HasLastGen.
  - vm_compute. reflexivity.
Defined.

(** X12. Default-mode Saves do not rewrite history: in a key space where
    the last-generation entry of the key names the highest generation
    stored, every version of the key that is stored reads the same after the
    Save as before. *)
Theorem Save_keeps_stored_versions s info indexes o st g :
  Versioned info = true ->
  IsVersioned o = true ->
  HasLastGen indexes ->
  HighestGen s o st ->
  Get st (objectKey ("/" +:+ KeyForStorable o) g) ≠ "" ->
  (Save s info indexes (Some o) defaultOpts st).2 !! objectKey ("/" +:+ KeyForStorable o) g
  = st !! objectKey ("/" +:+ KeyForStorable o) g.
Proof.
  intros Hv Ho Hl Hhigh Hg. rewrite (Save_versioned _ _ _ _ _ _ Hv Ho).
  destruct (chooseGeneration s info indexes defaultOpts ("/" +:+ KeyForStorable o) o st)
    as [[r o']|[o1 prev]] eqn:Hc.
  - by rewrite (NewSTM_same _ _ _ _ (saveTxn_early _ _ _ _ _ _ _ _ _ Hc)).
  - pose proof (write_path_generation _ _ _ _ _ _ _ _ Hl Hhigh Hc Hg) as Hlt.
    destruct (saveTxn_write _ _ _ _ _ _ _ _ _ Hc)
      as [(data & st' & Hm & Hi & Htxn & Hst')|[_ [st' Htxn]]];
      unfold NewSTM; rewrite Htxn; simpl; [|done].
    rewrite (saveIndexes_not_index _ _ _ _ _ _ _ _ Hi
               (fun n => object_key_not_index _ _ n)).
    unfold Put. apply lookup_insert_ne. intros Heq. apply objectKey_inj in Heq. lia.
Qed.

Lemma Save_keeps_stored_versions_witness :
  (Save plainStore serviceInfo (IndexesFor serviceInfo) (Some (kafka 0 "3"))
     defaultOpts afterFirstSave).2
    !! objectKey ("/" +:+ KeyForStorable (kafka 0 "3")) 1
  = afterFirstSave !! objectKey ("/" +:+ KeyForStorable (kafka 0 "3")) 1.
Proof.
  apply (Save_keeps_stored_versions plainStore serviceInfo (IndexesFor serviceInfo)
           (kafka 0 "3") afterFirstSave 1).
  - reflexivity.
  - reflexivity.
  - apply service_HasLastGen.
  - apply (index_consistency_after_saves plainStore serviceInfo (IndexesFor serviceInfo)
             "p/service/kafka" afterFirstSave eq_refl service_HasLastGen
             plain_GenCodecOk plain_ListCodecOk afterFirstSave_savedFrom).
    reflexivity.
  - vm_compute. discriminate.
Defined.

(** *** Runs of Saves from the empty key space *)

Lemma Save_keeps_dense s info indexes o st o1 st1 :
  Versioned info = true ->
  IsVersioned o = true ->
  HasLastGen indexes ->
  GenCodecOk s ->
  Save s info indexes (Some o) defaultOpts st = (Ok, Some o1, st1) ->
  ObjectRoundTrip s info o1 ->
  GensDense s o st -> GensDense s o st1.
Proof.
  intros Hv Ho Hl Hgen H Hrt Hdense.
  rewrite (Save_versioned _ _ _ _ _ _ Hv Ho) in H.
  destruct (chooseGeneration s info indexes defaultOpts ("/" +:+ KeyForStorable o) o st)
    as [[r o']|[o1' prev]] eqn:Hc.
  { rewrite (NewSTM_same _ _ _ _ (saveTxn_early _ _ _ _ _ _ _ _ _ Hc)) in H.
    by injection H as _ _ <-. }
  destruct (saveTxn_write _ _ _ _ _ _ _ _ _ Hc)
    as [(data & st' & Hm & Hi & Htxn & Hst')|[_ [st' Htxn]]];
    unfold NewSTM in H; rewrite Htxn in H; [|done].
  injection H as <- <-.
  pose proof (chooseGeneration_write _ _ _ _ _ _ _ _ Hl Hc) as Hw.
  assert (Hk1 : KeyForStorable o1' = KeyForStorable o).
  { destruct Hw as [(_ & -> & _)|(? & ? & _ & _ & _ & _ & _ & -> & _)]; done. }
  assert (Hlast' : st' !! lastGenKey o = Some (marshalGen s (Gen o1'))).
  { destruct Hl as (index & Hlook & Ht).
    destruct (lookupIndex_elem _ _ _ Hlook) as (e & He & <-).
    unfold lastGenKey. rewrite <- Hk1. by eapply saveIndexes_lastgen. }
  assert (Hlast : Get st' (lastGenKey o) = marshalGen s (Gen o1'))
    by (unfold Get; by rewrite Hlast').
  destruct (Hgen (Gen o1')) as [Hgne Hgback].
  destruct (Hrt data Hm) as [Hdata _].
  assert (Hobj : ∀ g, Get st' (objectKey ("/" +:+ KeyForStorable o) g) ≠ "" ↔
                      g = Gen o1' ∨ Get st (objectKey ("/" +:+ KeyForStorable o) g) ≠ "").
  { intros g.
    rewrite (Get_lookup _ _ _ (saveIndexes_not_index _ _ _ _ _ _ _ _ Hi
               (fun n => object_key_not_index _ _ n))).
    destruct (decide (g = Gen o1')) as [->|Hne].
    - rewrite Get_Put_eq. split; [by left|done].
    - rewrite Get_Put_ne by (intros Heq; by apply objectKey_inj in Heq).
      split; [by right|]. by intros [?|?]. }
  intros g. rewrite Hobj, Hlast, Hgback, (Hdense g).
  destruct Hw as [(Habs & -> & _)|(lastGen & prevObj & Hpres & Hu & _ & _ & _ & -> & _)];
    simpl.
  - split.
    + intros [->|[? _]]; [|done]. split; [done|]. exists FirstGen.
      split; [done|]. unfold FirstGen. lia.
    + intros (_ & lastGen & [= <-] & Hg). left. unfold FirstGen in *. lia.
  - rewrite Hu. split.
    + intros [->|(_ & lastGen' & [= <-] & Hg)]; (split; [done|]);
        exists (Next lastGen); (split; [done|]); unfold Next; lia.
    + intros (_ & lastGen' & [= <-] & Hg).
      destruct (decide (g = Next lastGen)) as [|Hne]; [by left|right].
      split; [done|]. exists lastGen. split; [done|]. unfold Next in *. lia.
Qed.

Lemma saveIndex_keeps_ascending s o prev g index st st' :
  ListCodecOk s ->
  saveIndex s o prev g index st = Some st' ->
  ListsAscending s st -> ListsAscending s st'.
Proof.
  intros Hcodec H Hasc name lst Hname Hlst.
  destruct (saveIndex_named _ _ _ _ _ _ _ H) as [name0 Hn0].
  destruct (Type_ index) eqn:Ht.
  - by rewrite (name_undef _ _ _ Ht) in Hn0.
  - rewrite (saveIndex_lastgen _ _ _ _ _ _ _ H Ht) in Hlst.
    rewrite Get_Put_ne in Hlst; [by eapply Hasc|].
    unfold lastGenKey. intros Heq. cbn in Heq. simplify_eq. by eapply Hname.
  - destruct (saveIndex_listgen _ _ _ _ _ _ _ _ H Ht Hn0) as (before & data & Hb & Hd & ->).
    destruct (decide (name0 = name)) as [->|Hne].
    + rewrite Get_Put_eq, (Hcodec _ _ Hd) in Hlst. injection Hlst as <-.
      apply Add_ascending. by eapply Hasc.
    + rewrite Get_Put_ne in Hlst; [by eapply Hasc|].
      intros Heq. by apply index_key_inj in Heq.
Qed.

Lemma saveIndexes_keeps_ascending s o prev g l st st' :
  ListCodecOk s ->
  saveIndexes s o prev g l st = Some st' ->
  ListsAscending s st -> ListsAscending s st'.
Proof.
  intros Hcodec. revert st.
  induction l as [|[nm index] rest IH]; intros st H Hasc; simpl in H.
  - by injection H as <-.
  - destruct (saveIndex s o prev g index st) as [st1|] eqn:H1; [simpl in H|done].
    eapply IH; [done|]. by eapply saveIndex_keeps_ascending.
Qed.

Lemma Save_keeps_ascending s info indexes o saveOpts st :
  ListCodecOk s ->
  ListsAscending s st ->
  ListsAscending s (Save s info indexes (Some o) saveOpts st).2.
Proof.
  intros Hcodec Hasc.
  assert (Hput : ∀ g data,
            ListsAscending s (Put st (objectKey ("/" +:+ KeyForStorable o) g) data)).
  { intros g data name lst Hname Hlst.
    rewrite Get_Put_ne in Hlst by apply object_key_not_index. by eapply Hasc. }
  destruct (Save_cases s info indexes o saveOpts st)
    as [->|(g & data & [->|(st2 & Hi & ->)])]; [done|apply Hput|].
  eapply saveIndexes_keeps_ascending; [done..|apply Hput].
Qed.

Lemma empty_ListsAscending s : ListsAscending s ∅.
Proof.
  intros name lst _. unfold Get. rewrite lookup_empty. simpl.
  unfold readValueList. rewrite decide_True by done. intros [= <-].
  apply ascending_nil.
Qed.

Lemma saved_ListsAscending s info indexes key st :
  ListCodecOk s -> savedFrom s info indexes key st -> ListsAscending s st.
Proof.
  intros Hcodec Hsaved.
  induction Hsaved as [|o o1 st st1 Hsaved IH Hk Ho Hsave Hrt].
  - apply empty_ListsAscending.
  - pose proof (Save_keeps_ascending s info indexes o defaultOpts st Hcodec IH) as Hs.
    by rewrite Hsave in Hs.
Qed.

Lemma empty_GensDense s o : GensDense s o ∅.
Proof.
  intros g. unfold Get. rewrite !lookup_empty. simpl. split; [done|]. by intros [? _].
Qed.

Lemma GensDense_key s o o' st :
  KeyForStorable o = KeyForStorable o' -> GensDense s o st -> GensDense s o' st.
Proof. unfold GensDense, lastGenKey. by intros ->. Qed.

(** X13. Generations are handed out without gaps: in a key space built
    from the empty one by default-mode Saves of objects with one key, the
    generations stored for the key are exactly 1 up to the generation that
    the last-generation entry names. *)
Theorem saved_generations_dense s info indexes key st o :
  Versioned info = true ->
  HasLastGen indexes ->
  GenCodecOk s ->
  savedFrom s info indexes key st ->
  KeyForStorable o = key ->
  GensDense s o st.
Proof.
  intros Hv Hl Hgen Hsaved. revert o.
  induction Hsaved as [|o0 o1 st st1 Hsaved IH Hk Ho Hsave Hrt]; intros o Hk'.
  - apply empty_GensDense.
  - apply (GensDense_key s o0); [congruence|].
    eapply Save_keeps_dense; try done. by apply IH.
Qed.

Lemma saved_generations_dense_witness :
  GensDense plainStore (kafka 0 "3") afterFirstSave.
Proof.
  apply (saved_generations_dense plainStore serviceInfo (IndexesFor serviceInfo)
           "p/service/kafka" afterFirstSave (kafka 0 "3")).
  - reflexivity.
  - exact service_HasLastGen.
  - exact plain_GenCodecOk.
  - exact afterFirstSave_savedFrom.
  - reflexivity.
Defined.

(** X14. Index consistency along the Saves of one key: in a key space
    built from the empty one by default-mode Saves of objects with that key,
    every list-generation entry of the key reads as a list in ascending
    order, and Contains finds a generation in it exactly when the object
    stored at that generation has its entry there, that is, has that value of
    the indexed field. *)
Theorem saved_lists_sorted_and_exact s info indexes key st o name :
  Versioned info = true ->
  HasLastGen indexes ->
  GenCodecOk s ->
  ListCodecOk s ->
  savedFrom s info indexes key st ->
  KeyForStorable o = key ->
  ListGenEntry indexes (codec s) o name ->
  ∃ lst,
    readValueList s (Get st ("/index/" +:+ name)) = Some lst ∧
    ascending lst ∧
    ∀ g, Contains lst (gostrings.to_bytes (marshalGen s g)) = true ↔
         ∃ obj, Stored s info o g st obj ∧ ListGenName indexes (codec s) obj name.
Proof.
  intros Hv Hl Hgen Hcodec Hsaved Hk Hentry.
  destruct (index_consistency_after_saves s info indexes key st Hv Hl Hgen Hcodec Hsaved
              o Hk) as (_ & _ & Hexact).
  destruct (Hexact name Hentry) as (lst & Hlst & Hmem).
  assert (Hasc : ascending lst).
  { eapply (saved_ListsAscending s info indexes key st Hcodec Hsaved name); [|done].
    intros r. by eapply entry_name_not_lastgen. }
  exists lst. split; [done|]. split; [done|].
  intros g. rewrite (Contains_spec _ _ Hasc), Hmem. split.
  - intros (g' & obj & Heq & Hs & Hn).
    apply to_bytes_inj, (marshalGen_inj _ _ _ Hgen) in Heq as ->. by exists obj.
  - intros (obj & Hs & Hn). by exists g, obj.
Qed.

Lemma saved_lists_sorted_and_exact_witness :
  ∃ lst,
    readValueList plainStore
      (Get afterFirstSave ("/index/" +:+ "listgen/p/service/kafka/Replicas=1")) = Some lst ∧
    ascending lst ∧
    ∀ g, Contains lst (gostrings.to_bytes (marshalGen plainStore g)) = true ↔
         ∃ obj, Stored plainStore serviceInfo (kafka 0 "3") g afterFirstSave obj ∧
                ListGenName (IndexesFor serviceInfo) (codec plainStore) obj
                  "listgen/p/service/kafka/Replicas=1".
Proof.
  apply (saved_lists_sorted_and_exact plainStore serviceInfo (IndexesFor serviceInfo)
           "p/service/kafka" afterFirstSave (kafka 0 "3")
           "listgen/p/service/kafka/Replicas=1").
  - reflexivity.
  - exact service_HasLastGen.
  - exact plain_GenCodecOk.
  - exact plain_ListCodecOk.
  - exact afterFirstSave_savedFrom.
  - reflexivity.
  - split; [discriminate|].
    exists ("Replicas", mkIndex IndexTypeListGen "Replicas" (Some noopValueTransform) 0),
      (VString "1").
    split; [|split; reflexivity].
    apply (list_elem_of_lookup_2 _ 1%nat). reflexivity.
Defined.

End Save_facts.

(** ** IndexesFor and the names of index entries *)
Module Indexes_facts.
Import runtime store etcd plain samples etcd_facts plain_facts.

Lemma lookup_setIndex_eq name index l :
  lookupIndex (mkIndexes (setIndex name index l)) name = Some index.
Proof.
  unfold lookupIndex. simpl. induction l as [|e l IH]; simpl.
  - by rewrite bool_decide_eq_true_2.
  - destruct (decide (e.1 = name)) as [He|He]; simpl.
    + by rewrite bool_decide_eq_true_2.
    + by rewrite bool_decide_eq_false_2.
Qed.

Lemma lookup_fieldIndexes_at info i fields acc k fName tag :
  NoDup fields.*1 ->
  fields !! k = Some (fName, tag) ->
  lookupIndex (mkIndexes (fieldIndexes info i fields acc)) fName =
    if gostrings.Contains tag "index" then
      Some (mkIndex IndexTypeListGen fName
              (Some match IndexValueTransforms info fName with
                    | Some t => t
                    | None => noopValueTransform
                    end) (i + k))
    else lookupIndex (mkIndexes acc) fName.
Proof.
  revert i acc k. induction fields as [|[f0 t0] rest IH]; intros i acc k Hnd Hk; [done|].
  rewrite fmap_cons in Hnd. apply NoDup_cons in Hnd as [Hf0 Hnd]. simpl in Hf0.
  destruct k as [|k]; simpl in Hk.
  - injection Hk as -> ->. simpl.
    assert (Hrest : ∀ f, f ∈ rest -> f.1 ≠ fName).
    { intros f Hf Heq. apply Hf0. rewrite <- Heq. by apply (list_elem_of_fmap_2 fst). }
    destruct (gostrings.Contains tag "index"); rewrite lookup_fieldIndexes by done;
      [|done].
    rewrite lookup_setIndex_eq. by rewrite Nat.add_0_r.
  - assert (Hne : f0 ≠ fName).
    { intros ->. apply Hf0. apply list_elem_of_lookup_2 in Hk.
      by apply (list_elem_of_fmap_2 fst) in Hk. }
    simpl. replace (i + S k)%nat with (S i + k)%nat by lia.
    destruct (gostrings.Contains t0 "index"); rewrite (IH _ _ k) by done;
      destruct (gostrings.Contains tag "index"); try done.
    by apply lookup_setIndex_ne.
Qed.

(** X15. IndexesFor gives every struct field whose [store] tag contains
    "index" a list-generation index under the name of the field, with the
    position of the field and the value transform registered for it (or the
    identity); a field without the tag gets none. *)
Theorem IndexesFor_indexes_tagged_fields info k fName tag :
  NoDup (StructFields info).*1 ->
  StructFields info !! k = Some (fName, tag) ->
  fName ≠ LastGenIndex ->
  lookupIndex (IndexesFor info) fName =
    if gostrings.Contains tag "index" then
      Some (mkIndex IndexTypeListGen fName
              (Some match IndexValueTransforms info fName with
                    | Some t => t
                    | None => noopValueTransform
                    end) k)
    else None.
Proof.
  intros Hnd Hk Hne. unfold IndexesFor.
  rewrite (lookup_fieldIndexes_at info 0 _ _ k fName tag Hnd Hk). simpl.
  destruct (gostrings.Contains tag "index"); [done|].
  unfold lookupIndex. simpl. destruct (Versioned info); simpl; [|done].
  by rewrite bool_decide_eq_false_2 by done.
Qed.

Lemma IndexesFor_indexes_tagged_fields_witness :
  lookupIndex (IndexesFor clusterInfo) "Zone" =
    (if gostrings.Contains "other,index" "index" then
       Some (mkIndex IndexTypeListGen "Zone"
               (Some match IndexValueTransforms clusterInfo "Zone" with
                     | Some t => t
                     | None => noopValueTransform
                     end) 2)
     else None) ∧
  lookupIndex (IndexesFor clusterInfo) "Config" =
    (if gostrings.Contains "" "index" then
       Some (mkIndex IndexTypeListGen "Config"
               (Some match IndexValueTransforms clusterInfo "Config" with
                     | Some t => t
                     | None => noopValueTransform
                     end) 1)
     else None).
Proof.
  split.
  - apply (IndexesFor_indexes_tagged_fields clusterInfo 2 "Zone" "other,index").
    + apply (bool_decide_unpack _). vm_compute. exact I.
    + reflexivity.
    + discriminate.
  - apply (IndexesFor_indexes_tagged_fields clusterInfo 1 "Config" "").
    + apply (bool_decide_unpack _). vm_compute. exact I.
    + reflexivity.
    + discriminate.
Defined.

Lemma elem_of_setIndex e name index l :
  e ∈ setIndex name index l -> e = (name, index) ∨ e ∈ l.
Proof.
  induction l as [|e0 l IH]; simpl.
  - intros ->%list_elem_of_singleton. by left.
  - destruct (decide (e0.1 = name)).
    + intros [->|He]%elem_of_cons; [by left|right; by right].
    + intros [->|He]%elem_of_cons; [right; by left|].
      destruct (IH He) as [?|?]; [by left|right; by right].
Qed.

Lemma elem_of_fieldIndexes info i fields acc e :
  e ∈ fieldIndexes info i fields acc ->
  e ∈ acc ∨
  (Type_ e.2 = IndexTypeListGen ∧ Field e.2 = e.1 ∧ is_Some (ValueTransform e.2) ∧
   ∃ k tag, fields !! k = Some (e.1, tag) ∧ gostrings.Contains tag "index" = true ∧
            rFieldID e.2 = (i + k)%nat).
Proof.
  revert i acc. induction fields as [|[f0 t0] rest IH]; intros i acc He; [by left|].
  simpl in He.
  assert (Hshift : ∀ k tag, rest !! k = Some (e.1, tag) ->
                     gostrings.Contains tag "index" = true ->
                     rFieldID e.2 = (S i + k)%nat ->
                     ∃ k' tag', ((f0, t0) :: rest) !! k' = Some (e.1, tag') ∧
                       gostrings.Contains tag' "index" = true ∧
                       rFieldID e.2 = (i + k')%nat).
  { intros k tag Hk Ht Hr. exists (S k), tag. split; [done|]. split; [done|]. lia. }
  destruct (gostrings.Contains t0 "index") eqn:Ht0.
  - destruct (IH _ _ He) as [Hacc|(H1 & H2 & H3 & k & tag & Hk & Ht & Hr)].
    + apply elem_of_setIndex in Hacc as [->|?]; [right|by left]. simpl.
      split; [done|]. split; [done|]. split; [by eexists|].
      exists 0%nat, t0. split; [done|]. split; [done|]. lia.
    + right. split; [done|]. split; [done|]. split; [done|]. by eapply Hshift.
  - destruct (IH _ _ He) as [Hacc|(H1 & H2 & H3 & k & tag & Hk & Ht & Hr)]; [by left|].
    right. split; [done|]. split; [done|]. split; [done|]. by eapply Hshift.
Qed.

(** X16. The indexes IndexesFor gives are of two sorts and no other: the
    last-generation index, under the empty name and present exactly for a
    versioned kind; and, under the name of a struct field whose tag contains
    "index", a list-generation index that has a value transform and reads the
    field at the position the field has in the struct. *)
Theorem IndexesFor_index_kinds info :
  (∀ f, f ∈ StructFields info -> f.1 ≠ LastGenIndex) ->
  lookupIndex (IndexesFor info) LastGenIndex
    = (if Versioned info then Some (mkIndex IndexTypeLastGen "" None 0) else None) ∧
  ∀ e, e ∈ List (IndexesFor info) ->
    (e = (LastGenIndex, mkIndex IndexTypeLastGen "" None 0) ∧ Versioned info = true) ∨
    (Type_ e.2 = IndexTypeListGen ∧ Field e.2 = e.1 ∧ is_Some (ValueTransform e.2) ∧
     ∃ tag, StructFields info !! rFieldID e.2 = Some (e.1, tag) ∧
            gostrings.Contains tag "index" = true).
Proof.
  intros Hf. split.
  - unfold IndexesFor. rewrite (lookup_fieldIndexes _ _ _ _ _ Hf).
    by destruct (Versioned info).
  - intros e He. unfold IndexesFor in He. simpl in He.
    apply elem_of_fieldIndexes in He as [Hacc|(H1 & H2 & H3 & k & tag & Hk & Ht & Hr)].
    + left. destruct (Versioned info); [|by apply elem_of_nil in Hacc].
      by apply list_elem_of_singleton in Hacc as ->.
    + right. split; [done|]. split; [done|]. split; [done|].
      exists tag. by rewrite Hr.
Qed.

Lemma IndexesFor_index_kinds_witness :
  lookupIndex (IndexesFor clusterInfo) LastGenIndex
    = (if Versioned clusterInfo then Some (mkIndex IndexTypeLastGen "" None 0) else None) ∧
  ∀ e, e ∈ List (IndexesFor clusterInfo) ->
    (e = (LastGenIndex, mkIndex IndexTypeLastGen "" None 0) ∧ Versioned clusterInfo = true) ∨
    (Type_ e.2 = IndexTypeListGen ∧ Field e.2 = e.1 ∧ is_Some (ValueTransform e.2) ∧
     ∃ tag, StructFields clusterInfo !! rFieldID e.2 = Some (e.1, tag) ∧
            gostrings.Contains tag "index" = true).
Proof.
  apply (IndexesFor_index_kinds clusterInfo).
  intros f Hf. apply list_elem_of_lookup_1 in Hf as [k Hk].
  destruct k as [|[|[|k]]]; simpl in Hk; [injection Hk as <-; discriminate..|done].
Defined.

(** X17. An object whose indexed field holds no value (the transformed
    value is nil) gets the empty entry name from the index, so the index
    loop of Save adds its generation to the list kept under the bare key
    [/index/], the same for every key and every field. *)
Theorem nil_value_shares_one_entry s index o prev g st st' transform f :
  Type_ index = IndexTypeListGen ->
  ValueTransform index = Some transform ->
  Fields o !! rFieldID index = Some f ->
  transform f = VNil ->
  saveIndex s o prev g index st = Some st' ->
  Index_NameForStorable index o (codec s) = Some "" ∧
  ∃ before data,
    readValueList s (Get st "/index/") = Some before ∧
    marshalList s (Add before (gostrings.to_bytes (marshalGen s g))) = Some data ∧
    st' = <[ "/index/" := data ]> st.
Proof.
  intros Ht Htr Hf Hnil H.
  assert (Hn : Index_NameForStorable index o (codec s) = Some "").
  { unfold Index_NameForStorable, Index_NameForValue. rewrite Ht. simpl.
    rewrite Hf. simpl. rewrite Htr. simpl. by rewrite Hnil. }
  split; [done|].
  destruct (saveIndex_listgen _ _ _ _ _ _ _ _ H Ht Hn) as (before & data & Hb & Hd & ->).
  by exists before, data.
Qed.

Lemma nil_value_shares_one_entry_witness :
  Index_NameForStorable (mkIndex IndexTypeListGen "Replicas" (Some noopValueTransform) 0)
    unsetKafka (codec plainStore) = Some "" ∧
  ∃ before data,
    readValueList plainStore (Get ∅ "/index/") = Some before ∧
    marshalList plainStore (Add before (gostrings.to_bytes (marshalGen plainStore 1)))
      = Some data ∧
    <[ "/index/" := "L110" ]> ∅ = <[ "/index/" := data ]> (∅ : gmap string string).
Proof.
  apply (nil_value_shares_one_entry plainStore
           (mkIndex IndexTypeListGen "Replicas" (Some noopValueTransform) 0)
           unsetKafka None 1 ∅ (<[ "/index/" := "L110" ]> ∅) noopValueTransform VNil);
    reflexivity.
Defined.

(** X18. The names of index entries: the last-generation index names
    [lastgen/<key>]; a list-generation index names
    [listgen/<key>/<field>=<value>] for a string value and the same with the
    generation in decimal for a generation; for one key, two string values
    get the same entry only when they are the same value, and no
    list-generation entry is a last-generation entry. *)
Theorem index_entry_names index key c :
  (Type_ index = IndexTypeLastGen ->
   ∀ v, Index_NameForValue index key v c = Some ("lastgen/" +:+ key)) ∧
  (Type_ index = IndexTypeListGen ->
   ∀ transform, ValueTransform index = Some transform ->
   (∀ v a, transform v = VString a ->
      Index_NameForValue index key v c
        = Some ("listgen/" +:+ key +:+ "/" +:+ Field index +:+ "=" +:+ a)) ∧
   (∀ v g, transform v = VGeneration g ->
      Index_NameForValue index key v c
        = Some ("listgen/" +:+ key +:+ "/" +:+ Field index +:+ "=" +:+ Generation_String g)) ∧
   (∀ v v' a b, transform v = VString a -> transform v' = VString b ->
      Index_NameForValue index key v c = Index_NameForValue index key v' c -> a = b) ∧
   (∀ v name key', Index_NameForValue index key v c = Some name ->
      name ≠ "lastgen/" +:+ key')).
Proof.
  split.
  - intros Ht v. unfold Index_NameForValue. rewrite Ht. simpl. done.
  - intros Ht transform Htr.
    assert (Hs : ∀ v a, transform v = VString a ->
              Index_NameForValue index key v c
              = Some ("listgen/" +:+ key +:+ "/" +:+ Field index +:+ "=" +:+ a)).
    { intros v a Hv. unfold Index_NameForValue. rewrite Ht. simpl.
      rewrite Htr. simpl. rewrite Hv. reflexivity. }
    split; [done|]. split; [|split].
    + intros v g Hv. unfold Index_NameForValue. rewrite Ht. simpl.
      rewrite Htr. simpl. rewrite Hv. reflexivity.
    + intros v v' a b Hv Hv'. rewrite (Hs _ _ Hv), (Hs _ _ Hv'). intros [= Heq].
      by do 5 apply string_app_inv_head in Heq.
    + intros v name key' Hn.
      unfold Index_NameForValue in Hn. rewrite Ht in Hn. simpl in Hn.
      rewrite Htr in Hn. simpl in Hn.
      destruct (transform v); simpl in Hn.
      * by injection Hn as <-.
      * injection Hn as <-. cbn. discriminate.
      * injection Hn as <-. cbn. discriminate.
      * destruct (Marshal c _); simpl in Hn; [|done]. injection Hn as <-.
        cbn. discriminate.
Qed.

Example replicas_entry_names :
  Index_NameForValue (mkIndex IndexTypeListGen "Replicas" (Some noopValueTransform) 0)
    "p/service/kafka" (VString "3") (codec plainStore)
  = Some "listgen/p/service/kafka/Replicas=3" ∧
  Index_NameForValue (mkIndex IndexTypeListGen "Replicas" (Some noopValueTransform) 0)
    "p/service/kafka" (VGeneration 12) (codec plainStore)
  = Some "listgen/p/service/kafka/Replicas=12" ∧
  Index_NameForValue (mkIndex IndexTypeLastGen "" None 0)
    "p/service/kafka" VNil (codec plainStore)
  = Some "lastgen/p/service/kafka".
Proof. repeat split. Qed.

End Indexes_facts.

(** ** Find: what the finders do *)
Module Find_facts.
Import runtime store etcd.

(** X19. With a result of an accepted type, Find looks nothing up. By key
    prefix, or by key without a field condition, it returns no error and leaves
    the result as it was. In every other case it appends two new objects of
    the kind to a slice result, whatever the options ask for, and panics on a
    result that is a single object. *)
Theorem Find_finders_are_stubs info result findOpts v :
  resultType result = NewType info ∨
    resultType result = reflect.PtrTo (reflect.SliceOf (NewType info)) ->
  target result = Some v ->
  (GetKeyPrefix findOpts ≠ "" ∨ (GetKey findOpts ≠ "" ∧ GetFieldEqName findOpts = "") ->
   (Find info result findOpts).1 = (Ok, Some v)) ∧
  (GetKeyPrefix findOpts = "" ->
   GetKey findOpts = "" ∨ GetFieldEqName findOpts ≠ "" ->
   (Find info result findOpts).1 =
     match v with
     | Many l => (Ok, Some (Many (l ++ [New info; New info])))
     | One _ => (Panic, Some v)
     end).
Proof.
  intros Hty Hv. unfold Find. rewrite Hv.
  assert (Hcheck : ∃ resultList,
            (if decide (resultType result = NewType info) then Some false
             else if decide (resultType result
                             = reflect.PtrTo (reflect.SliceOf (NewType info)))
                  then Some true else None) = Some resultList).
  { destruct Hty as [Hty|Hty]; rewrite Hty.
    - exists false. by rewrite decide_True.
    - destruct (decide _); [by exists false|]. exists true. by rewrite decide_True. }
  destruct Hcheck as [resultList Hcheck]. simpl. rewrite Hcheck.
  split.
  - intros [Hp|Hk].
    + by rewrite decide_True.
    + destruct (decide (GetKeyPrefix findOpts ≠ "")); [done|].
      by rewrite decide_True.
  - intros Hp Hk.
    rewrite decide_False by (intros Hne; by apply Hne).
    rewrite decide_False by (intros [Hk1 Hk2]; by destruct Hk).
    unfold findByPredicate. destruct v as [o|l]; simpl; [done|].
    by rewrite <- app_assoc.
Qed.

Lemma Find_finders_are_stubs_witness :
  let info := plain.serviceInfo in
  let result := mkResult (reflect.TPtr (reflect.TSlice (NewType info)))
                  (Some (Many [plain.kafka 1 "1"])) in
  let findOpts := mkFindOpts "" "p/service/kafka" "Replicas" in
  (GetKeyPrefix findOpts ≠ "" ∨ (GetKey findOpts ≠ "" ∧ GetFieldEqName findOpts = "") ->
   (Find info result findOpts).1 = (Ok, Some (Many [plain.kafka 1 "1"]))) ∧
  (GetKeyPrefix findOpts = "" ->
   GetKey findOpts = "" ∨ GetFieldEqName findOpts ≠ "" ->
   (Find info result findOpts).1 =
     (Ok, Some (Many ([plain.kafka 1 "1"] ++ [New info; New info])))).
Proof.
  apply (Find_finders_are_stubs plain.serviceInfo
           (mkResult (reflect.TPtr (reflect.TSlice (NewType plain.serviceInfo)))
              (Some (Many [plain.kafka 1 "1"])))
           (mkFindOpts "" "p/service/kafka" "Replicas")
           (Many [plain.kafka 1 "1"])).
  - by right.
  - reflexivity.
Defined.

End Find_facts.

(** ** New: the prefix of the key space *)
Module New_facts.
Import etcd_New.

Lemma inCutset_slash c : gostrings.inCutset c "/" = Ascii.eqb c "/".
Proof. unfold gostrings.inCutset. simpl. apply orb_false_r. Qed.

Lemma TrimRight_cons c s cutset :
  gostrings.TrimRight (String c s) cutset =
    match gostrings.TrimRight s cutset with
    | EmptyString => if gostrings.inCutset c cutset then EmptyString else String c EmptyString
    | r => String c r
    end.
Proof. done. Qed.

Lemma TrimRight_slashes m : gostrings.TrimRight (gostrings.Repeat "/" m) "/" = "".
Proof.
  induction m as [|m IH]; [done|].
  change (gostrings.Repeat "/" (S m)) with (String "/" (gostrings.Repeat "/" m)).
  by rewrite TrimRight_cons, IH.
Qed.

Lemma TrimRight_body body m :
  (∀ init, body ≠ init +:+ "/") ->
  gostrings.TrimRight (body +:+ gostrings.Repeat "/" m) "/" = body.
Proof.
  induction body as [|c body IH]; intros Hend.
  - apply TrimRight_slashes.
  - change (String c body +:+ gostrings.Repeat "/" m)
      with (String c (body +:+ gostrings.Repeat "/" m)).
    rewrite TrimRight_cons, IH.
    + destruct body as [|c' body]; [|done].
      rewrite inCutset_slash.
      destruct (Ascii.eqb_spec c "/") as [->|Hne]; [|done].
      by destruct (Hend "").
    + intros init ->. by destruct (Hend (String c init)).
Qed.

Lemma TrimLeft_slashes n s :
  gostrings.TrimLeft (gostrings.Repeat "/" n +:+ s) "/" = gostrings.TrimLeft s "/".
Proof. induction n as [|n IH]; [done|]. exact IH. Qed.

Lemma TrimLeft_body body :
  (∀ rest, body ≠ "/" +:+ rest) -> gostrings.TrimLeft body "/" = body.
Proof.
  intros Hstart. destruct body as [|c body]; [done|]. simpl.
  rewrite inCutset_slash.
  destruct (Ascii.eqb_spec c "/") as [->|Hne]; [|done].
  by destruct (Hstart body).
Qed.

Lemma string_app_assoc a b c : (a +:+ b) +:+ c = a +:+ b +:+ c.
Proof.
  induction a as [|x a IH]; [done|].
  change (String x ((a +:+ b) +:+ c) = String x (a +:+ b +:+ c)). by rewrite IH.
Qed.

Lemma Trim_outer_slashes n body m :
  (∀ rest, body ≠ "/" +:+ rest) ->
  (∀ init, body ≠ init +:+ "/") ->
  gostrings.Trim (gostrings.Repeat "/" n +:+ body +:+ gostrings.Repeat "/" m) "/" = body.
Proof.
  intros Hstart Hend. unfold gostrings.Trim.
  destruct body as [|c body].
  - replace (gostrings.Repeat "/" n +:+ "" +:+ gostrings.Repeat "/" m)
      with (gostrings.Repeat "/" (n + m)).
    + by rewrite TrimRight_slashes.
    + induction n as [|n IH]; [done|]. simpl. by rewrite IH.
  - rewrite <- string_app_assoc, TrimRight_body.
    + rewrite TrimLeft_slashes. by apply TrimLeft_body.
    + intros init Heq.
      assert (Hsplit : ∀ k init', gostrings.Repeat "/" k +:+ String c body = init' +:+ "/" ->
                ∃ init'', String c body = init'' +:+ "/").
      { clear. induction k as [|k IH]; intros init' Heq; [by exists init'|].
        destruct init' as [|c' init']; [by destruct k|].
        injection Heq as _ Heq. by eapply IH. }
      destruct (Hsplit n init Heq) as [init'' Heq']. by destruct (Hend init'').
Qed.

(** X20. New ignores the slashes around the configured prefix: with any
    number of them before and after a body that neither begins nor ends in a
    slash, the client is namespaced under one slash and the body, and is
    not namespaced when the body is empty. It is made with the configured
    endpoints, or with [localhost:2379] when none is configured; when no
    client can be made, the cause comes back as the error. *)
Theorem New_ignores_outer_slashes cfg dial n body m :
  Prefix cfg = gostrings.Repeat "/" n +:+ body +:+ gostrings.Repeat "/" m ->
  (∀ rest, body ≠ "/" +:+ rest) ->
  (∀ init, body ≠ init +:+ "/") ->
  let endpoints :=
    match Endpoints cfg with [] => ["localhost:2379"] | _ => Endpoints cfg end in
  New cfg dial =
    match dial endpoints with
    | Some cause => ConnectError cause
    | None =>
        Store (mkClient endpoints
                 (if decide (body = "") then None else Some ("/" +:+ body)))
    end.
Proof.
  intros Hp Hstart Hend endpoints. unfold New.
  assert (He : (if decide (length (Endpoints cfg) = 0%nat) then ["localhost:2379"]
                else Endpoints cfg) = endpoints).
  { unfold endpoints. by destruct (Endpoints cfg). }
  rewrite He. destruct (dial endpoints) as [cause|]; [done|]. simpl.
  rewrite Hp, (Trim_outer_slashes _ _ _ Hstart Hend).
  destruct (decide (body = "")) as [->|Hne].
  - by rewrite decide_False by (intros H; by apply H).
  - by rewrite decide_True.
Qed.

Lemma New_ignores_outer_slashes_witness :
  New (mkConfig [] "//aptomi/dev/") (fun _ => None)
  = Store (mkClient ["localhost:2379"] (Some "/aptomi/dev")).
Proof.
  apply (New_ignores_outer_slashes (mkConfig [] "//aptomi/dev/") (fun _ => None)
           2 "aptomi/dev" 1).
  - reflexivity.
  - intros rest. discriminate.
  - intros init Heq.
    repeat (destruct init as [|? init]; [discriminate|injection Heq as _ Heq]).
    by destruct init.
Defined.

End New_facts.

(** ** The handlers that read the policy *)
Module api_get_facts.
Import runtime api_get.

(** X21. A request without a gen parameter is answered as the request
    with gen=0: both handlers take the empty parameter for the decimal of
    LastOrEmptyGen. *)
Theorem handlers_default_generation D registry params :
  params "gen" = "" ->
  handlePolicyGet D registry params
    = handlePolicyGet D registry (withParam "gen" "0" params) ∧
  handlePolicyObjectGet D registry params
    = handlePolicyObjectGet D registry (withParam "gen" "0" params).
Proof.
  intros Hgen. unfold handlePolicyGet, handlePolicyObjectGet, withParam.
  rewrite Hgen. simpl.
  change (strconv.Itoa (Z.of_N LastOrEmptyGen)) with "0".
  split; reflexivity.
Qed.

Lemma handlers_default_generation_witness :
  handlePolicyGet toyDeps toyRegistry (toyRequest "service" "kafka")
    = handlePolicyGet toyDeps toyRegistry
        (withParam "gen" "0" (toyRequest "service" "kafka")) ∧
  handlePolicyObjectGet toyDeps toyRegistry (toyRequest "service" "kafka")
    = handlePolicyObjectGet toyDeps toyRegistry
        (withParam "gen" "0" (toyRequest "service" "kafka")).
Proof.
  apply (handlers_default_generation toyDeps toyRegistry (toyRequest "service" "kafka")).
  reflexivity.
Defined.

(** X22. For a gen parameter that parses (the empty one read as 0):
    handlePolicyGet panics exactly when the registry returns an error, answers
    with the single not-found call exactly when the registry has no policy of
    that generation, and with the single write of the policy data exactly when
    it has one. handlePolicyObjectGet panics when the registry returns an error
    for the policy or the policy for the object, answers with the single write
    of the object exactly when the policy has the object of that kind, name and
    namespace, and with two calls exactly when it has none: the not-found
    status, and after it the plain write of the nil object. *)
Theorem get_handlers_answers D registry params generation :
  ParseGeneration D (if decide (params "gen" = "") then "0" else params "gen")
    = Some generation ->
  let policyData := GetPolicyData D registry generation in
  let get := handlePolicyGet D registry params in
  let getObject := handlePolicyObjectGet D registry params in
  ((policyData = None ↔ get = Panicked) ∧
   (policyData = Some None ↔ get = Wrote [WriteOneWithStatus None StatusNotFound]) ∧
   (∀ data, policyData = Some (Some data) ↔ get = Wrote [WriteOne (Some data)])) ∧
  (GetPolicy D registry generation = None -> getObject = Panicked) ∧
  (∀ policy, GetPolicy D registry generation = Some policy ->
     let object := GetObject D policy (params "kind") (params "name") (params "ns") in
     (object = None ↔ getObject = Panicked) ∧
     (object = Some None ↔
        getObject = Wrote [WriteOneWithStatus None StatusNotFound; WriteOne None]) ∧
     (∀ obj, object = Some (Some obj) ↔ getObject = Wrote [WriteOne (Some obj)])).
Proof.
  intros Hgen. cbv zeta.
  assert (Hparse : ParseGeneration D
            (if decide (String.length (params "gen") = 0%nat)
             then strconv.Itoa (Z.of_N LastOrEmptyGen) else params "gen")
          = Some generation).
  { rewrite <- Hgen. change (strconv.Itoa (Z.of_N LastOrEmptyGen)) with "0".
    destruct (params "gen"); by repeat case_decide. }
  unfold handlePolicyGet, handlePolicyObjectGet. cbv zeta. rewrite Hparse.
  split; [|split].
  - destruct (GetPolicyData D registry generation) as [[data|]|];
      repeat split; try done; try (by intros [=]); intros [=]; by subst.
  - by intros ->.
  - intros policy ->.
    destruct (GetObject D policy _ _ _) as [[obj|]|];
      repeat split; try done; try (by intros [=]); intros [=]; by subst.
Qed.

Lemma get_handlers_answers_witness :
  let D := toyDeps in
  let params := toyRequest "service" "zoo" in
  let policyData := GetPolicyData D toyRegistry 0 in
  let get := handlePolicyGet D toyRegistry params in
  let getObject := handlePolicyObjectGet D toyRegistry params in
  ((policyData = None ↔ get = Panicked) ∧
   (policyData = Some None ↔ get = Wrote [WriteOneWithStatus None StatusNotFound]) ∧
   (∀ data, policyData = Some (Some data) ↔ get = Wrote [WriteOne (Some data)])) ∧
  (GetPolicy D toyRegistry 0 = None -> getObject = Panicked) ∧
  (∀ policy, GetPolicy D toyRegistry 0 = Some policy ->
     let object := GetObject D policy (params "kind") (params "name") (params "ns") in
     (object = None ↔ getObject = Panicked) ∧
     (object = Some None ↔
        getObject = Wrote [WriteOneWithStatus None StatusNotFound; WriteOne None]) ∧
     (∀ obj, object = Some (Some obj) ↔ getObject = Wrote [WriteOne (Some obj)])).
Proof.
  apply (get_handlers_answers toyDeps toyRegistry (toyRequest "service" "zoo") 0).
  reflexivity.
Defined.

Example object_found_and_not_found :
  handlePolicyObjectGet toyDeps toyRegistry (toyRequest "service" "kafka")
    = Wrote [WriteOne (Some ("service", "kafka"))] ∧
  handlePolicyObjectGet toyDeps toyRegistry (toyRequest "service" "zoo")
    = Wrote [WriteOneWithStatus None StatusNotFound; WriteOne None] ∧
  handlePolicyGet toyDeps toyRegistry (withParam "gen" "2" (toyRequest "" ""))
    = Wrote [WriteOneWithStatus None StatusNotFound].
Proof. repeat split. Qed.

End api_get_facts.

(** ** PolicyUpdateResult as columns *)
Module api_columns_facts.
Import runtime api api_columns plain_facts.

Section Columns.
Context (W : World).
Variable PlanAsText_String : PlanAsText W -> string.
Variable Generation_minus_1 : Generation -> Generation.

Lemma string_app_nonempty a b : a ≠ "" -> a +:+ b ≠ "".
Proof. by destruct a. Qed.

(** X23. AsColumns has a value for each of the default columns and for
    no other, and no value is empty: an unchanged policy shows its generation
    in decimal, and an action plan whose text is empty shows as "(none)". *)
Theorem AsColumns_fills_default_columns (result : PolicyUpdateResult W) :
  let columns := AsColumns W PlanAsText_String Generation_minus_1 result in
  (∀ c, is_Some (columns !! c) ↔ c ∈ GetDefaultColumns W result) ∧
  (∀ c v, columns !! c = Some v -> v ≠ "") ∧
  (PolicyChanged W result = false ->
   columns !! "Policy Generation" = Some (Generation_String (PolicyGeneration W result))) ∧
  (columns !! "Action Plan" =
     Some (if decide (PlanAsText_String (PlanAsText_ W result) = "") then "(none)"
           else PlanAsText_String (PlanAsText_ W result))).
Proof.
  cbv zeta. unfold AsColumns, GetDefaultColumns.
  set (plan := PlanAsText_String (PlanAsText_ W result)).
  assert (Hplan : (if decide (String.length plan <= 0)%nat then "(none)" else plan)
                  = (if decide (plan = "") then "(none)" else plan)).
  { clearbody plan.
    destruct plan as [|c plan]; repeat case_decide; simpl in *; try done; lia. }
  rewrite Hplan. clear Hplan.
  split; [|split; [|split]].
  - intros c. rewrite !elem_of_cons, elem_of_nil.
    rewrite lookup_insert_is_Some, lookup_insert_is_Some, lookup_empty.
    split.
    + intros [<-|[? [<-|[? []%is_Some_None]]]]; auto.
    + intros [->|[->|[]]]; [by left|]. right. split; [done|]. by left.
  - intros c v.
    destruct (decide (c = "Policy Generation")) as [->|Hc1].
    { rewrite lookup_insert_eq. intros [= <-].
      destruct (PolicyChanged W result).
      - apply string_app_nonempty, Generation_String_nonempty.
      - apply Generation_String_nonempty. }
    rewrite lookup_insert_ne by done.
    destruct (decide (c = "Action Plan")) as [->|Hc2].
    { rewrite lookup_insert_eq. intros [= <-]. by destruct (decide (plan = "")). }
    by rewrite lookup_insert_ne, lookup_empty.
  - intros ->. by rewrite lookup_insert_eq.
  - rewrite lookup_insert_ne by done. by rewrite lookup_insert_eq.
Qed.

End Columns.

End api_columns_facts.

(** ** The policy handlers: what a change of the registry takes *)
Module handlers_facts.
Import runtime api api_facts.

Section Handlers.
Context (W : World).

(** The part the two handlers share: what it takes to change the
    registry, and what a response tells. *)
Lemma resolveAndApply_effects reg objects user params policyGen desiredState
    policyUpdated ops logName delete :
  let h := resolveAndApply W reg objects user params policyGen desiredState
             policyUpdated ops logName delete in
  let desiredStateUpdated :=
    (ResolveAllClaims W policyUpdated (parseLogLevel W params) logName).1 in
  let change :=
    if delete then DeleteFromPolicy W reg objects (User_Name W user)
    else UpdatePolicy W reg objects (User_Name W user) in
  (response W h = None -> enforcementSignal W h = false) ∧
  (registry W h ≠ reg ->
   parseNoop params = false ∧
   Resolution_Validate W desiredStateUpdated policyUpdated = true) ∧
  ∀ r, response W h = Some r ->
    TypeKind W r = TypePolicyUpdateResult_Kind W ∧
    enforcementSignal W h = PolicyChanged W r ∧
    (PolicyChanged W r = false ->
     WaitForRevision W r = MaxGeneration W ∧
     (registry W h = reg ∧ PolicyGeneration W r = policyGen ∧ parseNoop params = true
      ∨ ∃ policyData,
          change = (registry W h, Some (false, policyData)) ∧
          PolicyGeneration W r = PolicyData_GetGeneration W policyData)) ∧
    (PolicyChanged W r = true ->
     ∃ reg1 policyData revision,
       change = (reg1, Some (true, policyData)) ∧
       NewRevision W reg1 (PolicyData_GetGeneration W policyData) desiredStateUpdated false
         = (registry W h, Some revision) ∧
       PolicyGeneration W r = PolicyData_GetGeneration W policyData ∧
       WaitForRevision W r = Revision_GetGeneration W revision).
Proof.
  cbv zeta. unfold resolveAndApply.
  destruct (ResolveAllClaims W policyUpdated (parseLogLevel W params) logName)
    as [desiredStateUpdated eventLog]. simpl.
  destruct (Resolution_Validate W desiredStateUpdated policyUpdated); simpl; [|done].
  destruct (parseNoop params) eqn:Hnoop.
  { simpl. split; [done|]. split; [done|]. intros r [= <-]. simpl.
    split; [done|]. split; [done|]. split; [|done].
    intros _. split; [done|]. by left. }
  unfold changePolicy.
  destruct (if delete then DeleteFromPolicy W reg objects (User_Name W user)
            else UpdatePolicy W reg objects (User_Name W user))
    as [reg1 [[changed policyData]|]]; [|done].
  destruct changed.
  - destruct (NewRevision W reg1 _ desiredStateUpdated false) as [reg2 [revision|]] eqn:Hrev;
      [|done].
    simpl. split; [done|]. split; [done|]. intros r [= <-]. simpl.
    split; [done|]. split; [done|]. split; [done|].
    intros _. by exists reg1, policyData, revision.
  - simpl. split; [done|]. split; [done|]. intros r [= <-]. simpl.
    split; [done|]. split; [done|]. split; [|done].
    intros _. split; [done|]. right. by exists policyData.
Qed.

(** X24. A handler changes the registry only after every check has
    passed: the request is not a noop, the registry was read, every object
    of the request, in the order of the sort, passed ManageObject on the policy
    copy and was added to it (or removed from it), the copy with these objects
    applied validated, the resolution of that copy validated for it and, for an
    update, every cluster among the objects was validated by its plugin. *)
Theorem registry_changes_need_all_checks reg objects user params :
  SortSpec W ->
  let hu := handlePolicyUpdate W reg objects user params in
  let hd := handlePolicyDelete W reg objects user params in
  let added := Sort W (Less W) objects in
  let removed := Sort W (Reverse W (Less W)) objects in
  (registry W hu ≠ reg ->
   parseNoop params = false ∧
   (∀ obj, obj ∈ objects ->
      OpManage W obj true ∈ policyOps W hu ∧ OpAdd W obj true ∈ policyOps W hu ∧
      clusterValid W obj = true) ∧
   ∃ policyGen desiredState policyCopy policyUpdated,
     loads W reg policyGen desiredState policyCopy ∧
     addAll W user added policyCopy = Some policyUpdated ∧
     policyOps W hu = addCalls W added ∧
     Policy_Validate W policyUpdated = true ∧
     resolves W params "api-policy-update" policyUpdated) ∧
  (registry W hd ≠ reg ->
   parseNoop params = false ∧
   (∀ obj, obj ∈ objects ->
      OpManage W obj true ∈ policyOps W hd ∧ OpRemove W obj ∈ policyOps W hd) ∧
   ∃ policyGen desiredState policyCopy policyUpdated,
     loads W reg policyGen desiredState policyCopy ∧
     removeAll W user removed policyCopy = Some policyUpdated ∧
     policyOps W hd = removeCalls W removed ∧
     Policy_Validate W policyUpdated = true ∧
     resolves W params "api-policy-delete" policyUpdated).
Proof.
  intros Hsort. cbv zeta.
  destruct (loads_or_not W reg) as [(policyGen & desiredState & policyCopy & Hloads)|Hnot].
  2: { by destruct (handlers_not_loaded W reg objects user params Hnot) as [-> ->]. }
  split.
  - rewrite (handlePolicyUpdate_loaded W _ _ _ _ _ _ _ Hloads). cbv zeta.
    destruct (addAll W user _ policyCopy) as [policyUpdated|] eqn:Hall; [|done].
    pose proof (addObjects_calls W _ _ _ _ Hall) as Hcalls.
    destruct (Policy_Validate W policyUpdated) eqn:Hvalid; [|done].
    destruct (forallb _ _) eqn:Hclusters; [|done].
    simpl. intros Hreg.
    destruct (resolveAndApply_effects reg (Sort W (Less W) objects) user params policyGen
                desiredState policyUpdated (addObjects W user (Sort W (Less W) objects)
                policyCopy).1 "api-policy-update" false)
      as (_ & Hchange & _).
    destruct (Hchange Hreg) as [Hnoop Hres].
    rewrite resolveAndApply_ops, Hcalls.
    split; [done|]. split.
    + intros obj Hobj.
      assert (Hin : obj ∈ Sort W (Less W) objects) by by rewrite (Sort_Less_perm W _ Hsort).
      split; [|split].
      * unfold addCalls. apply list_elem_of_bind. exists obj. split; [by left|done].
      * unfold addCalls. apply list_elem_of_bind. exists obj.
        split; [right; by left|done].
      * rewrite forallb_forall in Hclusters. apply Hclusters. by apply list_elem_of_In.
    + by exists policyGen, desiredState, policyCopy, policyUpdated.
  - rewrite (handlePolicyDelete_loaded W _ _ _ _ _ _ _ Hloads). cbv zeta.
    destruct (removeAll W user _ policyCopy) as [policyUpdated|] eqn:Hall; [|done].
    pose proof (removeObjects_calls W _ _ _ _ Hall) as Hcalls.
    destruct (Policy_Validate W policyUpdated) eqn:Hvalid; [|done].
    simpl. intros Hreg.
    destruct (resolveAndApply_effects reg (Sort W (Reverse W (Less W)) objects) user params
                policyGen desiredState policyUpdated
                (removeObjects W user (Sort W (Reverse W (Less W)) objects) policyCopy).1
                "api-policy-delete" true)
      as (_ & Hchange & _).
    destruct (Hchange Hreg) as [Hnoop Hres].
    rewrite resolveAndApply_ops, Hcalls.
    split; [done|]. split.
    + intros obj Hobj.
      assert (Hin : obj ∈ Sort W (Reverse W (Less W)) objects)
        by by rewrite (Sort_Reverse_perm W _ Hsort).
      split.
      * unfold removeCalls. apply list_elem_of_bind. exists obj. split; [by left|done].
      * unfold removeCalls. apply list_elem_of_bind. exists obj.
        split; [right; by left|done].
    + by exists policyGen, desiredState, policyCopy, policyUpdated.
Qed.

Lemma handlePolicyUpdate_cases reg objects user params :
  ∃ ops,
    handlePolicyUpdate W reg objects user params = panicked W reg ops ∨
    ∃ policyGen desiredState policyUpdated,
      handlePolicyUpdate W reg objects user params =
        resolveAndApply W reg (Sort W (Less W) objects) user params policyGen
          desiredState policyUpdated ops "api-policy-update" false.
Proof.
  unfold handlePolicyUpdate.
  destruct (GetPolicy W reg LastOrEmptyGen) as [[policy policyGen]|]; [|eauto].
  destruct (GetLastRevisionForPolicy W reg policyGen) as [revision|]; [|eauto].
  destruct (GetDesiredState W reg revision) as [desiredState|]; [|eauto].
  destruct (GetPolicy W reg policyGen) as [[policy0 ?]|]; [|eauto].
  destruct (addObjects W user _ policy0) as [ops [policyUpdated|]]; [|eauto].
  destruct (Policy_Validate W policyUpdated); [|eauto].
  destruct (forallb _ _); [|eauto].
  exists ops. right. by exists policyGen, desiredState, policyUpdated.
Qed.

Lemma handlePolicyDelete_cases reg objects user params :
  ∃ ops,
    handlePolicyDelete W reg objects user params = panicked W reg ops ∨
    ∃ policyGen desiredState policyUpdated,
      handlePolicyDelete W reg objects user params =
        resolveAndApply W reg (Sort W (Reverse W (Less W)) objects) user params
          policyGen desiredState policyUpdated ops "api-policy-delete" true.
Proof.
  unfold handlePolicyDelete.
  destruct (GetPolicy W reg LastOrEmptyGen) as [[policy policyGen]|]; [|eauto].
  destruct (GetLastRevisionForPolicy W reg policyGen) as [revision|]; [|eauto].
  destruct (GetDesiredState W reg revision) as [desiredState|]; [|eauto].
  destruct (GetPolicy W reg policyGen) as [[policy0 ?]|]; [|eauto].
  destruct (removeObjects W user _ policy0) as [ops [policyUpdated|]]; [|eauto].
  destruct (Policy_Validate W policyUpdated); [|eauto].
  exists ops. right. by exists policyGen, desiredState, policyUpdated.
Qed.

Lemma handler_response reg sorted user params logName delete ops (h : handled W) :
  (h = panicked W reg ops ∨
   ∃ policyGen desiredState policyUpdated,
     h = resolveAndApply W reg sorted user params policyGen desiredState policyUpdated
           ops logName delete) ->
  (response W h = None -> enforcementSignal W h = false) ∧
  ∀ r, response W h = Some r ->
    TypeKind W r = TypePolicyUpdateResult_Kind W ∧
    enforcementSignal W h = PolicyChanged W r ∧
    (PolicyChanged W r = false -> WaitForRevision W r = MaxGeneration W) ∧
    (PolicyChanged W r = true ->
     ∃ reg1 policyData desiredStateUpdated revision,
       (if delete then DeleteFromPolicy W reg sorted (User_Name W user)
        else UpdatePolicy W reg sorted (User_Name W user))
         = (reg1, Some (true, policyData)) ∧
       NewRevision W reg1 (PolicyData_GetGeneration W policyData) desiredStateUpdated false
         = (registry W h, Some revision) ∧
       PolicyGeneration W r = PolicyData_GetGeneration W policyData ∧
       WaitForRevision W r = Revision_GetGeneration W revision).
Proof.
  intros [->|(policyGen & desiredState & policyUpdated & ->)]; [done|].
  destruct (resolveAndApply_effects reg sorted user params policyGen desiredState
              policyUpdated ops logName delete) as (H1 & _ & H3).
  split; [done|]. intros r Hr. destruct (H3 r Hr) as (Hk & Hs & Hf & Ht).
  split; [done|]. split; [done|]. split.
  - intros Hc. by destruct (Hf Hc).
  - intros Hc. destruct (Ht Hc) as (reg1 & policyData & revision & ? & ? & ? & ?).
    by eexists reg1, policyData, _, revision.
Qed.

(** X25. What the response of a handler tells. The enforcement channel is
    signalled exactly when the response says that the policy changed, and
    never by a handler that panics. A response that says so carries the
    generation of the policy data that the registry returned for the change and,
    as the revision to wait for, the generation of the revision made for it;
    one that does not asks to wait for MaxGeneration. *)
Theorem response_tells_the_change reg objects user params :
  let hu := handlePolicyUpdate W reg objects user params in
  let hd := handlePolicyDelete W reg objects user params in
  ((response W hu = None -> enforcementSignal W hu = false) ∧
   ∀ r, response W hu = Some r ->
     TypeKind W r = TypePolicyUpdateResult_Kind W ∧
     enforcementSignal W hu = PolicyChanged W r ∧
     (PolicyChanged W r = false -> WaitForRevision W r = MaxGeneration W) ∧
     (PolicyChanged W r = true ->
      ∃ reg1 policyData desiredStateUpdated revision,
        UpdatePolicy W reg (Sort W (Less W) objects) (User_Name W user)
          = (reg1, Some (true, policyData)) ∧
        NewRevision W reg1 (PolicyData_GetGeneration W policyData) desiredStateUpdated false
          = (registry W hu, Some revision) ∧
        PolicyGeneration W r = PolicyData_GetGeneration W policyData ∧
        WaitForRevision W r = Revision_GetGeneration W revision)) ∧
  ((response W hd = None -> enforcementSignal W hd = false) ∧
   ∀ r, response W hd = Some r ->
     TypeKind W r = TypePolicyUpdateResult_Kind W ∧
     enforcementSignal W hd = PolicyChanged W r ∧
     (PolicyChanged W r = false -> WaitForRevision W r = MaxGeneration W) ∧
     (PolicyChanged W r = true ->
      ∃ reg1 policyData desiredStateUpdated revision,
        DeleteFromPolicy W reg (Sort W (Reverse W (Less W)) objects) (User_Name W user)
          = (reg1, Some (true, policyData)) ∧
        NewRevision W reg1 (PolicyData_GetGeneration W policyData) desiredStateUpdated false
          = (registry W hd, Some revision) ∧
        PolicyGeneration W r = PolicyData_GetGeneration W policyData ∧
        WaitForRevision W r = Revision_GetGeneration W revision)).
Proof.
  cbv zeta. split.
  - destruct (handlePolicyUpdate_cases reg objects user params) as [ops Hcases].
    exact (handler_response reg _ user params _ false ops _ Hcases).
  - destruct (handlePolicyDelete_cases reg objects user params) as [ops Hcases].
    exact (handler_response reg _ user params _ true ops _ Hcases).
Qed.

End Handlers.

End handlers_facts.


(** ** The loader of test policies *)
Module lang_loader_facts.
Import lang_loader.

Lemma Strings_sorted x : StronglySorted String.le (gosort.Strings x).
Proof. apply StronglySorted_merge_sort; apply _. Qed.

Lemma Strings_perm x : gosort.Strings x ≡ₚ x.
Proof. apply merge_sort_Permutation. Qed.

Lemma Strings_permutation x y : x ≡ₚ y -> gosort.Strings x = gosort.Strings y.
Proof.
  intros Hxy. apply (StronglySorted_unique String.le); [apply Strings_sorted..|].
  by rewrite !Strings_perm.
Qed.

Section Loader.
Context {Base : Type}.
Variable ReadFile : string -> result string.
Variable MarshalMany : list Base -> result string.
Variable UnmarshalOneOrMany : string -> result (list Base).

(** X26. LoadObjects does not depend on the order in which the files are
    found: it sorts the paths first, so two listings of the same files give
    the same objects, or the same error. *)
Theorem LoadObjects_order_independent glob glob' :
  glob ≡ₚ glob' ->
  LoadObjects ReadFile MarshalMany UnmarshalOneOrMany glob
  = LoadObjects ReadFile MarshalMany UnmarshalOneOrMany glob'.
Proof. intros Hperm. unfold LoadObjects. by rewrite (Strings_permutation _ _ Hperm). Qed.

Lemma loadFiles_Value files loaded result :
  loadFiles ReadFile UnmarshalOneOrMany files loaded = Value result ->
  ∃ contents,
    Forall2 (fun f objects =>
               loadObjectsFromFile ReadFile UnmarshalOneOrMany f = Value objects)
      (filter (fun f => gostrings.Contains f "external" = false) files) contents ∧
    result = loaded ++ concat contents.
Proof.
  revert loaded. induction files as [|f rest IH]; intros loaded H; simpl in H.
  - injection H as <-. exists []. split; [constructor|]. by rewrite app_nil_r.
  - destruct (gostrings.Contains f "external") eqn:Hext; simpl in H.
    + rewrite filter_cons_False by (by rewrite Hext). by apply IH.
    + rewrite filter_cons_True by done.
      destruct (loadObjectsFromFile ReadFile UnmarshalOneOrMany f) as [objects|err] eqn:Hf;
        [|done].
      destruct (IH _ H) as (contents & Hall & ->).
      exists (objects :: contents). split; [by constructor|].
      simpl. by rewrite app_assoc.
Qed.

Lemma loadFiles_Error files loaded msg :
  loadFiles ReadFile UnmarshalOneOrMany files loaded = Error msg ->
  ∃ f err, f ∈ files ∧ gostrings.Contains f "external" = false ∧
    loadObjectsFromFile ReadFile UnmarshalOneOrMany f = Error err ∧
    msg = "Error while loading objects from file " +:+ f +:+ ": " +:+ err.
Proof.
  revert loaded. induction files as [|f rest IH]; intros loaded H; simpl in H; [done|].
  destruct (gostrings.Contains f "external") eqn:Hext; simpl in H.
  - destruct (IH _ H) as (f' & err & Hin & ?). exists f', err. split; [by right|done].
  - destruct (loadObjectsFromFile ReadFile UnmarshalOneOrMany f) as [objects|err] eqn:Hf.
    + destruct (IH _ H) as (f' & err & Hin & ?). exists f', err. split; [by right|done].
    + injection H as <-. exists f, err. split; [by left|done].
Qed.

(** X27. What LoadObjects returns. Its objects are what the codec reads
    back from what it wrote for the objects of the files, taken in the order
    of the sorted paths and without the files that have "external" in their
    path. Its error is the error of one of those files, with the path in
    the text, or the error of the codec on the way out or back. *)
Theorem LoadObjects_round_trips_the_files glob :
  (∀ result,
     LoadObjects ReadFile MarshalMany UnmarshalOneOrMany glob = Value result ->
     ∃ contents data,
       Forall2 (fun f objects =>
                  loadObjectsFromFile ReadFile UnmarshalOneOrMany f = Value objects)
         (filter (fun f => gostrings.Contains f "external" = false) (gosort.Strings glob))
         contents ∧
       MarshalMany (concat contents) = Value data ∧
       UnmarshalOneOrMany data = Value result) ∧
  (∀ msg,
     LoadObjects ReadFile MarshalMany UnmarshalOneOrMany glob = Error msg ->
     (∃ f err, f ∈ glob ∧ gostrings.Contains f "external" = false ∧
        loadObjectsFromFile ReadFile UnmarshalOneOrMany f = Error err ∧
        msg = "Error while loading objects from file " +:+ f +:+ ": " +:+ err) ∨
     (∃ err, msg = "Error marshaling loaded objects: " +:+ err) ∨
     (∃ err, msg = "Error unmarshaling loaded objects: " +:+ err)).
Proof.
  unfold LoadObjects. cbv zeta.
  destruct (loadFiles ReadFile UnmarshalOneOrMany (gosort.Strings glob) [])
    as [loaded|err] eqn:Hload.
  - destruct (loadFiles_Value _ _ _ Hload) as (contents & Hall & ->). simpl.
    destruct (MarshalMany (concat contents)) as [data|err] eqn:Hm.
    + destruct (UnmarshalOneOrMany data) as [loaded|err] eqn:Hu.
      * split; [|done]. intros result [= <-]. by exists contents, data.
      * split; [done|]. intros msg [= <-]. right. right. by exists err.
    + split; [done|]. intros msg [= <-]. right. left. by exists err.
  - split; [done|]. intros msg [= <-]. left.
    destruct (loadFiles_Error _ _ _ Hload) as (f & err' & Hin & Hext & Hf & ->).
    exists f, err'. split; [|done]. by rewrite <- (Strings_perm glob).
Qed.

Lemma loadFiles_agree ReadFile' files loaded :
  (∀ f, gostrings.Contains f "external" = false -> ReadFile f = ReadFile' f) ->
  loadFiles ReadFile UnmarshalOneOrMany files loaded
  = loadFiles ReadFile' UnmarshalOneOrMany files loaded.
Proof.
  intros Hagree. revert loaded. induction files as [|f rest IH]; intros loaded; [done|].
  simpl. destruct (gostrings.Contains f "external") eqn:Hext; simpl; [apply IH|].
  unfold loadObjectsFromFile. rewrite (Hagree f Hext).
  destruct (ReadFile' f) as [data|]; [|done].
  destruct (UnmarshalOneOrMany data); [apply IH|done].
Qed.

Lemma loadFiles_filter files loaded :
  loadFiles ReadFile UnmarshalOneOrMany
    (filter (fun f => gostrings.Contains f "external" = false) files) loaded
  = loadFiles ReadFile UnmarshalOneOrMany files loaded.
Proof.
  revert loaded. induction files as [|f rest IH]; intros loaded; [done|].
  destruct (gostrings.Contains f "external") eqn:Hext.
  - rewrite filter_cons_False by (by rewrite Hext). simpl. rewrite Hext. apply IH.
  - rewrite filter_cons_True by done. simpl. rewrite Hext. simpl.
    destruct (loadObjectsFromFile ReadFile UnmarshalOneOrMany f); [apply IH|done].
Qed.

Lemma Strings_filter (P : string -> Prop) `{∀ f, Decision (P f)} x :
  gosort.Strings (filter P x) = filter P (gosort.Strings x).
Proof.
  apply (StronglySorted_unique String.le).
  - apply Strings_sorted.
  - pose proof (Strings_sorted x) as Hs.
    induction Hs as [|a l Hl IH Ha]; [constructor|].
    destruct (decide (P a)).
    + rewrite filter_cons_True by done. constructor; [done|].
      apply Forall_forall. intros b Hb%list_elem_of_filter.
      rewrite Forall_forall in Ha. apply Ha, Hb.
    + by rewrite filter_cons_False.
  - by rewrite !Strings_perm.
Qed.

(** X28. LoadObjects leaves the files with "external" in their path
    alone: it returns the same for a listing and for the listing without
    them, and whatever such a file holds, or whether it can be read at
    all. *)
Theorem LoadObjects_skips_external ReadFile' glob :
  (∀ f, gostrings.Contains f "external" = false -> ReadFile f = ReadFile' f) ->
  LoadObjects ReadFile MarshalMany UnmarshalOneOrMany glob
  = LoadObjects ReadFile' MarshalMany UnmarshalOneOrMany glob ∧
  LoadObjects ReadFile MarshalMany UnmarshalOneOrMany glob
  = LoadObjects ReadFile MarshalMany UnmarshalOneOrMany
      (filter (fun f => gostrings.Contains f "external" = false) glob).
Proof.
  intros Hagree. unfold LoadObjects. cbv zeta. split.
  - by rewrite (loadFiles_agree ReadFile' _ _ Hagree).
  - by rewrite Strings_filter, loadFiles_filter.
Qed.

End Loader.

Lemma LoadObjects_skips_external_witness :
  let glob := ["policy/b.yaml"; "policy/external/c.yaml"; "policy/a.yaml"] in
  LoadObjects toyReadFile toyMarshalMany toyUnmarshalOneOrMany glob
  = LoadObjects (fun f => if decide (f = "policy/external/c.yaml") then Error "gone"
                          else toyReadFile f)
      toyMarshalMany toyUnmarshalOneOrMany glob ∧
  LoadObjects toyReadFile toyMarshalMany toyUnmarshalOneOrMany glob
  = LoadObjects toyReadFile toyMarshalMany toyUnmarshalOneOrMany
      (filter (fun f => gostrings.Contains f "external" = false) glob).
Proof.
  apply (LoadObjects_skips_external toyReadFile toyMarshalMany toyUnmarshalOneOrMany
           (fun f => if decide (f = "policy/external/c.yaml") then Error "gone"
                     else toyReadFile f)
           ["policy/b.yaml"; "policy/external/c.yaml"; "policy/a.yaml"]).
  intros f Hext. destruct (decide (f = "policy/external/c.yaml")) as [->|]; [|done].
  vm_compute in Hext. discriminate.
Defined.

Lemma LoadObjects_order_independent_witness :
  LoadObjects toyReadFile toyMarshalMany toyUnmarshalOneOrMany
    ["policy/b.yaml"; "policy/external/c.yaml"; "policy/a.yaml"]
  = LoadObjects toyReadFile toyMarshalMany toyUnmarshalOneOrMany
      ["policy/a.yaml"; "policy/b.yaml"; "policy/external/c.yaml"].
Proof.
  apply (LoadObjects_order_independent toyReadFile toyMarshalMany toyUnmarshalOneOrMany).
  apply (bool_decide_unpack _). vm_compute. exact I.
Defined.

Example LoadObjects_toy :
  LoadObjects toyReadFile toyMarshalMany toyUnmarshalOneOrMany
    ["policy/b.yaml"; "policy/external/c.yaml"; "policy/a.yaml"]
  = Value ["a1"; "a2"; "b"] ∧
  LoadObjects toyReadFile toyMarshalMany toyUnmarshalOneOrMany
    ["policy/b.yaml"; "policy/missing.yaml"]
  = Error "Error while loading objects from file policy/missing.yaml: Error while reading file policy/missing.yaml: no such file".
Proof. split; vm_compute; reflexivity. Qed.

End lang_loader_facts.

(** ** apiObjectSorter *)
Module api_sorter_facts.
Import runtime api api_facts api_sorter.

Section Sorter.
Context (W : World).

(** X29. apiObjectSorter is a sort.Interface that sort.Sort can work
    with. Less of two positions holds exactly when the first holds an ACL rule
    and the second does not, so it is a strict weak order: nothing is less than
    itself, it is transitive, and so is being neither less nor greater. Swap
    of two positions exchanges the two objects and moves no other, keeps the
    length, and undoes itself. *)
Theorem apiObjectSorter_is_sortable (rs : list (Base W)) i j a b :
  rs !! i = Some a ->
  rs !! j = Some b ->
  (LessAt W rs i j = Some true ↔ isACLRule W a ∧ ¬ isACLRule W b) ∧
  LessAt W rs i i = Some false ∧
  (∀ k, LessAt W rs i j = Some true -> LessAt W rs j k = Some true ->
        LessAt W rs i k = Some true) ∧
  (∀ k, LessAt W rs i j = Some false -> LessAt W rs j i = Some false ->
        LessAt W rs j k = Some false -> LessAt W rs k j = Some false ->
        LessAt W rs i k = Some false ∧ LessAt W rs k i = Some false) ∧
  ∃ rs',
    Swap W rs i j = Some rs' ∧
    rs' !! i = Some b ∧ rs' !! j = Some a ∧
    (∀ k, k ≠ i -> k ≠ j -> rs' !! k = rs !! k) ∧
    Len W rs' = Len W rs ∧
    rs' ≡ₚ rs ∧
    Swap W rs' i j = Some rs.
Proof.
  intros Hi Hj.
  assert (Hless : ∀ x y c d, rs !! x = Some c -> rs !! y = Some d ->
            LessAt W rs x y = Some (Weight W c <? Weight W d)%nat).
  { intros x y c d Hx Hy. unfold LessAt. by rewrite Hx, Hy. }
  assert (Hdef : ∀ x y v, LessAt W rs x y = Some v ->
            ∃ c d, rs !! x = Some c ∧ rs !! y = Some d).
  { intros x y v. unfold LessAt.
    destruct (rs !! x) as [c|]; [|done]. destruct (rs !! y) as [d|]; [|done]. eauto. }
  split; [|split; [|split; [|split]]].
  - rewrite (Hless _ _ _ _ Hi Hj). rewrite <- !Weight_ACL.
    pose proof (Weight_le_1 W a). pose proof (Weight_le_1 W b).
    split.
    + intros [= Hlt]. apply Nat.ltb_lt in Hlt. lia.
    + intros [Ha Hb]. f_equal. apply Nat.ltb_lt. lia.
  - rewrite (Hless _ _ _ _ Hi Hi). by rewrite Nat.ltb_irrefl.
  - intros k Hij Hjk. destruct (Hdef _ _ _ Hjk) as (? & c & Hj' & Hk).
    rewrite (Hless _ _ _ _ Hi Hj) in Hij. rewrite (Hless _ _ _ _ Hj Hk) in Hjk.
    rewrite (Hless _ _ _ _ Hi Hk).
    injection Hij as Hij. injection Hjk as Hjk. f_equal.
    apply Nat.ltb_lt. apply Nat.ltb_lt in Hij, Hjk. lia.
  - intros k Hij Hji Hjk Hkj. destruct (Hdef _ _ _ Hjk) as (? & c & Hj' & Hk).
    rewrite (Hless _ _ _ _ Hi Hj) in Hij. rewrite (Hless _ _ _ _ Hj Hi) in Hji.
    rewrite (Hless _ _ _ _ Hj Hk) in Hjk. rewrite (Hless _ _ _ _ Hk Hj) in Hkj.
    rewrite (Hless _ _ _ _ Hi Hk), (Hless _ _ _ _ Hk Hi).
    injection Hij as Hij. injection Hji as Hji. injection Hjk as Hjk. injection Hkj as Hkj.
    apply Nat.ltb_ge in Hij, Hji, Hjk, Hkj.
    split; f_equal; apply Nat.ltb_ge; lia.
  - pose proof (lookup_lt_Some _ _ _ Hi) as Hli.
    pose proof (lookup_lt_Some _ _ _ Hj) as Hlj.
    assert (Hi' : (<[j:=a]> (<[i:=b]> rs)) !! i = Some b).
    { destruct (decide (i = j)) as [->|Hne].
      - rewrite Hi in Hj. injection Hj as ->.
        rewrite list_lookup_insert_eq; [done|]. by rewrite length_insert.
      - rewrite list_lookup_insert_ne by done. by rewrite list_lookup_insert_eq. }
    assert (Hj' : (<[j:=a]> (<[i:=b]> rs)) !! j = Some a).
    { rewrite list_lookup_insert_eq; [done|]. by rewrite length_insert. }
    exists (<[j:=a]> (<[i:=b]> rs)).
    split; [unfold Swap; by rewrite Hi, Hj|].
    split; [done|]. split; [done|].
    split; [intros k Hki Hkj; by rewrite !list_lookup_insert_ne|].
    split; [unfold Len; by rewrite !length_insert|].
    assert (Hback : <[j:=b]> (<[i:=a]> (<[j:=a]> (<[i:=b]> rs))) = rs).
    { apply list_eq. intros k.
      destruct (decide (k = j)) as [->|Hkj].
      - rewrite list_lookup_insert_eq by (by rewrite !length_insert). done.
      - rewrite list_lookup_insert_ne by done.
        destruct (decide (k = i)) as [->|Hki].
        + rewrite list_lookup_insert_eq by (by rewrite !length_insert). done.
        + by rewrite !list_lookup_insert_ne. }
    split; [|unfold Swap; rewrite Hi', Hj'; simpl; by rewrite Hback].
    by apply Permutation_insert_swap.
Qed.

End Sorter.

End api_sorter_facts.

(** ** The handlers in the small world *)
Module handlers_toy_facts.
Import runtime api toy toy_facts handlers_facts.

Lemma registry_changes_need_all_checks_witness :
  let W := toyWorld in
  let reg := (3, 7) in
  let user := "Sam" in
  let params := fun _ : string => "" in
  let hu := handlePolicyUpdate W reg request user params in
  let hd := handlePolicyDelete W reg request user params in
  let added := Sort W (Less W) request in
  let removed := Sort W (Reverse W (Less W)) request in
  (registry W hu ≠ reg ->
   parseNoop params = false ∧
   (∀ obj, obj ∈ request ->
      OpManage W obj true ∈ policyOps W hu ∧ OpAdd W obj true ∈ policyOps W hu ∧
      clusterValid W obj = true) ∧
   ∃ policyGen desiredState policyCopy policyUpdated,
     loads W reg policyGen desiredState policyCopy ∧
     addAll W user added policyCopy = Some policyUpdated ∧
     policyOps W hu = addCalls W added ∧
     Policy_Validate W policyUpdated = true ∧
     resolves W params "api-policy-update" policyUpdated) ∧
  (registry W hd ≠ reg ->
   parseNoop params = false ∧
   (∀ obj, obj ∈ request ->
      OpManage W obj true ∈ policyOps W hd ∧ OpRemove W obj ∈ policyOps W hd) ∧
   ∃ policyGen desiredState policyCopy policyUpdated,
     loads W reg policyGen desiredState policyCopy ∧
     removeAll W user removed policyCopy = Some policyUpdated ∧
     policyOps W hd = removeCalls W removed ∧
     Policy_Validate W policyUpdated = true ∧
     resolves W params "api-policy-delete" policyUpdated).
Proof.
  apply (registry_changes_need_all_checks toyWorld (3, 7) request "Sam" (fun _ => "")).
  exact toy_SortSpec.
Defined.

Example update_changes_registry :
  let h := handlePolicyUpdate toyWorld (3, 7) request "Sam" (fun _ => "") in
  registry toyWorld h = (4, 8) ∧
  enforcementSignal toyWorld h = true ∧
  response toyWorld h
  = Some (mkResult toyWorld "policy-update-result" 4 true 8
            [("service", "kafka"); ("cluster", "c1"); ("aclrule", "admins")]
            ["api-policy-update"]).
Proof. vm_compute. repeat split. Qed.

Example refused_user_changes_nothing :
  let h := handlePolicyUpdate toyWorld (3, 7) request "Eve" (fun _ => "") in
  registry toyWorld h = (3, 7) ∧
  enforcementSignal toyWorld h = false ∧
  response toyWorld h = None ∧
  policyOps toyWorld h = [OpManage toyWorld ("aclrule", "admins") false].
Proof. vm_compute. repeat split. Qed.

Lemma apiObjectSorter_is_sortable_witness :
  let rs := request in
  let a := ("service", "kafka") in
  let b := ("aclrule", "admins") in
  (api_sorter.LessAt toyWorld rs 0 1 = Some true ↔
     isACLRule toyWorld a ∧ ¬ isACLRule toyWorld b) ∧
  api_sorter.LessAt toyWorld rs 0 0 = Some false ∧
  (∀ k, api_sorter.LessAt toyWorld rs 0 1 = Some true ->
        api_sorter.LessAt toyWorld rs 1 k = Some true ->
        api_sorter.LessAt toyWorld rs 0 k = Some true) ∧
  (∀ k, api_sorter.LessAt toyWorld rs 0 1 = Some false ->
        api_sorter.LessAt toyWorld rs 1 0 = Some false ->
        api_sorter.LessAt toyWorld rs 1 k = Some false ->
        api_sorter.LessAt toyWorld rs k 1 = Some false ->
        api_sorter.LessAt toyWorld rs 0 k = Some false ∧
        api_sorter.LessAt toyWorld rs k 0 = Some false) ∧
  ∃ rs',
    api_sorter.Swap toyWorld rs 0 1 = Some rs' ∧
    rs' !! 0%nat = Some b ∧ rs' !! 1%nat = Some a ∧
    (∀ k, k ≠ 0%nat -> k ≠ 1%nat -> rs' !! k = rs !! k) ∧
    api_sorter.Len toyWorld rs' = api_sorter.Len toyWorld rs ∧
    rs' ≡ₚ rs ∧
    api_sorter.Swap toyWorld rs' 0 1 = Some rs.
Proof.
  apply (api_sorter_facts.apiObjectSorter_is_sortable toyWorld request 0 1
           ("service", "kafka") ("aclrule", "admins")); reflexivity.
Defined.

End handlers_toy_facts.

(** ** The web UI: lists of policy objects *)
Module webui_facts.
Import webui.

Lemma foldl_app_bind {A B} (h : A -> list B) (l : list A) (acc : list B) :
  foldl (fun result x => result ++ h x) acc l = acc ++ (l ≫= h).
Proof.
  revert acc. induction l as [|x l IH]; intros acc; simpl.
  - by rewrite app_nil_r.
  - by rewrite IH, app_assoc.
Qed.

Lemma foldl_ext_in {A B} (f g : B -> A -> B) (l : list A) (acc : B) :
  (∀ r x, x ∈ l -> f r x = g r x) -> foldl f acc l = foldl g acc l.
Proof.
  revert acc. induction l as [|x l IH]; intros acc Hfg; [done|]. simpl.
  rewrite Hfg by (by left). apply IH. intros r y Hy. apply Hfg. by right.
Qed.

Lemma bind_ext_in {A B} (f g : A -> list B) (l : list A) :
  (∀ x, x ∈ l -> f x = g x) -> l ≫= f = l ≫= g.
Proof.
  induction l as [|x l IH]; intros Hfg; [done|]. simpl.
  rewrite (Hfg x) by (by left). f_equal. apply IH. intros y Hy. apply Hfg. by right.
Qed.

Lemma filter_bind {A B} (P : B -> Prop) `{∀ e, Decision (P e)} (f : A -> list B)
    (l : list A) :
  filter P (l ≫= f) = l ≫= (fun x => filter P (f x)).
Proof.
  induction l as [|x l IH]; [done|]. by rewrite !bind_cons, filter_app, IH.
Qed.

Lemma filter_all {B} (P : B -> Prop) `{∀ e, Decision (P e)} (l : list B) :
  (∀ e, e ∈ l -> P e) -> filter P l = l.
Proof.
  induction l as [|e l IH]; intros Hall; [done|].
  rewrite filter_cons_True by (apply Hall; by left).
  f_equal. apply IH. intros e' He'. apply Hall. by right.
Qed.

Lemma filter_none {B} (P : B -> Prop) `{∀ e, Decision (P e)} (l : list B) :
  (∀ e, e ∈ l -> ¬ P e) -> filter P l = [].
Proof.
  induction l as [|e l IH]; intros Hall; [done|].
  rewrite filter_cons_False by (apply Hall; by left).
  apply IH. intros e' He'. apply Hall. by right.
Qed.

Lemma prop_is_Some {A} (obj : jsobject A) key :
  is_Some (prop obj key) ↔ key ∈ keysIn obj.
Proof.
  unfold prop, keysIn. induction obj as [|[k v] obj IH]; simpl.
  - split; [by intros [? ?]|]. by intros ?%elem_of_nil.
  - destruct (decide (k = key)) as [->|Hne].
    + rewrite bool_decide_eq_true_2 by done. simpl. split; [by left|by eexists].
    + rewrite bool_decide_eq_false_2 by done. rewrite IH, elem_of_cons.
      split; [by right|]. by intros [?|?].
Qed.

Section PolicyObjects.
Context {G : Type}.
Implicit Types policyObjects : @PolicyObjects G.

(** The entries of one kind, of one namespace, and of all. *)
Lemma filterObjects_flat policyObjects nsFilter kindFilter :
  filterObjects policyObjects nsFilter kindFilter =
    keysIn policyObjects ≫= fun ns =>
      if passes nsFilter ns then
        keysOf (prop policyObjects ns) ≫= fun kind =>
          if passes kindFilter kind then
            (fun name =>
               mkEntry ns kind name (propOf (propOf (prop policyObjects ns) kind) name))
              <$> keysOf (propOf (prop policyObjects ns) kind)
          else []
      else [].
Proof.
  unfold filterObjects.
  rewrite <- (app_nil_l (_ ≫= _)), <- foldl_app_bind.
  apply foldl_ext_in. intros r ns _.
  destruct (passes nsFilter ns); [|by rewrite app_nil_r].
  rewrite <- foldl_app_bind.
  apply foldl_ext_in. intros r' kind _.
  destruct (passes kindFilter kind); [|by rewrite app_nil_r].
  rewrite (foldl_app_bind (fun name =>
             [mkEntry ns kind name (propOf (propOf (prop policyObjects ns) kind) name)])).
  f_equal.
Qed.

(** X30. filterObjects lists the objects of the policy by namespace, kind
    and name: an entry stands for each name of each kind of each namespace
    of the map, with the generation the map holds for it; a filter that is not
    null keeps the entries of that namespace, or of that kind, and drops the
    others without changing the order; and the namespace of every entry is
    among those getNamespaces gives, which are the keys of the map. *)
Theorem filterObjects_lists_matching_objects policyObjects nsFilter kindFilter :
  filterObjects policyObjects nsFilter kindFilter
    = filter (fun e => passes nsFilter (namespace e) = true ∧
                       passes kindFilter (kind e) = true)
        (filterObjects policyObjects None None) ∧
  (∀ ns kind name gen,
     mkEntry ns kind name (Some gen) ∈ filterObjects policyObjects None None ↔
     ∃ kinds names,
       prop policyObjects ns = Some kinds ∧ prop kinds kind = Some names ∧
       prop names name = Some gen) ∧
  getNamespaces policyObjects = keysIn policyObjects ∧
  (∀ e, e ∈ filterObjects policyObjects nsFilter kindFilter ->
        namespace e ∈ getNamespaces policyObjects).
Proof.
  assert (Hns : getNamespaces policyObjects = keysIn policyObjects).
  { unfold getNamespaces.
    rewrite (foldl_app_bind (fun ns => [ns])), app_nil_l.
    generalize (keysIn policyObjects). intros l.
    induction l as [|x l IH]; [done|]. by rewrite bind_cons, IH. }
  split; [|split; [|split; [done|]]].
  - rewrite !filterObjects_flat, filter_bind.
    apply bind_ext_in. intros ns _. simpl. rewrite filter_bind.
    destruct (passes nsFilter ns) eqn:Hpn.
    + apply bind_ext_in. intros kind _. simpl.
      destruct (passes kindFilter kind) eqn:Hpk.
      * symmetry. apply filter_all. by intros e (name & -> & _)%list_elem_of_fmap.
      * symmetry. apply filter_none. intros e (name & -> & _)%list_elem_of_fmap [_ Hk].
        simpl in Hk. congruence.
    + symmetry. generalize (keysOf (prop policyObjects ns)). intros l.
      induction l as [|kind l IH]; [done|]. rewrite bind_cons, IH, app_nil_r.
      apply filter_none. intros e (name & -> & _)%list_elem_of_fmap [Hn _].
      simpl in Hn. congruence.
  - intros ns kind name gen. rewrite filterObjects_flat. simpl.
    rewrite list_elem_of_bind. split.
    + intros (ns' & He & Hns').
      apply list_elem_of_bind in He as (kind' & He & Hkind').
      apply list_elem_of_fmap in He as (name' & [= -> -> -> Hgen] & Hname').
      destruct (prop policyObjects ns') as [kinds|] eqn:Hk; [|done]. simpl in *.
      destruct (prop kinds kind') as [names|] eqn:Hn; [|done]. simpl in *.
      by exists kinds, names.
    + intros (kinds & names & Hk & Hn & Hg).
      exists ns. split; [|apply prop_is_Some; by rewrite Hk].
      apply list_elem_of_bind. exists kind. rewrite Hk. simpl.
      split; [|apply prop_is_Some; by rewrite Hn].
      apply list_elem_of_fmap. exists name. rewrite Hn. simpl.
      split; [by rewrite Hg|]. apply prop_is_Some. by rewrite Hg.
  - intros e. rewrite Hns, filterObjects_flat, list_elem_of_bind.
    intros (ns & He & Hin).
    destruct (passes nsFilter ns); [|by apply elem_of_nil in He].
    apply list_elem_of_bind in He as (kind & He & _).
    destruct (passes kindFilter kind); [|by apply elem_of_nil in He].
    by apply list_elem_of_fmap in He as (name & -> & _).
Qed.

End PolicyObjects.

Example filterObjects_toy :
  filterObjects toyPolicyObjects None (Some "service")
  = [mkEntry "main" "service" "kafka" (Some 2%nat);
     mkEntry "main" "service" "zoo" (Some 1%nat)] ∧
  filterObjects toyPolicyObjects (Some "system") None
  = [mkEntry "system" "aclrule" "admins" (Some 3%nat)] ∧
  filterObjects toyPolicyObjects (Some "main") (Some "aclrule") = [] ∧
  getNamespaces toyPolicyObjects = ["main"; "system"].
Proof. repeat split. Qed.

End webui_facts.
